(** * bstVisualizer: the step-recording BST core and its playback controller

    A shallow embedding of [src/core/bst.ts], [src/core/pseudocode.ts] and
    the playback controller of [src/canvas/useCanvas.ts], with the
    properties of the specification stated and settled against it.

    Conventions of the embedding:
    - a JavaScript [number] holding a node value, a rank or a line index is
      an integer [Z];
    - [TreeNode | null] is the inductive type [TreeNode] whose constructor
      [Null] is the [null] reference;
    - a [Map<number, HighlightType>] is a [gmap Z HighlightType] (the
      iteration order of the map is not observed by any property below);
    - template literals are built with [+:+] and the decimal printer
      [pretty];
    - the bindings captured by an inner function ([steps], [pathNodes],
      [pathEdges], ...) are threaded explicitly as a record;
    - module [Heap] models the object store with aliasing and in-place
      assignment, and is related to the value-level functions below. *)

From Stdlib Require Import QArith_base.
From stdpp Require Import gmap strings list fin_maps pretty sorting.

Local Open Scope Z_scope.

#[local] Set Warnings "-clear-no-such-hyp".

(** ** Data model ([types.ts]) *)

Inductive TreeNode : Type :=
| Null
| Node (value : Z) (left right : TreeNode).

Inductive HighlightType : Type :=
| Visiting | Found | Inserting | Removing | Path.

#[global] Instance HighlightType_eq_dec : EqDecision HighlightType.
Proof. solve_decision. Defined.

#[global] Instance TreeNode_eq_dec : EqDecision TreeNode.
Proof. solve_decision. Defined.

Record AnimationStep : Type := mkStep {
  highlightNodes : gmap Z HighlightType;
  highlightEdges : list (Z * Z);
  tree : TreeNode;
  description : string;
  codeLine : option Z;
  activeNode : option Z;
}.

(** The object returned by an instrumented operation: a payload (called
    [found], [root] or [result] in the source) and the recorded trace. *)
Record Outcome (A : Type) : Type := mkOutcome {
  payload : A;
  steps : list AnimationStep;
}.
Arguments mkOutcome {A} _ _.
Arguments payload {A} _.
Arguments steps {A} _.

Definition found (r : Outcome bool) : bool := payload r.
Definition root (r : Outcome TreeNode) : TreeNode := payload r.
Definition result (r : Outcome (option Z)) : option Z := payload r.

(** ** Helpers ([bst.ts], lines 5-35) *)

Fixpoint cloneTree (node : TreeNode) : TreeNode :=
  match node with
  | Null => Null
  | Node v l r => Node v (cloneTree l) (cloneTree r)
  end.

Fixpoint countNodes (node : TreeNode) : Z :=
  match node with
  | Null => 0
  | Node _ l r => 1 + countNodes l + countNodes r
  end.

Fixpoint treeHeight (node : TreeNode) : Z :=
  match node with
  | Null => 0
  | Node _ l r => 1 + Z.max (treeHeight l) (treeHeight r)
  end.

(** [findMin] and [findMax] take a non-null node; on [Null], which the
    source type excludes, the embedding returns [Null]. *)
Fixpoint findMin (node : TreeNode) : TreeNode :=
  match node with
  | Null => Null
  | Node _ Null _ => node
  | Node _ l _ => findMin l
  end.

Fixpoint findMax (node : TreeNode) : TreeNode :=
  match node with
  | Null => Null
  | Node _ _ Null => node
  | Node _ _ r => findMax r
  end.

(** [node.value] of a non-null node. *)
Definition valueOf (node : TreeNode) : Z :=
  match node with
  | Null => 0
  | Node v _ _ => v
  end.

(** ** Step builders *)

(** [new Map(pairs)]: later pairs overwrite earlier ones. *)
Definition newMap (pairs : list (Z * HighlightType)) : gmap Z HighlightType :=
  foldl (fun m kv => <[kv.1 := kv.2]> m) ∅ pairs.

(** [[...m.entries()]] *)
Definition entries (m : gmap Z HighlightType) : list (Z * HighlightType) :=
  map_to_list m.

Definition makeStep (t : TreeNode) (descr : string)
    (highlights : list (Z * HighlightType)) (edges : list (Z * Z))
    (line : option Z) (active : option Z) : AnimationStep :=
  {| tree := cloneTree t;
     description := descr;
     highlightNodes := newMap highlights;
     highlightEdges := edges;
     codeLine := line;
     activeNode := active |}.

Definition makeTraversalStep (t : TreeNode) (descr : string)
    (currentNode : Z) (currentType : HighlightType)
    (visitedNodes : gmap Z HighlightType) (visitedEdges : list (Z * Z))
    (line : Z) : AnimationStep :=
  let highlights := <[currentNode := currentType]> visitedNodes in
  {| tree := cloneTree t;
     description := descr;
     highlightNodes := highlights;
     highlightEdges := visitedEdges;
     codeLine := Some line;
     activeNode := Some currentNode |}.

(** The three bindings every operation closes over. *)
Record Recorder : Type := mkRecorder {
  rec_steps : list AnimationStep;
  rec_nodes : gmap Z HighlightType;
  rec_edges : list (Z * Z);
}.

Definition emptyRecorder : Recorder := mkRecorder [] ∅ [].

(** [steps.push(s)] *)
Definition push (s : AnimationStep) (st : Recorder) : Recorder :=
  mkRecorder (rec_steps st ++ [s]) (rec_nodes st) (rec_edges st).

(** [pathNodes.set(k, h)] *)
Definition setNode (k : Z) (h : HighlightType) (st : Recorder) : Recorder :=
  mkRecorder (rec_steps st) (<[k := h]> (rec_nodes st)) (rec_edges st).

(** [pathEdges.push([a, b])] *)
Definition pushEdge (e : Z * Z) (st : Recorder) : Recorder :=
  mkRecorder (rec_steps st) (rec_nodes st) (rec_edges st ++ [e]).

(** [if (parent !== null) pathEdges.push([parent, node.value])] *)
Definition pushParentEdge (parent : option Z) (v : Z) (st : Recorder) : Recorder :=
  match parent with
  | Some p => pushEdge (p, v) st
  | None => st
  end.

(** [steps.push(makeTraversalStep(root, d, cur, ty, pathNodes, pathEdges, line))] *)
Definition pushTraversal (t : TreeNode) (d : string) (cur : Z)
    (ty : HighlightType) (line : Z) (st : Recorder) : Recorder :=
  push (makeTraversalStep t d cur ty (rec_nodes st) (rec_edges st) line) st.

(** [steps.push(makeStep(root, d, [...pathNodes.entries()], [...pathEdges], line))] *)
Definition pushSummary (t : TreeNode) (d : string) (line : option Z)
    (st : Recorder) : Recorder :=
  push (makeStep t d (entries (rec_nodes st)) (rec_edges st) line None) st.

Definition show (z : Z) : string := pretty z.

(** ** Search ([bst.ts], lines 67-107) *)

Fixpoint searchLoop (root0 : TreeNode) (value : Z) (node : TreeNode)
    (parent : option Z) (st : Recorder) : Outcome bool :=
  match node with
  | Null =>
      let st := pushSummary root0 "Reached null" (Some 0) st in
      let st := pushSummary root0 (show value +:+ " not found in tree") (Some 1) st in
      mkOutcome false (rec_steps st)
  | Node nv l r =>
      let st := pushParentEdge parent nv st in
      let st := setNode nv Visiting st in
      let st := pushTraversal root0 ("Visit node " +:+ show nv) nv Visiting 0 st in
      if value =? nv then
        let st := setNode nv Found st in
        let st := pushTraversal root0 (show nv +:+ " == " +:+ show value +:+ ". Found!")
                    nv Found 2 st in
        let st := pushTraversal root0 ("Value " +:+ show value +:+ " is found.")
                    nv Found 3 st in
        mkOutcome true (rec_steps st)
      else
        let st :=
          if value <? nv
          then pushTraversal root0 (show value +:+ " < " +:+ show nv +:+ ", go left")
                 nv Visiting 6 st
          else pushTraversal root0 (show value +:+ " > " +:+ show nv +:+ ", go right")
                 nv Visiting 5 st in
        searchLoop root0 value (if value <? nv then l else r) (Some nv) st
  end.

Definition searchNode (root0 : TreeNode) (value : Z) : Outcome bool :=
  searchLoop root0 value root0 None emptyRecorder.

(** ** Insert ([bst.ts], lines 118-159)

    [insertNode] works on [cloneTree(root)].  The inner [insert] assigns
    [node.left] or [node.right] only after its recursive call has returned
    and emits nothing afterwards, so every step recorded during the descent
    snapshots the unchanged clone [root0]; the assignments themselves
    rebuild the path as [Node nv l' r] and [Node nv l r']. *)

Fixpoint insert (root0 : TreeNode) (value : Z) (node : TreeNode)
    (parent : option Z) (st : Recorder) : TreeNode * Recorder :=
  match node with
  | Null => (Node value Null Null, st)
  | Node nv l r =>
      let st := pushParentEdge parent nv st in
      let st := setNode nv Visiting st in
      let st := pushTraversal root0 ("Compare " +:+ show value +:+ " with " +:+ show nv)
                  nv Visiting 0 st in
      if value <? nv then
        let st := pushTraversal root0 (show value +:+ " < " +:+ show nv +:+ ", go left")
                    nv Visiting 2 st in
        let '(l', st) := insert root0 value l (Some nv) st in
        (Node nv l' r, st)
      else if value >? nv then
        let st := pushTraversal root0 (show value +:+ " > " +:+ show nv +:+ ", go right")
                    nv Visiting 4 st in
        let '(r', st) := insert root0 value r (Some nv) st in
        (Node nv l r', st)
      else (node, st)
  end.

Definition insertNode (root0 : TreeNode) (value : Z) : Outcome TreeNode :=
  match root0 with
  | Null =>
      let newRoot := Node value Null Null in
      mkOutcome newRoot
        [makeStep newRoot ("Insert " +:+ show value +:+ " as root")
           [(value, Inserting)] [] (Some 1) None]
  | Node _ _ _ =>
      let root1 := cloneTree root0 in
      let '(root2, st) := insert root1 value root1 None emptyRecorder in
      let st := setNode value Inserting st in
      let st := pushSummary root2 ("Inserted " +:+ show value) (Some 1) st in
      mkOutcome root2 (rec_steps st)
  end.

(** ** Remove ([bst.ts], lines 176-238)

    [removeNode] works on [cloneTree(root)].  The inner [remove] overwrites
    [node.value] in the two-children case before it descends again, so the
    steps recorded below that point snapshot a tree that already carries the
    new value.  [ctx] rebuilds the whole tree under the captured [root]
    binding from the current state of the subtree at [node]. *)

Fixpoint remove (value : Z) (ctx : TreeNode -> TreeNode) (node : TreeNode)
    (parent : option Z) (st : Recorder) : TreeNode * Recorder :=
  match node with
  | Null =>
      (Null, pushSummary (ctx Null) (show value +:+ " not found") (Some 1) st)
  | Node nv l r =>
      let st := pushParentEdge parent nv st in
      let st := setNode nv Visiting st in
      let st := pushTraversal (ctx node) ("Visit " +:+ show nv) nv Visiting 0 st in
      if value <? nv then
        let st := pushTraversal (ctx node) (show value +:+ " < " +:+ show nv +:+ ", go left")
                    nv Visiting 2 st in
        let '(l', st) := remove value (fun x => ctx (Node nv x r)) l (Some nv) st in
        (Node nv l' r, st)
      else if value >? nv then
        let st := pushTraversal (ctx node) (show value +:+ " > " +:+ show nv +:+ ", go right")
                    nv Visiting 4 st in
        let '(r', st) := remove value (fun x => ctx (Node nv l x)) r (Some nv) st in
        (Node nv l r', st)
      else
        let st := setNode nv Removing st in
        let st := pushTraversal (ctx node) ("Found " +:+ show nv +:+ ", removing")
                    nv Removing 6 st in
        match l, r with
        | Null, Null =>
            (Null, pushTraversal (ctx node) (show nv +:+ " is a leaf, remove it")
                     nv Removing 7 st)
        | Null, Node _ _ _ =>
            (r, pushTraversal (ctx node) (show nv +:+ " has one child, replace")
                  nv Removing 8 st)
        | Node _ _ _, Null =>
            (l, pushTraversal (ctx node) (show nv +:+ " has one child, replace")
                  nv Removing 8 st)
        | Node _ _ _, Node _ _ _ =>
            let successor := findMin r in
            let sv := valueOf successor in
            let st := setNode sv Found st in
            let st := pushSummary (ctx node)
                        ("Two children, find successor: " +:+ show sv) (Some 9) st in
            let st := pushSummary (ctx node)
                        ("Replace " +:+ show nv +:+ " with " +:+ show sv) (Some 10) st in
            (* node.value = successor.value;
               node.right = remove(node.right, node.value): the second
               argument is [parent]; the value searched for is still the
               captured [value]. *)
            let '(r', st) := remove value (fun x => ctx (Node sv l x)) r (Some sv) st in
            (Node sv l r', st)
        end
  end.

Definition removeNode (root0 : TreeNode) (value : Z) : Outcome TreeNode :=
  let root1 := cloneTree root0 in
  let '(root2, st) := remove value (fun x => x) root1 None emptyRecorder in
  let st := pushSummary root2 "Removal complete" None st in
  mkOutcome root2 (rec_steps st).

(** ** Traversals ([bst.ts], lines 246-397) *)

(** [buildParentMap] fills a child-to-parent map; the traversals build it
    and never read it. *)
Fixpoint buildParentMap (node : TreeNode) (parent : option Z)
    (out : gmap Z Z) : gmap Z Z :=
  match node with
  | Null => out
  | Node nv l r =>
      let out := match parent with Some p => <[nv := p]> out | None => out end in
      let out := buildParentMap l (Some nv) out in
      buildParentMap r (Some nv) out
  end.

(** [if (child) visitedEdges.push([node.value, child.value])] *)
Definition pushChildEdge (nv : Z) (child : TreeNode) (st : Recorder) : Recorder :=
  match child with
  | Null => st
  | Node cv _ _ => pushEdge (nv, cv) st
  end.

Fixpoint inorderWalk (root0 : TreeNode) (node : TreeNode) (st : Recorder) : Recorder :=
  match node with
  | Null => st
  | Node nv l r =>
      let st := pushTraversal root0 ("Go left from " +:+ show nv) nv Visiting 2 st in
      let st := pushChildEdge nv l st in
      let st := inorderWalk root0 l st in
      let st := setNode nv Found st in
      let st := pushTraversal root0 ("Visit " +:+ show nv +:+ " (in-order)") nv Found 3 st in
      let st := pushTraversal root0 ("Go right from " +:+ show nv) nv Visiting 4 st in
      let st := pushChildEdge nv r st in
      inorderWalk root0 r st
  end.

Definition inorderTraversal (root0 : TreeNode) : list AnimationStep :=
  let parentMap := buildParentMap root0 None ∅ in
  let st := inorderWalk root0 root0 emptyRecorder in
  rec_steps (push (makeStep root0 "In-order traversal complete"
                     (entries (rec_nodes st)) (rec_edges st) None None) st).

Fixpoint preorderWalk (root0 : TreeNode) (node : TreeNode) (st : Recorder) : Recorder :=
  match node with
  | Null => st
  | Node nv l r =>
      let st := setNode nv Found st in
      let st := pushTraversal root0 ("Visit " +:+ show nv +:+ " (pre-order)") nv Found 2 st in
      let st := pushTraversal root0 ("Go left from " +:+ show nv) nv Visiting 3 st in
      let st := pushChildEdge nv l st in
      let st := preorderWalk root0 l st in
      let st := pushTraversal root0 ("Go right from " +:+ show nv) nv Visiting 4 st in
      let st := pushChildEdge nv r st in
      preorderWalk root0 r st
  end.

Definition preorderTraversal (root0 : TreeNode) : list AnimationStep :=
  let parentMap := buildParentMap root0 None ∅ in
  let st := preorderWalk root0 root0 emptyRecorder in
  rec_steps (push (makeStep root0 "Pre-order traversal complete"
                     (entries (rec_nodes st)) (rec_edges st) None None) st).

Fixpoint postorderWalk (root0 : TreeNode) (node : TreeNode) (st : Recorder) : Recorder :=
  match node with
  | Null => st
  | Node nv l r =>
      let st := pushTraversal root0 ("Go left from " +:+ show nv) nv Visiting 2 st in
      let st := pushChildEdge nv l st in
      let st := postorderWalk root0 l st in
      let st := pushTraversal root0 ("Go right from " +:+ show nv) nv Visiting 3 st in
      let st := pushChildEdge nv r st in
      let st := postorderWalk root0 r st in
      let st := setNode nv Found st in
      pushTraversal root0 ("Visit " +:+ show nv +:+ " (post-order)") nv Found 4 st
  end.

Definition postorderTraversal (root0 : TreeNode) : list AnimationStep :=
  let parentMap := buildParentMap root0 None ∅ in
  let st := postorderWalk root0 root0 emptyRecorder in
  rec_steps (push (makeStep root0 "Post-order traversal complete"
                     (entries (rec_nodes st)) (rec_edges st) None None) st).

(** ** Predecessor and successor ([bst.ts], lines 410-496) *)

Fixpoint predecessorLoop (root0 : TreeNode) (value : Z) (node : TreeNode)
    (parent : option Z) (predecessor : option Z) (st : Recorder)
    : option Z * Recorder :=
  match node with
  | Null => (predecessor, st)
  | Node nv l r =>
      let st := pushParentEdge parent nv st in
      let st := setNode nv Visiting st in
      let st := pushTraversal root0 ("Visit " +:+ show nv) nv Visiting 1 st in
      if value <=? nv then
        let st := pushTraversal root0 (show value +:+ " <= " +:+ show nv +:+ ", go left")
                    nv Visiting 3 st in
        predecessorLoop root0 value l (Some nv) predecessor st
      else
        let st := setNode nv Found st in
        let st := pushTraversal root0 (show value +:+ " > " +:+ show nv +:+ ", candidate")
                    nv Found 5 st in
        predecessorLoop root0 value r (Some nv) (Some nv) st
  end.

Definition findPredecessor (root0 : TreeNode) (value : Z) : Outcome (option Z) :=
  let st := push (makeStep root0 ("Finding predecessor of " +:+ show value)
                    [] [] (Some 0) None) emptyRecorder in
  let '(predecessor, st) := predecessorLoop root0 value root0 None None st in
  let st :=
    match predecessor with
    | Some pv => pushSummary root0
                   ("Predecessor of " +:+ show value +:+ " is " +:+ show pv) (Some 7) st
    | None => pushSummary root0 ("No predecessor for " +:+ show value) (Some 7) st
    end in
  mkOutcome predecessor (rec_steps st).

Fixpoint successorLoop (root0 : TreeNode) (value : Z) (node : TreeNode)
    (parent : option Z) (successor : option Z) (st : Recorder)
    : option Z * Recorder :=
  match node with
  | Null => (successor, st)
  | Node nv l r =>
      let st := pushParentEdge parent nv st in
      let st := setNode nv Visiting st in
      let st := pushTraversal root0 ("Visit " +:+ show nv) nv Visiting 1 st in
      if value >=? nv then
        let st := pushTraversal root0 (show value +:+ " >= " +:+ show nv +:+ ", go right")
                    nv Visiting 3 st in
        successorLoop root0 value r (Some nv) successor st
      else
        let st := setNode nv Found st in
        let st := pushTraversal root0 (show value +:+ " < " +:+ show nv +:+ ", candidate")
                    nv Found 5 st in
        successorLoop root0 value l (Some nv) (Some nv) st
  end.

Definition findSuccessor (root0 : TreeNode) (value : Z) : Outcome (option Z) :=
  let st := push (makeStep root0 ("Finding successor of " +:+ show value)
                    [] [] (Some 0) None) emptyRecorder in
  let '(successor, st) := successorLoop root0 value root0 None None st in
  let st :=
    match successor with
    | Some sv => pushSummary root0
                   ("Successor of " +:+ show value +:+ " is " +:+ show sv) (Some 7) st
    | None => pushSummary root0 ("No successor for " +:+ show value) (Some 7) st
    end in
  mkOutcome successor (rec_steps st).

(** ** Select k-th smallest ([bst.ts], lines 508-548) *)

(** The bindings [walk] closes over: the recorder, [count] and [result]. *)
Record Selector : Type := mkSelector {
  sel_rec : Recorder;
  sel_count : Z;
  sel_result : option Z;
}.

Definition onRec (f : Recorder -> Recorder) (s : Selector) : Selector :=
  mkSelector (f (sel_rec s)) (sel_count s) (sel_result s).

Fixpoint selectWalk (root0 : TreeNode) (k : Z) (node : TreeNode)
    (s : Selector) : Selector :=
  match node with
  | Null => s
  | Node nv l r =>
      match sel_result s with
      | Some _ => s
      | None =>
          let s := onRec (pushChildEdge nv l) s in
          let s := selectWalk root0 k l s in
          let s := mkSelector (sel_rec s) (sel_count s + 1) (sel_result s) in
          let s := onRec (setNode nv Visiting) s in
          let s := onRec (pushTraversal root0
                     ("Visit " +:+ show nv +:+ " (count=" +:+ show (sel_count s) +:+ ")")
                     nv Visiting 2) s in
          if sel_count s =? k then
            let s := mkSelector (sel_rec s) (sel_count s) (Some nv) in
            let s := onRec (setNode nv Found) s in
            onRec (pushTraversal root0
                     (show k +:+ "-th smallest is " +:+ show nv) nv Found 4) s
          else
            let s := onRec (pushChildEdge nv r) s in
            selectWalk root0 k r s
      end
  end.

Definition selectKth (root0 : TreeNode) (k : Z) : Outcome (option Z) :=
  let st := push (makeStep root0 ("Select " +:+ show k +:+ "-th smallest")
                    [] [] (Some 0) None) emptyRecorder in
  let s := selectWalk root0 k root0 (mkSelector st 0 None) in
  let st :=
    match sel_result s with
    | None => pushSummary root0 ("k=" +:+ show k +:+ " is out of range") (Some 6) (sel_rec s)
    | Some res => pushSummary root0 ("Result: " +:+ show res) (Some 6) (sel_rec s)
    end in
  mkOutcome (sel_result s) (rec_steps st).

(** ** Tree builders ([bst.ts], lines 552-608) *)

(** [values.add(d)] on an insertion-ordered [Set]. *)
Definition setAdd (d : Z) (values : list Z) : list Z :=
  if bool_decide (d ∈ values) then values else values ++ [d].

(** The sampling loop of [createRandomTree].  [draws] lists the successive
    values of [Math.floor(Math.random() * 99) + 1]; the loop has no result
    when the draws run out before [size] distinct values are collected. *)
Fixpoint sampleValues (size : Z) (draws : list Z) (values : list Z)
    : option (list Z) :=
  if bool_decide (Z.of_nat (length values) < size) then
    match draws with
    | [] => None
    | d :: draws' => sampleValues size draws' (setAdd d values)
    end
  else Some values.

(** [for (const v of values) { ... insertNode(root, v) ... }] *)
Fixpoint insertAll (values : list Z) (root0 : TreeNode)
    (allSteps : list AnimationStep) : TreeNode * list AnimationStep :=
  match values with
  | [] => (root0, allSteps)
  | v :: values' =>
      let r := insertNode root0 v in
      insertAll values' (root r) (allSteps ++ steps r)
  end.

Definition createRandomTree (size : Z) (draws : list Z)
    : option (Outcome TreeNode) :=
  match sampleValues size draws [] with
  | None => None
  | Some values =>
      let '(root1, allSteps) := insertAll values Null [] in
      Some (mkOutcome root1
              (allSteps ++ [makeStep root1
                 ("Created BST with " +:+ show size +:+ " nodes") [] [] None None]))
  end.

Fixpoint insertPlain (root0 : TreeNode) (value : Z) : TreeNode :=
  match root0 with
  | Null => Node value Null Null
  | Node nv l r =>
      if value <? nv then Node nv (insertPlain l value) r
      else if value >? nv then Node nv l (insertPlain r value)
      else root0
  end.

Definition insertOrder : list Z :=
  [50; 30; 70; 15; 40; 60; 85;
   8; 22; 35; 45; 55; 65; 80; 95;
   4; 11; 20; 25;
   2; 1].

Definition createDefaultTree : TreeNode :=
  foldl insertPlain Null insertOrder.

(** ** Pseudocode registry ([pseudocode.ts]) *)

Inductive OperationType : Type :=
| OpCreate | OpSearch | OpInsert | OpRemove | OpPredecessor | OpSuccessor
| OpSelectKth | OpInorder | OpPreorder | OpPostorder.

(** The string each member of the [OperationType] union stands for. *)
Definition opName (op : OperationType) : string :=
  match op with
  | OpCreate => "create"
  | OpSearch => "search"
  | OpInsert => "insert"
  | OpRemove => "remove"
  | OpPredecessor => "predecessor"
  | OpSuccessor => "successor"
  | OpSelectKth => "selectKth"
  | OpInorder => "inorder"
  | OpPreorder => "preorder"
  | OpPostorder => "postorder"
  end.

Record PseudocodeEntry : Type := mkEntry {
  lines : list string;
  title : string;
}.

Definition PSEUDOCODE : gmap string PseudocodeEntry :=
  list_to_map [
    ("search", mkEntry
       ["if this == null";
        "  return null";
        "else if this.key == search value";
        "  return this";
        "else if this.key < search value";
        "  search right";
        "else search left"] "Search");
    ("insert", mkEntry
       ["if this == null";
        "  create new node";
        "else if value < this.key";
        "  go left";
        "else if value > this.key";
        "  go right"] "Insert");
    ("remove", mkEntry
       ["if this == null";
        "  return (not found)";
        "else if value < this.key";
        "  go left";
        "else if value > this.key";
        "  go right";
        "else // found the node";
        "  if leaf node: remove it";
        "  if one child: bypass";
        "  if two children:";
        "    replace with successor";
        "    remove successor from right"] "Remove");
    ("create", mkEntry
       ["if this == null";
        "  create new node";
        "else if value < this.key";
        "  go left";
        "else if value > this.key";
        "  go right"] "Create");
    ("inorder", mkEntry
       ["if node == null";
        "  return";
        "inorder(node.left)";
        "visit node";
        "inorder(node.right)"] "In-Order Traversal");
    ("preorder", mkEntry
       ["if node == null";
        "  return";
        "visit node";
        "preorder(node.left)";
        "preorder(node.right)"] "Pre-Order Traversal");
    ("postorder", mkEntry
       ["if node == null";
        "  return";
        "postorder(node.left)";
        "postorder(node.right)";
        "visit node"] "Post-Order Traversal");
    ("predecessor", mkEntry
       ["predecessor = null";
        "while node != null";
        "  if value <= node.key";
        "    go left";
        "  else";
        "    predecessor = node";
        "    go right";
        "return predecessor"] "Predecessor");
    ("successor", mkEntry
       ["successor = null";
        "while node != null";
        "  if value >= node.key";
        "    go right";
        "  else";
        "    successor = node";
        "    go left";
        "return successor"] "Successor");
    ("selectKth", mkEntry
       ["count = 0, result = null";
        "inorder(node.left)";
        "count++";
        "if count == k";
        "  result = node.key";
        "inorder(node.right)";
        "return result"] "Select k-th")
  ].

Definition getPseudocode (op : OperationType) : PseudocodeEntry :=
  default (mkEntry [] (opName op)) (PSEUDOCODE !! opName op).

(** The trace handed to [runAnimation] for each operation kind
    ([App.tsx], [handleOperation] and [handleModalSubmit]).  [value] is the
    number typed into the modal; [size] and [draws] are the random choices
    of the [create] operation, which has no trace when its sampling loop
    has none. *)
Definition operationSteps (op : OperationType) (t : TreeNode) (value : Z)
    (size : Z) (draws : list Z) : option (list AnimationStep) :=
  match op with
  | OpCreate => steps <$> createRandomTree size draws
  | OpSearch => Some (steps (searchNode t value))
  | OpInsert => Some (steps (insertNode t value))
  | OpRemove => Some (steps (removeNode t value))
  | OpPredecessor => Some (steps (findPredecessor t value))
  | OpSuccessor => Some (steps (findSuccessor t value))
  | OpSelectKth => Some (steps (selectKth t value))
  | OpInorder => Some (inorderTraversal t)
  | OpPreorder => Some (preorderTraversal t)
  | OpPostorder => Some (postorderTraversal t)
  end.

(** ** Playback controller ([useCanvas.ts], lines 83-181)

    The two callbacks append to a log.  [timerId] is [Some d] exactly
    while a timeout of delay [d] is pending; the expiry of that timeout is
    the command [Fire].  A delay [baseDelay / speed] is kept as the pair
    of its dividend and divisor. *)

Module Playback.

Inductive Event : Type :=
| OnStep (s : AnimationStep)
| OnComplete.

Record Delay : Type := mkDelay {
  dividend : Z;
  divisor : Q;
}.

Record Controller : Type := mkController {
  index : Z;
  timerId : option Delay;
  speed : Q;
  log : list Event;
}.

Definition baseDelay : Z := 600.

Section Controller.

Variable steps : list AnimationStep.

Definition total : Z := Z.of_nat (length steps).

Definition createPlayback : Controller := mkController 0 None 1%Q [].

Definition emitCurrent (c : Controller) : Controller :=
  if bool_decide (0 <= index c) && bool_decide (index c < total) then
    match steps !! Z.to_nat (index c) with
    | Some s => mkController (index c) (timerId c) (speed c) (log c ++ [OnStep s])
    | None => c
    end
  else c.

Definition stop (c : Controller) : Controller :=
  mkController (index c) None (speed c) (log c).

Definition onComplete (c : Controller) : Controller :=
  mkController (index c) (timerId c) (speed c) (log c ++ [OnComplete]).

Definition advance (c : Controller) : Controller :=
  mkController (index c + 1) (timerId c) (speed c) (log c).

Definition tick (c : Controller) : Controller :=
  if bool_decide (index c >= total) then onComplete c
  else
    let c := emitCurrent c in
    let c := advance c in
    mkController (index c) (Some (mkDelay baseDelay (speed c))) (speed c) (log c).

Definition play (c : Controller) : Controller := tick (stop c).

(** The pending timeout, if any, expires and runs [tick]. *)
Definition fire (c : Controller) : Controller :=
  match timerId c with
  | Some _ => tick (mkController (index c) None (speed c) (log c))
  | None => c
  end.

Definition pause (c : Controller) : Controller := stop c.

Definition stepForward (c : Controller) : Controller :=
  let c := stop c in
  let c := if bool_decide (index c < total) then advance (emitCurrent c) else c in
  if bool_decide (index c >= total) then onComplete c else c.

Definition stepBackward (c : Controller) : Controller :=
  let c := stop c in
  if bool_decide (index c > 0) then
    emitCurrent (mkController (index c - 1) (timerId c) (speed c) (log c))
  else c.

Definition goToStart (c : Controller) : Controller :=
  let c := stop c in
  emitCurrent (mkController 0 (timerId c) (speed c) (log c)).

Definition goToEnd (c : Controller) : Controller :=
  let c := stop c in
  let c := emitCurrent (mkController (total - 1) (timerId c) (speed c) (log c)) in
  mkController total (timerId c) (speed c) (log c).

Definition setSpeed (s : Q) (c : Controller) : Controller :=
  mkController (index c) (timerId c) s (log c).

Definition getIndex (c : Controller) : Z := index c.

Definition getTotal (c : Controller) : Z := total.

Definition destroy (c : Controller) : Controller := stop c.

(** What can happen to a controller: a call of one of its methods, or the
    expiry of its timeout. *)
Inductive Command : Type :=
| Play | Pause | StepForward | StepBackward | GoToStart | GoToEnd
| SetSpeed (s : Q) | Destroy | Fire.

Definition exec (c : Controller) (cmd : Command) : Controller :=
  match cmd with
  | Play => play c
  | Pause => pause c
  | StepForward => stepForward c
  | StepBackward => stepBackward c
  | GoToStart => goToStart c
  | GoToEnd => goToEnd c
  | SetSpeed s => setSpeed s c
  | Destroy => destroy c
  | Fire => fire c
  end.

Definition run (cmds : list Command) : Controller :=
  foldl exec createPlayback cmds.

End Controller.

(** Number of completion notifications in a log. *)
Definition isComplete (e : Event) : bool :=
  match e with
  | OnComplete => true
  | OnStep _ => false
  end.

Definition completions (l : list Event) : nat :=
  length (List.filter isComplete l).

End Playback.

(** * The object store

    [insertNode] and [removeNode] assign to fields of objects
    ([node.left = ...], [node.value = ...]).  This module embeds them once
    more over an explicit store, where a [TreeNode] object is a cell at a
    location, [null] is [None], and an assignment updates the cell in
    place for every holder of the reference.  A computation threads the
    store and the recorder; it has no result when a reference is not in
    the store or when the recursion budget [fuel] is used up. *)

Module Heap.

Definition loc : Type := positive.

Record Cell : Type := mkCell {
  value : Z;
  left : option loc;
  right : option loc;
}.

Record AnimationStep : Type := mkStep {
  highlightNodes : gmap Z HighlightType;
  highlightEdges : list (Z * Z);
  tree : option loc;
  description : string;
  codeLine : option Z;
  activeNode : option Z;
}.

Record State : Type := mkState {
  store : gmap loc Cell;
  st_steps : list AnimationStep;
  st_nodes : gmap Z HighlightType;
  st_edges : list (Z * Z);
}.

Definition initial (h : gmap loc Cell) : State := mkState h [] ∅ [].

Definition M (A : Type) : Type := State → option (A * State).

#[global] Instance M_ret : MRet M := λ A a st, Some (a, st).

#[global] Instance M_bind : MBind M := λ A B f m st,
  match m st with
  | Some (a, st') => f a st'
  | None => None
  end.

Definition fail {A : Type} : M A := λ _, None.

(** [{ value, left, right }]: a new object at a location not in use. *)
Definition new (c : Cell) : M loc := λ st,
  let l := fresh (dom (store st)) in
  Some (l, mkState (<[l := c]> (store st)) (st_steps st) (st_nodes st) (st_edges st)).

Definition get (l : loc) : M Cell := λ st,
  match store st !! l with
  | Some c => Some (c, st)
  | None => None
  end.

Definition put (l : loc) (f : Cell → Cell) : M unit := λ st,
  match store st !! l with
  | Some c =>
      Some (tt, mkState (<[l := f c]> (store st)) (st_steps st) (st_nodes st) (st_edges st))
  | None => None
  end.

(** [node.value = v], [node.left = p], [node.right = p] *)
Definition setValue (l : loc) (v : Z) : M unit :=
  put l (λ c, mkCell v (left c) (right c)).
Definition setLeft (l : loc) (p : option loc) : M unit :=
  put l (λ c, mkCell (value c) p (right c)).
Definition setRight (l : loc) (p : option loc) : M unit :=
  put l (λ c, mkCell (value c) (left c) p).

Fixpoint cloneTree (fuel : nat) (node : option loc) : M (option loc) :=
  match fuel with
  | O => fail
  | S fuel =>
      match node with
      | None => mret None
      | Some n =>
          c ← get n;
          l' ← cloneTree fuel (left c);
          c' ← get n;
          r' ← cloneTree fuel (right c');
          n' ← new (mkCell (value c) l' r');
          mret (Some n')
      end
  end.

(** [while (cur.left) cur = cur.left; return cur] *)
Fixpoint findMin (fuel : nat) (cur : loc) : M loc :=
  match fuel with
  | O => fail
  | S fuel =>
      c ← get cur;
      match left c with
      | Some l => findMin fuel l
      | None => mret cur
      end
  end.

Definition makeStep (fuel : nat) (t : option loc) (descr : string)
    (highlights : list (Z * HighlightType)) (edges : list (Z * Z))
    (line : option Z) (active : option Z) : M AnimationStep :=
  t' ← cloneTree fuel t;
  mret {| tree := t';
          description := descr;
          highlightNodes := newMap highlights;
          highlightEdges := edges;
          codeLine := line;
          activeNode := active |}.

Definition makeTraversalStep (fuel : nat) (t : option loc) (descr : string)
    (currentNode : Z) (currentType : HighlightType)
    (visitedNodes : gmap Z HighlightType) (visitedEdges : list (Z * Z))
    (line : Z) : M AnimationStep :=
  let highlights := <[currentNode := currentType]> visitedNodes in
  t' ← cloneTree fuel t;
  mret {| tree := t';
          description := descr;
          highlightNodes := highlights;
          highlightEdges := visitedEdges;
          codeLine := Some line;
          activeNode := Some currentNode |}.

(** The current contents of the captured [steps] array. *)
Definition getSteps : M (list AnimationStep) := λ st, Some (st_steps st, st).

Definition push (s : AnimationStep) : M unit := λ st,
  Some (tt, mkState (store st) (st_steps st ++ [s]) (st_nodes st) (st_edges st)).

Definition setNode (k : Z) (h : HighlightType) : M unit := λ st,
  Some (tt, mkState (store st) (st_steps st) (<[k := h]> (st_nodes st)) (st_edges st)).

Definition pushParentEdge (parent : option Z) (v : Z) : M unit := λ st,
  match parent with
  | Some p =>
      Some (tt, mkState (store st) (st_steps st) (st_nodes st) (st_edges st ++ [(p, v)]))
  | None => Some (tt, st)
  end.

Definition pushTraversal (fuel : nat) (t : option loc) (d : string) (cur : Z)
    (ty : HighlightType) (line : Z) : M unit := λ st,
  (s ← makeTraversalStep fuel t d cur ty (st_nodes st) (st_edges st) line; push s) st.

Definition pushSummary (fuel : nat) (t : option loc) (d : string)
    (line : option Z) : M unit := λ st,
  (s ← makeStep fuel t d (entries (st_nodes st)) (st_edges st) line None; push s) st.

(** The inner [insert] of [insertNode]; [root1] is the captured [root]
    binding, which holds the clone while [insert] runs. *)
Fixpoint insert (fuel : nat) (root1 : option loc) (v : Z) (node : option loc)
    (parent : option Z) : M loc :=
  match fuel with
  | O => fail
  | S fuel' =>
      match node with
      | None => new (mkCell v None None)
      | Some n =>
          c ← get n;
          let nv := value c in
          pushParentEdge parent nv;;
          setNode nv Visiting;;
          pushTraversal fuel root1 ("Compare " +:+ show v +:+ " with " +:+ show nv)
            nv Visiting 0;;
          if v <? nv then
            pushTraversal fuel root1 (show v +:+ " < " +:+ show nv +:+ ", go left")
              nv Visiting 2;;
            c ← get n;
            l' ← insert fuel' root1 v (left c) (Some nv);
            setLeft n (Some l');;
            mret n
          else if v >? nv then
            pushTraversal fuel root1 (show v +:+ " > " +:+ show nv +:+ ", go right")
              nv Visiting 4;;
            c ← get n;
            r' ← insert fuel' root1 v (right c) (Some nv);
            setRight n (Some r');;
            mret n
          else mret n
      end
  end.

Definition insertNode (fuel : nat) (root0 : option loc) (v : Z)
    : M (loc * list AnimationStep) :=
  match root0 with
  | None =>
      newRoot ← new (mkCell v None None);
      s ← makeStep fuel (Some newRoot) ("Insert " +:+ show v +:+ " as root")
            [(v, Inserting)] [] (Some 1) None;
      push s;;
      recorded ← getSteps;
      mret (newRoot, recorded)
  | Some _ =>
      root1 ← cloneTree fuel root0;
      root2 ← insert fuel root1 v root1 None;
      setNode v Inserting;;
      pushSummary fuel (Some root2) ("Inserted " +:+ show v) (Some 1);;
      recorded ← getSteps;
      mret (root2, recorded)
  end.

(** The inner [remove] of [removeNode]; [root1] is the captured [root]
    binding, which holds the clone while [remove] runs. *)
Fixpoint remove (fuel : nat) (root1 : option loc) (v : Z) (node : option loc)
    (parent : option Z) : M (option loc) :=
  match fuel with
  | O => fail
  | S fuel' =>
      match node with
      | None =>
          pushSummary fuel root1 (show v +:+ " not found") (Some 1);;
          mret None
      | Some n =>
          c ← get n;
          let nv := value c in
          pushParentEdge parent nv;;
          setNode nv Visiting;;
          pushTraversal fuel root1 ("Visit " +:+ show nv) nv Visiting 0;;
          if v <? nv then
            pushTraversal fuel root1 (show v +:+ " < " +:+ show nv +:+ ", go left")
              nv Visiting 2;;
            c ← get n;
            l' ← remove fuel' root1 v (left c) (Some nv);
            setLeft n l';;
            mret (Some n)
          else if v >? nv then
            pushTraversal fuel root1 (show v +:+ " > " +:+ show nv +:+ ", go right")
              nv Visiting 4;;
            c ← get n;
            r' ← remove fuel' root1 v (right c) (Some nv);
            setRight n r';;
            mret (Some n)
          else
            setNode nv Removing;;
            pushTraversal fuel root1 ("Found " +:+ show nv +:+ ", removing")
              nv Removing 6;;
            c ← get n;
            match left c, right c with
            | None, None =>
                pushTraversal fuel root1 (show nv +:+ " is a leaf, remove it")
                  nv Removing 7;;
                mret None
            | None, Some r =>
                pushTraversal fuel root1 (show nv +:+ " has one child, replace")
                  nv Removing 8;;
                c ← get n;
                mret (right c)
            | Some l, None =>
                pushTraversal fuel root1 (show nv +:+ " has one child, replace")
                  nv Removing 8;;
                c ← get n;
                mret (left c)
            | Some l, Some r =>
                successor ← findMin fuel r;
                sc ← get successor;
                let sv := value sc in
                setNode sv Found;;
                pushSummary fuel root1
                  ("Two children, find successor: " +:+ show sv) (Some 9);;
                pushSummary fuel root1
                  ("Replace " +:+ show nv +:+ " with " +:+ show sv) (Some 10);;
                sc ← get successor;
                setValue n (value sc);;
                c ← get n;
                r' ← remove fuel' root1 v (right c) (Some (value c));
                setRight n r';;
                mret (Some n)
            end
      end
  end.

Definition removeNode (fuel : nat) (root0 : option loc) (v : Z)
    : M (option loc * list AnimationStep) :=
  root1 ← cloneTree fuel root0;
  root2 ← remove fuel root1 v root1 None;
  pushSummary fuel root2 "Removal complete" None;;
  recorded ← getSteps;
  mret (root2, recorded).

End Heap.

(** * Specification vocabulary *)

(** ** Trees *)

(** The values held by the nodes of a tree, listed in order. *)
Fixpoint values (t : TreeNode) : list Z :=
  match t with
  | Null => []
  | Node v l r => values l ++ v :: values r
  end.

(** The BST invariant: at every node, every value of the left subtree is
    strictly less than the node's value and every value of the right
    subtree is strictly greater. *)
Fixpoint bst (t : TreeNode) : Prop :=
  match t with
  | Null => True
  | Node v l r =>
      Forall (fun x => x < v) (values l) ∧ Forall (fun x => v < x) (values r)
      ∧ bst l ∧ bst r
  end.

#[global] Instance bst_dec (t : TreeNode) : Decision (bst t).
Proof. induction t; simpl; apply _. Defined.

(** The values of a tree sorted in ascending order. *)
Definition sortedValues (t : TreeNode) : list Z := merge_sort Z.le (values t).

(** Number of nodes on the longest path from the root. *)
Fixpoint depth (t : TreeNode) : nat :=
  match t with
  | Null => 0
  | Node _ l r => S (Nat.max (depth l) (depth r))
  end.

(** The tree [remove] returns, without the recording. *)
Fixpoint removePlain (v : Z) (t : TreeNode) : TreeNode :=
  match t with
  | Null => Null
  | Node nv l r =>
      if v <? nv then Node nv (removePlain v l) r
      else if v >? nv then Node nv l (removePlain v r)
      else
        match l, r with
        | Null, Null => Null
        | Null, Node _ _ _ => r
        | Node _ _ _, Null => l
        | Node _ _ _, Node _ _ _ => Node (valueOf (findMin r)) l (removePlain v r)
        end
  end.

(** The node holding [v], reached by comparisons from the root, has two
    children. *)
Fixpoint twoChildrenAt (v : Z) (t : TreeNode) : bool :=
  match t with
  | Null => false
  | Node nv l r =>
      if v <? nv then twoChildrenAt v l
      else if v >? nv then twoChildrenAt v r
      else
        match l, r with
        | Node _ _ _, Node _ _ _ => true
        | _, _ => false
        end
  end.

(** Small trees used as concrete inputs. *)
Definition tree_1_2 : TreeNode := Node 2 (Node 1 Null Null) Null.
Definition tree_1_2_3 : TreeNode := Node 2 (Node 1 Null Null) (Node 3 Null Null).

(** ** Highlights *)

(** A node is highlighted in a step when the step's map has an entry for
    it; an edge is highlighted when the step's list holds it. *)
Definition nodeHighlighted (n : Z) (s : AnimationStep) : Prop :=
  is_Some (highlightNodes s !! n).

Definition edgeHighlighted (e : Z * Z) (s : AnimationStep) : Prop :=
  e ∈ highlightEdges s.

(** Every node and every edge highlighted in a step is highlighted in
    every later step. *)
Definition cumulative (trace : list AnimationStep) : Prop :=
  ∀ (i j : nat) si sj, (i < j)%nat →
    trace !! i = Some si → trace !! j = Some sj →
    (∀ n, nodeHighlighted n si → nodeHighlighted n sj)
    ∧ (∀ e, edgeHighlighted e si → edgeHighlighted e sj).

(** The highlight of [n] in [s] is the transient marker of the node being
    examined: [n] is the step's active node and is coloured [Visiting]. *)
Definition transientNode (n : Z) (s : AnimationStep) : Prop :=
  activeNode s = Some n ∧ highlightNodes s !! n = Some Visiting.

Definition neverExcluded (n : Z) (s : AnimationStep) : Prop := False.

(** [sj] keeps every highlight of [si], nodes excluded by [excl] apart. *)
Definition grows (excl : Z → AnimationStep → Prop) (si sj : AnimationStep) : Prop :=
  (∀ n, nodeHighlighted n si → ¬ excl n si → nodeHighlighted n sj)
  ∧ (∀ e, edgeHighlighted e si → edgeHighlighted e sj).

Definition growing (excl : Z → AnimationStep → Prop)
    (trace : list AnimationStep) : Prop :=
  ∀ (i j : nat) si sj, (i < j)%nat →
    trace !! i = Some si → trace !! j = Some sj → grows excl si sj.

(** [cumulative], except for the transient marker of a step's active
    node. *)
Definition cumulativeVisited (trace : list AnimationStep) : Prop :=
  growing transientNode trace.

(** The recorder accounts for a recorded step: its map and its edge list
    hold every highlight of the step, nodes excluded by [excl] apart. *)
Definition covered (excl : Z → AnimationStep → Prop) (st : Recorder)
    (s : AnimationStep) : Prop :=
  (∀ n, nodeHighlighted n s → ¬ excl n s → is_Some (rec_nodes st !! n))
  ∧ (∀ e, edgeHighlighted e s → e ∈ rec_edges st).

Definition recording (excl : Z → AnimationStep → Prop) (st : Recorder) : Prop :=
  growing excl (rec_steps st) ∧ Forall (covered excl st) (rec_steps st).

(** ** Code lines *)

(** The step's [codeLine], when present, is a 0-based index below [n]. *)
Definition lineBelow (n : Z) (s : AnimationStep) : Prop :=
  ∀ c, codeLine s = Some c → 0 <= c < n.

Definition linesBelow (n : Z) (st : Recorder) : Prop :=
  Forall (lineBelow n) (rec_steps st).

(** ** Playback *)

(** Stepping forward [m] times from a fresh controller, with [m] at least
    the length of the list (and at least one), notifies completion once. *)
Definition completesOnce (trace : list AnimationStep) : Prop :=
  ∀ m : nat, (length trace <= m)%nat → (1 <= m)%nat →
    Playback.completions
      (Playback.log (Playback.run trace (repeat Playback.StepForward m))) = 1%nat.

(** ** The store *)

(** The reference [p] leads, in the store [h], to objects that make up the
    tree [t] (sharing of objects between subtrees is allowed). *)
Fixpoint repr (h : gmap Heap.loc Heap.Cell) (p : option Heap.loc)
    (t : TreeNode) : Prop :=
  match t with
  | Null => p = None
  | Node v tl tr =>
      ∃ l pl pr, p = Some l ∧ h !! l = Some (Heap.mkCell v pl pr)
                 ∧ repr h pl tl ∧ repr h pr tr
  end.

(** The same, where the objects are pairwise distinct and [F] is the set
    of their locations. *)
Fixpoint treeAt (h : gmap Heap.loc Heap.Cell) (p : option Heap.loc)
    (t : TreeNode) (F : gset Heap.loc) : Prop :=
  match t with
  | Null => p = None ∧ F = ∅
  | Node v tl tr =>
      ∃ l pl pr Fl Fr,
        p = Some l ∧ h !! l = Some (Heap.mkCell v pl pr)
        ∧ treeAt h pl tl Fl ∧ treeAt h pr tr Fr
        ∧ (l ∉ Fl) ∧ (l ∉ Fr) ∧ (Fl ## Fr) ∧ F = {[l]} ∪ Fl ∪ Fr
  end.

(** Every object of [h] is in [h'] with the same value and the same
    left and right references. *)
Definition preserved (h h' : gmap Heap.loc Heap.Cell) : Prop :=
  ∀ l c, h !! l = Some c → h' !! l = Some c.

(** The same for the objects outside [F]. *)
Definition preservedOutside (F : gset Heap.loc) (h h' : gmap Heap.loc Heap.Cell) : Prop :=
  ∀ l c, h !! l = Some c → l ∉ F → h' !! l = Some c.

(** The computation [m] started in [st] has a result, and the result and
    the final state satisfy [Q]. *)
Definition returns {A : Type} (m : Heap.M A) (st : Heap.State)
    (Q : A → Heap.State → Prop) : Prop :=
  ∃ a st', m st = Some (a, st') ∧ Q a st'.

(** The store-level step [s] carries the fields of the value-level step
    [s']. *)
Definition sameFields (s : Heap.AnimationStep) (s' : AnimationStep) : Prop :=
  Heap.highlightNodes s = highlightNodes s'
  ∧ Heap.highlightEdges s = highlightEdges s'
  ∧ Heap.description s = description s'
  ∧ Heap.codeLine s = codeLine s'
  ∧ Heap.activeNode s = activeNode s'.

(** ... and its snapshot reference leads to the snapshot of [s']. *)
Definition shows (h : gmap Heap.loc Heap.Cell) (s : Heap.AnimationStep)
    (s' : AnimationStep) : Prop :=
  sameFields s s' ∧ repr h (Heap.tree s) (tree s').

(** ... through objects of its own, none of them in [W]. *)
Definition showsApart (W : gset Heap.loc) (h : gmap Heap.loc Heap.Cell)
    (s : Heap.AnimationStep) (s' : AnimationStep) : Prop :=
  sameFields s s' ∧ ∃ Fs, treeAt h (Heap.tree s) (tree s') Fs ∧ Fs ## W.

(** The recording part of a store-level state mirrors a value-level
    recorder. *)
Definition mirrors (W : gset Heap.loc) (st : Heap.State) (rc : Recorder) : Prop :=
  Forall2 (showsApart W (Heap.store st)) (Heap.st_steps st) (rec_steps rc)
  ∧ Heap.st_nodes st = rec_nodes rc
  ∧ Heap.st_edges st = rec_edges rc.

(** [st'] has the recording part of [st]. *)
Definition sameRecorder (st st' : Heap.State) : Prop :=
  Heap.st_steps st' = Heap.st_steps st
  ∧ Heap.st_nodes st' = Heap.st_nodes st
  ∧ Heap.st_edges st' = Heap.st_edges st.

(** While the objects outside [F] stay as they are in [h], whatever tree
    [t'] (of depth at most [k]) the reference [node] leads to, the
    reference [root1] leads to [ctx t'], of depth at most [d]. *)
Definition ctxAt (h : gmap Heap.loc Heap.Cell) (root1 : option Heap.loc)
    (ctx : TreeNode → TreeNode) (node : option Heap.loc) (F : gset Heap.loc)
    (k d : nat) : Prop :=
  ∀ h' t', preservedOutside F h h' → repr h' node t' → (depth t' <= k)%nat →
           repr h' root1 (ctx t') ∧ (depth (ctx t') <= d)%nat.

(** A store holding the tree 1 <- 2 -> 3 at location 1. *)
Definition store_1_2_3 : gmap Heap.loc Heap.Cell :=
  <[1%positive := Heap.mkCell 2 (Some 2%positive) (Some 3%positive)]>
    (<[2%positive := Heap.mkCell 1 None None]>
       (<[3%positive := Heap.mkCell 3 None None]> ∅)).

(** * Further code and vocabulary *)

(** ** In-order index assignment ([core/layout.ts], lines 21-41)

    [counter] is the shared [{ idx }] object: the function takes its
    current content and returns the content it leaves. *)

Inductive RawPos : Type :=
| RawNull
| RawNode (value : Z) (inorderIdx : Z) (depth : Z) (left right : RawPos).

Fixpoint assignIndices (node : TreeNode) (depth : Z) (counter : Z)
    : RawPos * Z :=
  match node with
  | Null => (RawNull, counter)
  | Node v l r =>
      let '(leftPos, counter) := assignIndices l (depth + 1) counter in
      let inorderIdx := counter in
      let counter := counter + 1 in
      let '(rightPos, counter) := assignIndices r (depth + 1) counter in
      (RawNode v inorderIdx depth leftPos rightPos, counter)
  end.

(** The tree a [RawPos] was built from. *)
Fixpoint rawTree (raw : RawPos) : TreeNode :=
  match raw with
  | RawNull => Null
  | RawNode v _ _ l r => Node v (rawTree l) (rawTree r)
  end.

(** The [inorderIdx] fields, and the [depth] fields, listed in order. *)
Fixpoint rawIndices (raw : RawPos) : list Z :=
  match raw with
  | RawNull => []
  | RawNode _ i _ l r => rawIndices l ++ i :: rawIndices r
  end.

Fixpoint rawDepths (raw : RawPos) : list Z :=
  match raw with
  | RawNull => []
  | RawNode _ _ d l r => rawDepths l ++ d :: rawDepths r
  end.

(** The number of edges from the root to each node, listed in order and
    counted from [d]. *)
Fixpoint levels (t : TreeNode) (d : Z) : list Z :=
  match t with
  | Null => []
  | Node _ l r => levels l (d + 1) ++ d :: levels r (d + 1)
  end.

(** ** Orders of visit *)

Fixpoint preorderValues (t : TreeNode) : list Z :=
  match t with
  | Null => []
  | Node v l r => v :: preorderValues l ++ preorderValues r
  end.

Fixpoint postorderValues (t : TreeNode) : list Z :=
  match t with
  | Null => []
  | Node v l r => postorderValues l ++ postorderValues r ++ [v]
  end.

(** The node a step visits: its active node, when the step colours it
    [Found]. *)
Definition visit (s : AnimationStep) : option Z :=
  match activeNode s with
  | Some n => if decide (highlightNodes s !! n = Some Found) then Some n else None
  | None => None
  end.

(** The nodes visited by a trace, in the order of the steps. *)
Definition visitOrder (trace : list AnimationStep) : list Z := omap visit trace.

(** ** Playback vocabulary *)

(** Two controllers agree on everything but the speed and the delay of
    the pending timeout. *)
Definition sameButSpeed (c c' : Playback.Controller) : Prop :=
  Playback.index c = Playback.index c'
  ∧ Playback.log c = Playback.log c'
  ∧ (Playback.timerId c = None ↔ Playback.timerId c' = None).

Definition isSetSpeed (cmd : Playback.Command) : bool :=
  match cmd with
  | Playback.SetSpeed _ => true
  | _ => false
  end.

(** A command list without its [setSpeed] calls. *)
Definition withoutSetSpeed (cmds : list Playback.Command) : list Playback.Command :=
  List.filter (λ cmd, negb (isSetSpeed cmd)) cmds.

(** The cursor of a controller is within the list or just past it, and
    every step passed to [onStep] is a step of the list. *)
Definition wellFormed (trace : list AnimationStep) (c : Playback.Controller) : Prop :=
  0 <= Playback.index c <= Playback.total trace
  ∧ ∀ s, Playback.OnStep s ∈ Playback.log c → s ∈ trace.

(** ** Recording vocabulary *)

(** Number of steps recorded so far. *)
Definition stepCount (st : Recorder) : Z := Z.of_nat (length (rec_steps st)).

(** A step whose [tree] snapshot is [T], and a recorder all of whose
    steps are such. *)
Definition snapshotOf (T : TreeNode) (s : AnimationStep) : Prop := tree s = T.

Definition snapshots (T : TreeNode) (st : Recorder) : Prop :=
  Forall (snapshotOf T) (rec_steps st).

(** * Properties *)

#[local] Arguments pushTraversal : simpl never.
#[local] Arguments pushSummary : simpl never.
#[local] Arguments pushParentEdge : simpl never.
#[local] Arguments pushChildEdge : simpl never.
#[local] Arguments setNode : simpl never.
#[local] Arguments push : simpl never.
#[local] Arguments show : simpl never.
#[local] Arguments String.append : simpl never.

(** ** Helpers *)

Lemma cloneTree_id (t : TreeNode) : cloneTree t = t.
Proof. induction t as [|v l IHl r IHr]; simpl; congruence. Qed.

Lemma countNodes_length (t : TreeNode) : countNodes t = Z.of_nat (length (values t)).
Proof.
  induction t as [|v l IHl r IHr]; simpl; [reflexivity|].
  rewrite length_app; simpl. lia.
Qed.

Lemma bst_sorted (t : TreeNode) : bst t → StronglySorted Z.lt (values t).
Proof.
  induction t as [|v l IHl r IHr]; simpl.
  - constructor.
  - intros (Hl & Hr & Bl & Br).
    apply StronglySorted_app_2; [| auto | constructor; auto].
    intros x y Hx Hy. rewrite Forall_forall in Hl, Hr.
    apply Hl in Hx. apply elem_of_cons in Hy as [->|Hy]; [done|].
    apply Hr in Hy. lia.
Qed.

Lemma StronglySorted_lt_le (xs : list Z) :
  StronglySorted Z.lt xs → StronglySorted Z.le xs.
Proof.
  induction 1 as [|x xs _ IH Hx]; constructor; [exact IH|].
  eapply Forall_impl; [exact Hx|]. intros y Hy; simpl in Hy; lia.
Qed.

Lemma sortedValues_bst (t : TreeNode) : bst t → sortedValues t = values t.
Proof.
  intros B. unfold sortedValues.
  apply (StronglySorted_unique Z.le).
  - apply (StronglySorted_merge_sort Z.le).
  - apply StronglySorted_lt_le, bst_sorted, B.
  - apply merge_sort_Permutation.
Qed.

(** The scenario of the specification: the default tree has height 7 and
    21 nodes, the predecessor of 30 in it is 25, its smallest value is 1,
    and its values in order are the sorted insertion list. *)
Example default_tree_scenario :
  bst createDefaultTree
  ∧ treeHeight createDefaultTree = 7
  ∧ countNodes createDefaultTree = 21
  ∧ result (findPredecessor createDefaultTree 30) = Some 25
  ∧ result (selectKth createDefaultTree 1) = Some 1
  ∧ values createDefaultTree = merge_sort Z.le insertOrder.
Proof.
  split; [apply (bool_decide_unpack _); vm_compute; reflexivity|].
  vm_compute. repeat split; reflexivity.
Qed.

(** ** Search *)

Lemma searchLoop_found (root0 : TreeNode) (v : Z) (node : TreeNode) :
  bst node → ∀ parent st,
  found (searchLoop root0 v node parent st) = true ↔ v ∈ values node.
Proof.
  induction node as [|nv l IHl r IHr]; simpl; intros B parent st.
  - split; [discriminate | intros H; inversion H].
  - destruct B as (Hl & Hr & Bl & Br).
    rewrite Forall_forall in Hl, Hr.
    destruct (Z.eqb_spec v nv) as [E|Hne]; simpl.
    + split; [intros _ | reflexivity].
      rewrite E, elem_of_app, elem_of_cons. auto.
    + destruct (Z.ltb_spec v nv) as [Hlt|Hge].
      * rewrite (IHl Bl). rewrite elem_of_app, elem_of_cons.
        split; [tauto | intros [H|[H|H]]; [done | done | apply Hr in H; lia]].
      * rewrite (IHr Br). rewrite elem_of_app, elem_of_cons.
        split; [tauto | intros [H|[H|H]]; [apply Hl in H; lia | done | done]].
Qed.

(** C1. On a binary search tree (possibly empty), [searchNode] reports
    [found = true] exactly when some node of the tree holds the searched
    value, and [false] otherwise. *)
Theorem searchNode_found_iff (T : TreeNode) (v : Z) :
  bst T → (found (searchNode T v) = true ↔ v ∈ values T).
Proof. intros B. unfold searchNode. apply searchLoop_found, B. Qed.

Lemma searchNode_found_iff_witness :
  bst tree_1_2_3 ∧ (found (searchNode tree_1_2_3 3) = true ↔ 3 ∈ values tree_1_2_3).
Proof.
  assert (B : bst tree_1_2_3) by (simpl; repeat constructor; lia).
  split; [exact B | exact (searchNode_found_iff tree_1_2_3 3 B)].
Defined.

(** ** Insert *)

Lemma insert_tree (root0 : TreeNode) (v : Z) (node : TreeNode) :
  ∀ parent st, (insert root0 v node parent st).1 = insertPlain node v.
Proof.
  induction node as [|nv l IHl r IHr]; simpl; intros parent st; [reflexivity|].
  destruct (v <? nv).
  - match goal with |- context [insert root0 v l ?p ?s] =>
      specialize (IHl p s); destruct (insert root0 v l p s) end.
    simpl in *. congruence.
  - destruct (v >? nv); [|reflexivity].
    match goal with |- context [insert root0 v r ?p ?s] =>
      specialize (IHr p s); destruct (insert root0 v r p s) end.
    simpl in *. congruence.
Qed.

Lemma insertNode_root (T : TreeNode) (v : Z) :
  root (insertNode T v) = insertPlain T v.
Proof.
  destruct T as [|nv l r]; [reflexivity|].
  unfold insertNode.
  pose proof (insert_tree (cloneTree (Node nv l r)) v (cloneTree (Node nv l r))
                None emptyRecorder) as H.
  destruct (insert _ v _ None emptyRecorder) as [root2 st].
  simpl in H. unfold root; simpl. rewrite H.
  change (insertPlain (cloneTree (Node nv l r)) v = insertPlain (Node nv l r) v).
  now rewrite cloneTree_id.
Qed.

Lemma insertPlain_present (t : TreeNode) (v : Z) :
  bst t → v ∈ values t → insertPlain t v = t.
Proof.
  induction t as [|nv l IHl r IHr]; simpl; [intros _ H; inversion H|].
  intros (Hl & Hr & Bl & Br) Hin.
  rewrite Forall_forall in Hl, Hr.
  rewrite elem_of_app, elem_of_cons in Hin.
  destruct (Z.ltb_spec v nv) as [Hlt|Hge].
  - destruct Hin as [H|[H|H]]; [| lia | apply Hr in H; lia].
    now rewrite IHl.
  - destruct (Z.gtb_spec v nv) as [Hgt|Hle]; [|reflexivity].
    destruct Hin as [H|[H|H]]; [apply Hl in H; lia | lia |].
    now rewrite IHr.
Qed.

Lemma insertPlain_values (t : TreeNode) (v x : Z) :
  x ∈ values (insertPlain t v) ↔ x = v ∨ x ∈ values t.
Proof.
  induction t as [|nv l IHl r IHr]; simpl.
  - rewrite elem_of_cons. tauto.
  - destruct (Z.ltb_spec v nv) as [Hlt|Hge]; simpl.
    + rewrite !elem_of_app, !elem_of_cons, IHl. tauto.
    + destruct (Z.gtb_spec v nv) as [Hgt|Hle]; simpl.
      * rewrite !elem_of_app, !elem_of_cons, IHr. tauto.
      * rewrite !elem_of_app, !elem_of_cons.
        assert (v = nv) by lia. subst v. tauto.
Qed.

Lemma insertPlain_bst (t : TreeNode) (v : Z) : bst t → bst (insertPlain t v).
Proof.
  induction t as [|nv l IHl r IHr]; simpl.
  - intros _. repeat split; constructor.
  - intros (Hl & Hr & Bl & Br).
    destruct (Z.ltb_spec v nv) as [Hlt|Hge]; simpl.
    + repeat split; auto.
      rewrite Forall_forall in *. intros x Hx.
      apply insertPlain_values in Hx as [->|Hx]; auto.
    + destruct (Z.gtb_spec v nv) as [Hgt|Hle]; simpl.
      * repeat split; auto.
        rewrite Forall_forall in *. intros x Hx.
        apply insertPlain_values in Hx as [->|Hx]; [lia | auto].
      * repeat split; auto.
Qed.

(** [insertNode] keeps the BST invariant. *)
Lemma insertNode_bst (T : TreeNode) (v : Z) : bst T → bst (root (insertNode T v)).
Proof. rewrite insertNode_root. apply insertPlain_bst. Qed.

(** C8. Inserting a value that a binary search tree already holds returns
    a root structurally equal to the input: same shape, same values, same
    node count.  ([insertNode] is a total function of the embedding, so the
    call terminates.) *)
Theorem insertNode_duplicate_noop (T : TreeNode) (v : Z) :
  bst T → v ∈ values T →
  root (insertNode T v) = T
  ∧ countNodes (root (insertNode T v)) = countNodes T.
Proof.
  intros B Hin. rewrite insertNode_root, insertPlain_present by assumption.
  split; reflexivity.
Qed.

Lemma insertNode_duplicate_noop_witness :
  bst tree_1_2_3 ∧ 1 ∈ values tree_1_2_3
  ∧ root (insertNode tree_1_2_3 1) = tree_1_2_3
  ∧ countNodes (root (insertNode tree_1_2_3 1)) = countNodes tree_1_2_3.
Proof.
  assert (B : bst tree_1_2_3) by (simpl; repeat constructor; lia).
  assert (I : 1 ∈ values tree_1_2_3) by (simpl; repeat constructor).
  split; [exact B | split; [exact I |]].
  exact (insertNode_duplicate_noop tree_1_2_3 1 B I).
Defined.

(** ** Remove *)

Lemma remove_tree (v : Z) (node : TreeNode) :
  ∀ ctx parent st, (remove v ctx node parent st).1 = removePlain v node.
Proof.
  induction node as [|nv l IHl r IHr]; intros ctx parent st; [reflexivity|].
  cbn [remove removePlain].
  destruct (v <? nv).
  { match goal with |- context [remove v ?c l ?p ?s] =>
      specialize (IHl c p s); destruct (remove v c l p s) end.
    cbn [fst] in *. congruence. }
  destruct (v >? nv).
  { match goal with |- context [remove v ?c r ?p ?s] =>
      specialize (IHr c p s); destruct (remove v c r p s) end.
    cbn [fst] in *. congruence. }
  destruct l as [|lv ll lr], r as [|rv rl rr]; try reflexivity.
  match goal with |- context [remove v ?c (Node rv rl rr) ?p ?s] =>
    specialize (IHr c p s); destruct (remove v c (Node rv rl rr) p s) end.
  cbn [fst] in *. congruence.
Qed.

Lemma removeNode_root (T : TreeNode) (v : Z) :
  root (removeNode T v) = removePlain v T.
Proof.
  unfold removeNode.
  pose proof (remove_tree v (cloneTree T) (fun x => x) None emptyRecorder) as H.
  destruct (remove v _ _ None emptyRecorder) as [root2 st].
  cbn [fst] in H. unfold root; cbn [payload]. rewrite H. now rewrite cloneTree_id.
Qed.

(** Where [removeNode] does what the specification says: an absent value
    leaves a binary search tree as it is, and a present value is gone from
    the result. *)
Lemma removePlain_absent (v : Z) (t : TreeNode) :
  bst t → v ∉ values t → removePlain v t = t.
Proof.
  induction t as [|nv l IHl r IHr]; [reflexivity|].
  intros (Hl & Hr & Bl & Br) Hin. cbn [removePlain values] in *.
  rewrite elem_of_app, elem_of_cons in Hin.
  destruct (Z.ltb_spec v nv) as [Hlt|Hge]; [rewrite IHl; tauto|].
  destruct (Z.gtb_spec v nv) as [Hgt|Hle]; [rewrite IHr; tauto|].
  exfalso. apply Hin. right. left. lia.
Qed.

Lemma removeNode_absent (T : TreeNode) (v : Z) :
  bst T → v ∉ values T → root (removeNode T v) = T.
Proof. intros B H. rewrite removeNode_root. now apply removePlain_absent. Qed.

(** The node count after removing a present value: one less, except when
    the node holding the value has two children, where it stays the same. *)
Lemma removeNode_count (T : TreeNode) (v : Z) :
  bst T → v ∈ values T →
  countNodes (root (removeNode T v))
  = if twoChildrenAt v T then countNodes T else countNodes T - 1.
Proof.
  rewrite removeNode_root. induction T as [|nv l IHl r IHr].
  - intros _ H. inversion H.
  - intros (Hl & Hr & Bl & Br) Hin. cbn [removePlain twoChildrenAt values] in *.
    rewrite elem_of_app, elem_of_cons in Hin.
    pose proof Hl as Hl'. pose proof Hr as Hr'.
    rewrite Forall_forall in Hl', Hr'.
    destruct (Z.ltb_spec v nv) as [Hlt|Hge].
    { destruct Hin as [H|[H|H]]; [| lia | apply Hr' in H; lia].
      specialize (IHl Bl H). cbn [countNodes]. destruct (twoChildrenAt v l); lia. }
    destruct (Z.gtb_spec v nv) as [Hgt|Hle].
    { destruct Hin as [H|[H|H]]; [apply Hl' in H; lia | lia |].
      specialize (IHr Br H). cbn [countNodes]. destruct (twoChildrenAt v r); lia. }
    assert (v = nv) by lia. subst v.
    destruct l as [|lv ll lr], r as [|rv rl rr]; cbn [countNodes]; try lia.
    rewrite removePlain_absent; [cbn [countNodes]; lia | exact Br |].
    intros H. apply Hr' in H. lia.
Qed.

Lemma removePlain_subset (v : Z) (t : TreeNode) :
  twoChildrenAt v t = false → ∀ x, x ∈ values (removePlain v t) → x ∈ values t.
Proof.
  induction t as [|nv l IHl r IHr]; cbn [removePlain twoChildrenAt values];
    [auto|].
  destruct (v <? nv).
  { intros H x. cbn [values]. rewrite !elem_of_app, !elem_of_cons.
    intros [Hx|Hx]; [left; apply IHl; auto | tauto]. }
  destruct (v >? nv).
  { intros H x. cbn [values]. rewrite !elem_of_app, !elem_of_cons.
    intros [Hx|[Hx|Hx]]; [tauto | tauto | right; right; apply IHr; auto]. }
  destruct l as [|lv ll lr], r as [|rv rl rr]; try discriminate; intros _ x Hx.
  - inversion Hx.
  - rewrite elem_of_app, elem_of_cons. auto.
  - rewrite elem_of_app, elem_of_cons. auto.
Qed.

Lemma findMin_value (t : TreeNode) : t ≠ Null → valueOf (findMin t) ∈ values t.
Proof.
  induction t as [|nv l IHl r _]; [congruence|]. intros _.
  destruct l as [|lv ll lr].
  - simpl. apply list_elem_of_here.
  - change (findMin (Node nv (Node lv ll lr) r)) with (findMin (Node lv ll lr)).
    cbn [values] in *. rewrite elem_of_app. left. apply IHl. discriminate.
Qed.

(** [removeNode] keeps the BST invariant exactly when the node it removes
    does not have two children. *)
Lemma removeNode_bst_iff (T : TreeNode) (v : Z) :
  bst T → v ∈ values T →
  (bst (root (removeNode T v)) ↔ twoChildrenAt v T = false).
Proof.
  rewrite removeNode_root. induction T as [|nv l IHl r IHr].
  - intros _ H. inversion H.
  - intros (Hl & Hr & Bl & Br) Hin. cbn [removePlain twoChildrenAt values] in *.
    rewrite elem_of_app, elem_of_cons in Hin.
    pose proof Hl as Hl'. pose proof Hr as Hr'.
    rewrite Forall_forall in Hl', Hr'.
    destruct (Z.ltb_spec v nv) as [Hlt|Hge].
    { destruct Hin as [H|[H|H]]; [| lia | apply Hr' in H; lia].
      rewrite <- (IHl Bl H). cbn [bst]. split; [tauto|].
      intros B'. repeat split; auto.
      rewrite Forall_forall. intros x Hx. apply Hl'.
      apply (removePlain_subset v l); [apply IHl; auto | exact Hx]. }
    destruct (Z.gtb_spec v nv) as [Hgt|Hle].
    { destruct Hin as [H|[H|H]]; [apply Hl' in H; lia | lia |].
      rewrite <- (IHr Br H). cbn [bst]. split; [tauto|].
      intros B'. repeat split; auto.
      rewrite Forall_forall. intros x Hx. apply Hr'.
      apply (removePlain_subset v r); [apply IHr; auto | exact Hx]. }
    assert (v = nv) by lia. subst v.
    destruct l as [|lv ll lr], r as [|rv rl rr];
      try (split; [intros _; reflexivity
                  | intros _; first [exact I | exact Br | exact Bl]]).
    split; [|discriminate]. intros (_ & Hmin & _). exfalso.
    rewrite removePlain_absent in Hmin;
      [|exact Br | intros H; apply Hr' in H; lia].
    rewrite Forall_forall in Hmin.
    specialize (Hmin _ (findMin_value (Node rv rl rr) ltac:(discriminate))). lia.
Qed.

(** C2. The BST invariant is not kept by [removeNode] when the removed
    node has two children: removing 2 from the tree 1 <- 2 -> 3 yields
    1 <- 3 -> 3, whose right subtree holds a value equal to the root's.
    (The value handed to the recursive call of line 230 is bound to
    [parent]; the successor is never searched for.) *)
Theorem removeNode_two_children_breaks_bst :
  bst tree_1_2_3
  ∧ root (removeNode tree_1_2_3 2) = Node 3 (Node 1 Null Null) (Node 3 Null Null)
  ∧ ¬ bst (root (removeNode tree_1_2_3 2)).
Proof.
  split; [simpl; repeat constructor; lia|].
  assert (E : root (removeNode tree_1_2_3 2)
              = Node 3 (Node 1 Null Null) (Node 3 Null Null))
    by (vm_compute; reflexivity).
  split; [exact E|]. rewrite E. simpl. intros (_ & H & _).
  inversion H; lia.
Qed.

(** C3. Removing a present value does not always shrink the tree:
    removing 2 from 1 <- 2 -> 3 leaves three nodes (the successor 3 is
    copied into the root and stays in the right subtree). *)
Theorem removeNode_two_children_keeps_count :
  bst tree_1_2_3 ∧ 2 ∈ values tree_1_2_3
  ∧ countNodes (root (removeNode tree_1_2_3 2)) = countNodes tree_1_2_3
  ∧ countNodes (root (removeNode tree_1_2_3 2)) ≠ countNodes tree_1_2_3 - 1
  ∧ values (root (removeNode tree_1_2_3 2)) = [1; 3; 3].
Proof.
  split; [simpl; repeat constructor; lia|].
  split; [simpl; repeat constructor|].
  assert (E : root (removeNode tree_1_2_3 2)
              = Node 3 (Node 1 Null Null) (Node 3 Null Null))
    by (vm_compute; reflexivity).
  rewrite E. simpl. repeat split; lia.
Qed.

(** ** Select k-th *)

Lemma selectWalk_done (root0 : TreeNode) (k : Z) (node : TreeNode)
    (s : Selector) (x : Z) :
  sel_result s = Some x → selectWalk root0 k node s = s.
Proof. intros H. destruct node; simpl; [reflexivity | now rewrite H]. Qed.

(** What one call of [walk] does to [count] and [result] when it starts
    with no result: it finds the value of rank [k - count] among the values
    of its subtree if there is one, and otherwise counts them all. *)
Lemma selectWalk_spec (root0 : TreeNode) (k : Z) (node : TreeNode) :
  ∀ s, sel_result s = None →
  let s' := selectWalk root0 k node s in
  let c := sel_count s in
  let n := Z.of_nat (length (values node)) in
  (c < k <= c + n →
     ∃ x, values node !! Z.to_nat (k - c - 1) = Some x
          ∧ sel_result s' = Some x ∧ k <= sel_count s')
  ∧ (¬ (c < k <= c + n) → sel_result s' = None ∧ sel_count s' = c + n).
Proof.
  induction node as [|nv l IHl r IHr]; intros s Hs; simpl.
  - split; [lia | intros _; split; [exact Hs | lia]].
  - rewrite Hs.
    set (s1 := onRec (pushChildEdge nv l) s).
    assert (Hs1 : sel_result s1 = None) by exact Hs.
    destruct (IHl s1 Hs1) as [Hfound Hmiss]. simpl in Hfound, Hmiss.
    change (sel_count s1) with (sel_count s) in Hfound, Hmiss.
    set (s2 := selectWalk root0 k l s1) in *.
    rewrite length_app; simpl length.
    set (nl := Z.of_nat (length (values l))) in *.
    set (c := sel_count s) in *.
    destruct (decide (c < k <= c + nl)) as [Hin|Hout].
    + destruct (Hfound Hin) as (x & Hx & Hres & Hcnt).
      split; [|lia]. intros _. exists x.
      destruct (Z.eqb_spec (sel_count s2 + 1) k) as [E|_]; [lia|].
      rewrite selectWalk_done with (x := x) by exact Hres.
      simpl. repeat split; [| exact Hres | lia].
      rewrite lookup_app_l; [exact Hx|]. apply lookup_lt_Some in Hx. exact Hx.
    + destruct (Hmiss Hout) as [Hres Hcnt].
      destruct (Z.eqb_spec (sel_count s2 + 1) k) as [E|NE].
      * split; [|lia]. intros _. exists nv. simpl.
        repeat split; [|lia].
        rewrite lookup_app_r by lia.
        replace (Z.to_nat (k - c - 1) - length (values l))%nat with 0%nat by lia.
        reflexivity.
      * match goal with |- context [selectWalk root0 k r ?s3] =>
          destruct (IHr s3 Hres) as [Hfound' Hmiss']; set (s4 := s3) in * end.
        simpl in Hfound', Hmiss'.
        set (nr := Z.of_nat (length (values r))) in *.
        split.
        -- intros Hk. destruct Hfound' as (x & Hx & Hres' & Hcnt'); [lia|].
           exists x. repeat split; [| exact Hres' | exact Hcnt'].
           rewrite lookup_app_r by lia.
           replace (Z.to_nat (k - c - 1) - length (values l))%nat
             with (S (Z.to_nat (k - (sel_count s2 + 1) - 1))) by lia.
           exact Hx.
        -- intros Hk. destruct Hmiss' as [Hres' Hcnt']; [lia|].
           split; [exact Hres' | lia].
Qed.

Lemma selectKth_result (T : TreeNode) (k : Z) :
  result (selectKth T k) =
    if decide (1 <= k <= countNodes T) then values T !! Z.to_nat (k - 1) else None.
Proof.
  unfold selectKth.
  set (st := push _ emptyRecorder).
  destruct (selectWalk_spec T k T (mkSelector st 0 None) eq_refl) as [Hfound Hmiss].
  simpl in Hfound, Hmiss. rewrite <- countNodes_length in Hfound, Hmiss.
  set (s := selectWalk T k T (mkSelector st 0 None)) in *.
  destruct (decide (1 <= k <= countNodes T)) as [Hin|Hout].
  - destruct Hfound as (x & Hx & Hres & _); [lia|].
    replace (k - 0 - 1) with (k - 1) in Hx by lia.
    rewrite Hx. unfold result; simpl. rewrite Hres. reflexivity.
  - destruct Hmiss as [Hres _]; [lia|].
    unfold result; simpl. rewrite Hres. reflexivity.
Qed.

(** C6. On a binary search tree, [selectKth] returns the value at rank [k]
    (1-based) of the sorted values when [1 <= k <= countNodes T], and
    [null] for every other [k], non-positive ranks included.  ([selectKth]
    is a total function of the embedding, so the call terminates.) *)
Theorem selectKth_rank (T : TreeNode) (k : Z) :
  bst T →
  (1 <= k <= countNodes T →
     ∃ x, sortedValues T !! Z.to_nat (k - 1) = Some x
          ∧ result (selectKth T k) = Some x)
  ∧ (¬ (1 <= k <= countNodes T) → result (selectKth T k) = None).
Proof.
  intros B. rewrite selectKth_result, sortedValues_bst by exact B.
  split; intros Hk; destruct (decide (1 <= k <= countNodes T)); try tauto.
  destruct (lookup_lt_is_Some_2 (values T) (Z.to_nat (k - 1))) as [x Hx].
  - rewrite countNodes_length in Hk. lia.
  - exists x. rewrite Hx. split; reflexivity.
Qed.

Lemma selectKth_rank_witness :
  bst tree_1_2_3
  ∧ (∃ x, sortedValues tree_1_2_3 !! Z.to_nat (2 - 1) = Some x
          ∧ result (selectKth tree_1_2_3 2) = Some x)
  ∧ result (selectKth tree_1_2_3 0) = None.
Proof.
  assert (B : bst tree_1_2_3) by (simpl; repeat constructor; lia).
  split; [exact B|]. split.
  - apply (proj1 (selectKth_rank tree_1_2_3 2 B)). simpl; lia.
  - apply (proj2 (selectKth_rank tree_1_2_3 0 B)). simpl; lia.
Defined.

(** C7. The walk of [selectKth] does not stop at the found step: the
    guard [result !== null] is tested only on entry to [walk], so every
    ancestor whose left subtree held the result resumes after its recursive
    call, increments [count], records a further visit step and pushes the
    edge to its right child.  On 1 <- 2 with [k = 1] the step
    [Visit 2 (count=2)] follows the found step. *)
Theorem selectKth_visits_after_found :
  map description (steps (selectKth tree_1_2 1))
  = ["Select 1-th smallest"; "Visit 1 (count=1)"; "1-th smallest is 1";
     "Visit 2 (count=2)"; "Result: 1"]
  ∧ map codeLine (steps (selectKth tree_1_2 1))
  = [Some 0; Some 2; Some 4; Some 2; Some 6]
  ∧ map description (steps (selectKth tree_1_2_3 1))
  = ["Select 1-th smallest"; "Visit 1 (count=1)"; "1-th smallest is 1";
     "Visit 2 (count=2)"; "Result: 1"]
  ∧ map highlightEdges (steps (selectKth tree_1_2_3 1))
  = [[]; [(2, 1)]; [(2, 1)]; [(2, 1)]; [(2, 1); (2, 3)]].
Proof. vm_compute. repeat split; reflexivity. Qed.

(** ** Traversals *)

Lemma newMap_snoc (l : list (Z * HighlightType)) (k : Z) (h : HighlightType) :
  newMap (l ++ [(k, h)]) = <[k := h]> (newMap l).
Proof. unfold newMap. now rewrite foldl_app. Qed.

Lemma newMap_list_to_map (l : list (Z * HighlightType)) :
  NoDup l.*1 → newMap l = list_to_map l.
Proof.
  induction l as [|[k h] l IH] using rev_ind; intros ND; [reflexivity|].
  rewrite newMap_snoc.
  rewrite fmap_app in ND. pose proof ND as ND'.
  apply NoDup_app in ND' as (NDl & _ & _).
  rewrite (IH NDl).
  rewrite (list_to_map_proper (l ++ [(k, h)]) ((k, h) :: l)); [reflexivity | | ].
  - rewrite fmap_app. exact ND.
  - symmetry. apply Permutation_cons_append.
Qed.

Lemma newMap_entries (m : gmap Z HighlightType) : newMap (entries m) = m.
Proof.
  unfold entries. rewrite newMap_list_to_map by apply NoDup_fst_map_to_list.
  apply list_to_map_to_list.
Qed.

Section Recording.

Variable excl : Z → AnimationStep → Prop.

Lemma recording_empty : recording excl emptyRecorder.
Proof.
  split; [|constructor].
  intros i j si sj _ Hi. destruct i; discriminate Hi.
Qed.

Lemma recording_setNode (k : Z) (h : HighlightType) (st : Recorder) :
  recording excl st → recording excl (setNode k h st).
Proof.
  intros [G C]. split; [exact G|]. unfold setNode; simpl.
  eapply Forall_impl; [exact C|]. intros s [Hn He]. split; [|exact He].
  intros n Hs Hx. simpl. specialize (Hn n Hs Hx).
  destruct (decide (k = n)) as [->|Hne].
  - rewrite lookup_insert_eq. eauto.
  - now rewrite lookup_insert_ne.
Qed.

Lemma recording_pushEdge (e : Z * Z) (st : Recorder) :
  recording excl st → recording excl (pushEdge e st).
Proof.
  intros [G C]. split; [exact G|]. unfold pushEdge; simpl.
  eapply Forall_impl; [exact C|]. intros s [Hn He]. split; [exact Hn|].
  intros e' He'. simpl. apply elem_of_app. left. now apply He.
Qed.

Lemma recording_pushChildEdge (nv : Z) (child : TreeNode) (st : Recorder) :
  recording excl st → recording excl (pushChildEdge nv child st).
Proof.
  intros R. destruct child; [exact R|]. now apply recording_pushEdge.
Qed.

(** Appending a step that repeats the recorder's map and edges. *)
Lemma growing_push (st : Recorder) (s : AnimationStep) :
  recording excl st →
  (∀ n, is_Some (rec_nodes st !! n) → nodeHighlighted n s) →
  (∀ e, e ∈ rec_edges st → edgeHighlighted e s) →
  growing excl (rec_steps st ++ [s]).
Proof.
  intros [G C] Hn He i j si sj Hij Hi Hj.
  destruct (decide (j < length (rec_steps st))%nat) as [Hlt|Hge].
  - rewrite lookup_app_l in Hi, Hj by lia. eauto.
  - rewrite lookup_app_r in Hj by lia.
    destruct (j - length (rec_steps st))%nat as [|j'] eqn:Ej;
      [|rewrite lookup_cons, lookup_nil in Hj; discriminate].
    simpl in Hj. injection Hj as <-.
    rewrite lookup_app_l in Hi by lia.
    rewrite Forall_forall in C.
    destruct (C si) as [Cn Ce]; [eapply list_elem_of_lookup_2; eauto|].
    split; [intros n Hs Hx; apply Hn; auto | intros e Hs; apply He; auto].
Qed.

Lemma recording_pushTraversal (t : TreeNode) (d : string) (cur : Z)
    (ty : HighlightType) (line : Z) (st : Recorder) :
  recording excl st →
  (excl cur (makeTraversalStep t d cur ty (rec_nodes st) (rec_edges st) line)
   ∨ is_Some (rec_nodes st !! cur)) →
  recording excl (pushTraversal t d cur ty line st).
Proof.
  intros R Hcur. pose proof R as [G C]. split.
  - apply growing_push; [exact R | | ].
    + intros n Hn. unfold nodeHighlighted; simpl.
      destruct (decide (cur = n)) as [->|Hne].
      * rewrite lookup_insert_eq. eauto.
      * now rewrite lookup_insert_ne.
    + intros e He. exact He.
  - unfold pushTraversal, push; simpl. apply Forall_app. split; [exact C|].
    constructor; [|constructor]. split.
    + intros n Hn Hx. unfold nodeHighlighted in Hn; simpl in Hn.
      destruct (decide (cur = n)) as [<-|Hne].
      * destruct Hcur as [Hc|Hc]; [contradiction | exact Hc].
      * now rewrite lookup_insert_ne in Hn.
    + intros e He. exact He.
Qed.

Lemma growing_final (t : TreeNode) (d : string) (st : Recorder) :
  recording excl st →
  growing excl (rec_steps (push (makeStep t d (entries (rec_nodes st))
                                   (rec_edges st) None None) st)).
Proof.
  intros R. unfold push; simpl. apply growing_push; [exact R | | ].
  - intros n Hn. unfold nodeHighlighted; simpl. now rewrite newMap_entries.
  - intros e He. exact He.
Qed.

End Recording.

Lemma transient_current (t : TreeNode) (d : string) (cur : Z) (line : Z)
    (ns : gmap Z HighlightType) (es : list (Z * Z)) :
  transientNode cur (makeTraversalStep t d cur Visiting ns es line).
Proof. split; [reflexivity | simpl; apply lookup_insert_eq]. Qed.

Lemma visited_after_setNode (k : Z) (h : HighlightType) (st : Recorder) :
  is_Some (rec_nodes (setNode k h st) !! k).
Proof. unfold setNode; simpl. rewrite lookup_insert_eq. eauto. Qed.

Lemma inorderWalk_recording (root0 : TreeNode) (node : TreeNode) :
  ∀ st, recording transientNode st →
        recording transientNode (inorderWalk root0 node st).
Proof.
  induction node as [|nv l IHl r IHr]; intros st R; simpl; [exact R|].
  apply IHr, recording_pushChildEdge.
  apply recording_pushTraversal; [|left; apply transient_current].
  apply recording_pushTraversal; [|right; apply visited_after_setNode].
  apply recording_setNode, IHl, recording_pushChildEdge.
  apply recording_pushTraversal; [exact R | left; apply transient_current].
Qed.

Lemma postorderWalk_recording (root0 : TreeNode) (node : TreeNode) :
  ∀ st, recording transientNode st →
        recording transientNode (postorderWalk root0 node st).
Proof.
  induction node as [|nv l IHl r IHr]; intros st R; simpl; [exact R|].
  apply recording_pushTraversal; [|right; apply visited_after_setNode].
  apply recording_setNode, IHr, recording_pushChildEdge.
  apply recording_pushTraversal; [|left; apply transient_current].
  apply IHl, recording_pushChildEdge.
  apply recording_pushTraversal; [exact R | left; apply transient_current].
Qed.

(** The pre-order walk marks a node before it records any step for it, so
    its recorder accounts for every highlight, with no exception. *)
Lemma preorderWalk_visited (root0 : TreeNode) (node : TreeNode) (n : Z) :
  ∀ st, is_Some (rec_nodes st !! n) →
        is_Some (rec_nodes (preorderWalk root0 node st) !! n).
Proof.
  induction node as [|nv l IHl r IHr]; intros st H; simpl; [exact H|].
  apply IHr. destruct r; simpl; apply IHl; destruct l; simpl;
    (destruct (decide (nv = n)) as [->|Hne];
     [rewrite lookup_insert_eq; eauto | now rewrite lookup_insert_ne]).
Qed.

Lemma preorderWalk_recording (root0 : TreeNode) (node : TreeNode) :
  ∀ st, recording neverExcluded st →
        recording neverExcluded (preorderWalk root0 node st).
Proof.
  induction node as [|nv l IHl r IHr]; intros st R; simpl; [exact R|].
  apply IHr, recording_pushChildEdge.
  apply recording_pushTraversal.
  - apply IHl, recording_pushChildEdge.
    apply recording_pushTraversal; [|right; apply visited_after_setNode].
    apply recording_pushTraversal; [|right; apply visited_after_setNode].
    apply recording_setNode, R.
  - right. apply preorderWalk_visited.
    destruct l; simpl; apply visited_after_setNode.
Qed.

Lemma growing_cumulative (trace : list AnimationStep) :
  growing neverExcluded trace → cumulative trace.
Proof.
  intros G i j si sj Hij Hi Hj. destruct (G i j si sj Hij Hi Hj) as [Hn He].
  split; [|exact He]. intros n Hs. apply Hn; [exact Hs | intros []].
Qed.

(** C9, as the code has it.  In every traversal trace the highlighted
    edges only grow, and so do the highlighted nodes once the transient
    marker of each step's active node (coloured [Visiting]) is set apart;
    the pre-order trace, which marks a node before recording any step for
    it, is cumulative without exception. *)
Theorem traversal_highlights_cumulative (T : TreeNode) :
  cumulativeVisited (inorderTraversal T)
  ∧ cumulative (preorderTraversal T)
  ∧ cumulativeVisited (postorderTraversal T).
Proof.
  split; [|split].
  - apply growing_final, inorderWalk_recording, recording_empty.
  - apply growing_cumulative.
    apply growing_final, preorderWalk_recording, recording_empty.
  - apply growing_final, postorderWalk_recording, recording_empty.
Qed.

(** C9 as stated fails: in the in-order trace of 1 <- 2 the first step
    highlights node 2 (the node being left) and the second step does not. *)
Lemma inorder_not_cumulative : ¬ cumulative (inorderTraversal tree_1_2).
Proof.
  intros H.
  assert (∃ s0 s1,
            inorderTraversal tree_1_2 !! 0%nat = Some s0
            ∧ inorderTraversal tree_1_2 !! 1%nat = Some s1
            ∧ highlightNodes s0 !! 2 = Some Visiting
            ∧ highlightNodes s1 !! 2 = None) as (s0 & s1 & H0 & H1 & E0 & E1).
  { eexists _, _. split; [vm_compute; reflexivity|].
    split; [vm_compute; reflexivity|]. split; vm_compute; reflexivity. }
  destruct (H 0%nat 1%nat s0 s1 ltac:(lia) H0 H1) as [Hn _].
  destruct (Hn 2) as [h Hh]; [unfold nodeHighlighted; rewrite E0; eauto|].
  rewrite E1 in Hh. discriminate.
Qed.

(** ** Pseudocode lines *)

Create HintDb lines.

Section Lines.

Variable n : Z.

Lemma linesBelow_empty : linesBelow n emptyRecorder.
Proof. constructor. Qed.

Lemma linesBelow_push (s : AnimationStep) (st : Recorder) :
  lineBelow n s → linesBelow n st → linesBelow n (push s st).
Proof.
  intros Hs H. unfold linesBelow, push; simpl.
  apply Forall_app. split; [exact H | constructor; [exact Hs | constructor]].
Qed.

Lemma linesBelow_setNode (k : Z) (h : HighlightType) (st : Recorder) :
  linesBelow n st → linesBelow n (setNode k h st).
Proof. intros H; exact H. Qed.

Lemma linesBelow_pushParentEdge (parent : option Z) (v : Z) (st : Recorder) :
  linesBelow n st → linesBelow n (pushParentEdge parent v st).
Proof. intros H. destruct parent; exact H. Qed.

Lemma linesBelow_pushChildEdge (v : Z) (child : TreeNode) (st : Recorder) :
  linesBelow n st → linesBelow n (pushChildEdge v child st).
Proof. intros H. destruct child; exact H. Qed.

Lemma linesBelow_pushTraversal (t : TreeNode) (d : string) (cur : Z)
    (ty : HighlightType) (line : Z) (st : Recorder) :
  0 <= line < n → linesBelow n st → linesBelow n (pushTraversal t d cur ty line st).
Proof.
  intros Hl H. apply linesBelow_push; [|exact H].
  intros c Hc. simpl in Hc. injection Hc as <-. exact Hl.
Qed.

Lemma linesBelow_pushSummary (t : TreeNode) (d : string) (line : Z) (st : Recorder) :
  0 <= line < n → linesBelow n st → linesBelow n (pushSummary t d (Some line) st).
Proof.
  intros Hl H. apply linesBelow_push; [|exact H].
  intros c Hc. simpl in Hc. injection Hc as <-. exact Hl.
Qed.

Lemma linesBelow_pushSummary_none (t : TreeNode) (d : string) (st : Recorder) :
  linesBelow n st → linesBelow n (pushSummary t d None st).
Proof.
  intros H. apply linesBelow_push; [|exact H]. intros c Hc. discriminate Hc.
Qed.

End Lines.

#[local] Hint Resolve linesBelow_empty linesBelow_setNode linesBelow_pushParentEdge
  linesBelow_pushChildEdge linesBelow_pushSummary_none : lines.
#[local] Hint Extern 2 (linesBelow _ (pushTraversal _ _ _ _ _ _)) =>
  apply linesBelow_pushTraversal; [lia|] : lines.
#[local] Hint Extern 2 (linesBelow _ (pushSummary _ _ (Some _) _)) =>
  apply linesBelow_pushSummary; [lia|] : lines.

Ltac unfold_walk :=
  cbn [searchLoop insert remove inorderWalk preorderWalk postorderWalk
       predecessorLoop successorLoop selectWalk insertAll
       steps payload fst snd sel_rec sel_count sel_result onRec].

Ltac unfold_walk_in H :=
  cbn [searchLoop insert remove inorderWalk preorderWalk postorderWalk
       predecessorLoop successorLoop selectWalk insertAll
       steps payload fst snd sel_rec sel_count sel_result onRec] in H.

Ltac as_linesBelow :=
  match goal with
  | |- Forall (lineBelow ?n) (rec_steps ?s) => change (linesBelow n s)
  end.

Lemma searchLoop_lines (root0 : TreeNode) (v : Z) (node : TreeNode) :
  ∀ parent st, linesBelow 7 st →
  Forall (lineBelow 7) (steps (searchLoop root0 v node parent st)).
Proof.
  induction node as [|nv l IHl r IHr]; intros parent st H; unfold_walk.
  - as_linesBelow. auto with lines.
  - destruct (v =? nv); unfold_walk.
    + as_linesBelow. auto 10 with lines.
    + destruct (v <? nv); [apply IHl | apply IHr]; auto 10 with lines.
Qed.

Lemma insert_lines (root0 : TreeNode) (v : Z) (node : TreeNode) :
  ∀ parent st, linesBelow 6 st → linesBelow 6 (insert root0 v node parent st).2.
Proof.
  induction node as [|nv l IHl r IHr]; intros parent st H; unfold_walk; [exact H|].
  destruct (v <? nv).
  - match goal with |- context [insert root0 v l ?p ?s] =>
      specialize (IHl p s); destruct (insert root0 v l p s) end.
    unfold_walk. apply IHl. auto 10 with lines.
  - destruct (v >? nv).
    + match goal with |- context [insert root0 v r ?p ?s] =>
        specialize (IHr p s); destruct (insert root0 v r p s) end.
      unfold_walk. apply IHr. auto 10 with lines.
    + unfold_walk. auto 10 with lines.
Qed.

Lemma insertNode_lines (T : TreeNode) (v : Z) :
  Forall (lineBelow 6) (steps (insertNode T v)).
Proof.
  destruct T as [|nv l r].
  - simpl. constructor; [|constructor]. intros c Hc. simpl in Hc.
    injection Hc as <-. lia.
  - unfold insertNode.
    pose proof (insert_lines (cloneTree (Node nv l r)) v (cloneTree (Node nv l r))
                  None emptyRecorder (linesBelow_empty 6)) as H.
    destruct (insert _ v _ None emptyRecorder) as [root2 st].
    unfold_walk. unfold_walk_in H. as_linesBelow. auto with lines.
Qed.

Lemma remove_lines (v : Z) (node : TreeNode) :
  ∀ ctx parent st, linesBelow 12 st → linesBelow 12 (remove v ctx node parent st).2.
Proof.
  induction node as [|nv l IHl r IHr]; intros ctx parent st H; unfold_walk.
  - auto with lines.
  - destruct (v <? nv).
    { match goal with |- context [remove v ?c l ?p ?s] =>
        specialize (IHl c p s); destruct (remove v c l p s) end.
      unfold_walk. apply IHl. auto 10 with lines. }
    destruct (v >? nv).
    { match goal with |- context [remove v ?c r ?p ?s] =>
        specialize (IHr c p s); destruct (remove v c r p s) end.
      unfold_walk. apply IHr. auto 10 with lines. }
    destruct l as [|lv ll lr], r as [|rv rl rr]; cbn [fst snd]; auto 10 with lines.
    match goal with |- context [remove v ?c (Node rv rl rr) ?p ?s] =>
      specialize (IHr c p s); destruct (remove v c (Node rv rl rr) p s) end.
    cbn [fst snd] in *. apply IHr. auto 10 with lines.
Qed.

Lemma removeNode_lines (T : TreeNode) (v : Z) :
  Forall (lineBelow 12) (steps (removeNode T v)).
Proof.
  unfold removeNode.
  pose proof (remove_lines v (cloneTree T) (fun x => x) None emptyRecorder
                (linesBelow_empty 12)) as H.
  destruct (remove v _ _ None emptyRecorder) as [root2 st].
  unfold_walk. unfold_walk_in H. as_linesBelow. auto with lines.
Qed.

Lemma inorderWalk_lines (root0 : TreeNode) (node : TreeNode) :
  ∀ st, linesBelow 5 st → linesBelow 5 (inorderWalk root0 node st).
Proof.
  induction node as [|nv l IHl r IHr]; intros st H; unfold_walk; [exact H|].
  apply IHr, linesBelow_pushChildEdge.
  do 2 (apply linesBelow_pushTraversal; [lia|]).
  apply linesBelow_setNode, IHl. auto 10 with lines.
Qed.

Lemma preorderWalk_lines (root0 : TreeNode) (node : TreeNode) :
  ∀ st, linesBelow 5 st → linesBelow 5 (preorderWalk root0 node st).
Proof.
  induction node as [|nv l IHl r IHr]; intros st H; unfold_walk; [exact H|].
  apply IHr, linesBelow_pushChildEdge, linesBelow_pushTraversal; [lia|].
  apply IHl. auto 10 with lines.
Qed.

Lemma postorderWalk_lines (root0 : TreeNode) (node : TreeNode) :
  ∀ st, linesBelow 5 st → linesBelow 5 (postorderWalk root0 node st).
Proof.
  induction node as [|nv l IHl r IHr]; intros st H; unfold_walk; [exact H|].
  apply linesBelow_pushTraversal; [lia|]. apply linesBelow_setNode.
  apply IHr, linesBelow_pushChildEdge, linesBelow_pushTraversal; [lia|].
  apply IHl. auto 10 with lines.
Qed.

Lemma traversal_final_lines (t : TreeNode) (d : string) (st : Recorder) :
  linesBelow 5 st →
  Forall (lineBelow 5)
    (rec_steps (push (makeStep t d (entries (rec_nodes st)) (rec_edges st) None None) st)).
Proof.
  intros H. apply (linesBelow_push 5); [|exact H]. intros c Hc. discriminate Hc.
Qed.

Lemma predecessorLoop_lines (root0 : TreeNode) (v : Z) (node : TreeNode) :
  ∀ parent best st, linesBelow 8 st →
  linesBelow 8 (predecessorLoop root0 v node parent best st).2.
Proof.
  induction node as [|nv l IHl r IHr]; intros parent best st H; unfold_walk; [exact H|].
  destruct (v <=? nv); [apply IHl | apply IHr]; auto 10 with lines.
Qed.

Lemma successorLoop_lines (root0 : TreeNode) (v : Z) (node : TreeNode) :
  ∀ parent best st, linesBelow 8 st →
  linesBelow 8 (successorLoop root0 v node parent best st).2.
Proof.
  induction node as [|nv l IHl r IHr]; intros parent best st H; unfold_walk; [exact H|].
  destruct (v >=? nv); [apply IHr | apply IHl]; auto 10 with lines.
Qed.

Lemma opening_lines (n : Z) (t : TreeNode) (d : string) :
  0 < n → linesBelow n (push (makeStep t d [] [] (Some 0) None) emptyRecorder).
Proof.
  intros Hn. apply linesBelow_push; [|apply linesBelow_empty].
  intros c Hc. simpl in Hc. injection Hc as <-. lia.
Qed.

Lemma findPredecessor_lines (T : TreeNode) (v : Z) :
  Forall (lineBelow 8) (steps (findPredecessor T v)).
Proof.
  unfold findPredecessor.
  match goal with |- context [predecessorLoop T v T None None ?s] =>
    pose proof (predecessorLoop_lines T v T None None s
                  (opening_lines 8 _ _ ltac:(lia))) as H;
    destruct (predecessorLoop T v T None None s) as [best st] end.
  unfold_walk. unfold_walk_in H. as_linesBelow.
  destruct best; auto with lines.
Qed.

Lemma findSuccessor_lines (T : TreeNode) (v : Z) :
  Forall (lineBelow 8) (steps (findSuccessor T v)).
Proof.
  unfold findSuccessor.
  match goal with |- context [successorLoop T v T None None ?s] =>
    pose proof (successorLoop_lines T v T None None s
                  (opening_lines 8 _ _ ltac:(lia))) as H;
    destruct (successorLoop T v T None None s) as [best st] end.
  unfold_walk. unfold_walk_in H. as_linesBelow.
  destruct best; auto with lines.
Qed.

Lemma selectWalk_lines (root0 : TreeNode) (k : Z) (node : TreeNode) :
  ∀ s, linesBelow 7 (sel_rec s) → linesBelow 7 (sel_rec (selectWalk root0 k node s)).
Proof.
  induction node as [|nv l IHl r IHr]; intros s H; unfold_walk; [exact H|].
  destruct (sel_result s); [exact H|].
  assert (H1 : linesBelow 7 (sel_rec (selectWalk root0 k l (onRec (pushChildEdge nv l) s))))
    by (apply IHl; unfold_walk; auto with lines).
  destruct (_ =? k); unfold_walk.
  - auto 10 with lines.
  - apply IHr. unfold_walk. auto 10 with lines.
Qed.

Lemma selectKth_lines (T : TreeNode) (k : Z) :
  Forall (lineBelow 7) (steps (selectKth T k)).
Proof.
  unfold selectKth.
  match goal with |- context [selectWalk T k T ?s] =>
    pose proof (selectWalk_lines T k T s (opening_lines 7 _ _ ltac:(lia))) as H;
    set (s' := selectWalk T k T s) in * end.
  unfold_walk. as_linesBelow.
  destruct (sel_result s'); auto with lines.
Qed.

Lemma insertAll_lines (vs : list Z) :
  ∀ root0 allSteps, Forall (lineBelow 6) allSteps →
  Forall (lineBelow 6) (insertAll vs root0 allSteps).2.
Proof.
  induction vs as [|v vs IH]; intros root0 allSteps H; unfold_walk; [exact H|].
  apply IH, Forall_app. split; [exact H | apply insertNode_lines].
Qed.

Lemma createRandomTree_lines (size : Z) (draws : list Z) (r : Outcome TreeNode) :
  createRandomTree size draws = Some r → Forall (lineBelow 6) (steps r).
Proof.
  unfold createRandomTree. destruct (sampleValues size draws []) as [vs|]; [|discriminate].
  pose proof (insertAll_lines vs Null [] ltac:(constructor)) as H.
  destruct (insertAll vs Null []) as [root1 allSteps]. unfold_walk_in H.
  intros [= <-]. unfold_walk. apply Forall_app. split; [exact H|].
  constructor; [|constructor]. intros c Hc. discriminate Hc.
Qed.

(** C10. Every step an operation emits carries, when it carries one, a
    [codeLine] that is a valid 0-based index into the pseudocode entry of
    that operation. *)
Theorem codeLine_indexes_pseudocode (op : OperationType) (T : TreeNode)
    (value size : Z) (draws : list Z) (trace : list AnimationStep)
    (s : AnimationStep) (c : Z) :
  operationSteps op T value size draws = Some trace →
  s ∈ trace → codeLine s = Some c →
  0 <= c < Z.of_nat (length (lines (getPseudocode op))).
Proof.
  intros Hop Hs Hc.
  assert (H : Forall (lineBelow (Z.of_nat (length (lines (getPseudocode op))))) trace).
  { destruct op; simpl in Hop.
    - destruct (createRandomTree size draws) as [r|] eqn:E; [|discriminate].
      injection Hop as <-. exact (createRandomTree_lines _ _ _ E).
    - injection Hop as <-. apply searchLoop_lines, linesBelow_empty.
    - injection Hop as <-. apply insertNode_lines.
    - injection Hop as <-. apply removeNode_lines.
    - injection Hop as <-. apply findPredecessor_lines.
    - injection Hop as <-. apply findSuccessor_lines.
    - injection Hop as <-. apply selectKth_lines.
    - injection Hop as <-.
      apply traversal_final_lines, inorderWalk_lines, linesBelow_empty.
    - injection Hop as <-.
      apply traversal_final_lines, preorderWalk_lines, linesBelow_empty.
    - injection Hop as <-.
      apply traversal_final_lines, postorderWalk_lines, linesBelow_empty. }
  rewrite Forall_forall in H. exact (H s Hs c Hc).
Qed.

Lemma codeLine_indexes_pseudocode_witness :
  let s := makeTraversalStep tree_1_2_3 "Visit node 2" 2 Visiting
             (<[2 := Visiting]> ∅) [] 0 in
  operationSteps OpSearch tree_1_2_3 3 0 [] = Some (steps (searchNode tree_1_2_3 3))
  ∧ s ∈ steps (searchNode tree_1_2_3 3)
  ∧ codeLine s = Some 0
  ∧ 0 <= 0 < Z.of_nat (length (lines (getPseudocode OpSearch))).
Proof.
  intros s.
  assert (H1 : operationSteps OpSearch tree_1_2_3 3 0 []
               = Some (steps (searchNode tree_1_2_3 3))) by reflexivity.
  assert (H2 : s ∈ steps (searchNode tree_1_2_3 3))
    by (vm_compute; apply list_elem_of_here).
  assert (H3 : codeLine s = Some 0) by reflexivity.
  repeat split; try assumption;
    apply (codeLine_indexes_pseudocode OpSearch tree_1_2_3 3 0 []
             (steps (searchNode tree_1_2_3 3)) s 0 H1 H2 H3).
Defined.

(** ** Playback *)

Module PlaybackFacts.
Import Playback.

Section Replay.

Variable trace : list AnimationStep.

#[local] Abbreviation n := (length trace).

Lemma run_snoc (cmds : list Command) (cmd : Command) :
  run trace (cmds ++ [cmd]) = exec trace (run trace cmds) cmd.
Proof. unfold run. now rewrite foldl_app. Qed.

Lemma repeat_snoc {A : Type} (x : A) (k : nat) : repeat x (S k) = repeat x k ++ [x].
Proof. induction k as [|k IH]; [reflexivity|]. simpl in *. now rewrite <- IH. Qed.

Lemma emitCurrent_at (i : nat) (s : AnimationStep) (t : option Delay) (sp : Q)
    (l : list Event) :
  trace !! i = Some s →
  emitCurrent trace (mkController (Z.of_nat i) t sp l)
  = mkController (Z.of_nat i) t sp (l ++ [OnStep s]).
Proof.
  intros Hs. pose proof (lookup_lt_Some _ _ _ Hs) as Hi.
  unfold emitCurrent, total; simpl.
  rewrite !bool_decide_eq_true_2 by lia. simpl.
  rewrite Nat2Z.id, Hs. reflexivity.
Qed.

Lemma tick_emits (i : nat) (s : AnimationStep) (t : option Delay) (sp : Q)
    (l : list Event) :
  trace !! i = Some s →
  tick trace (mkController (Z.of_nat i) t sp l)
  = mkController (Z.of_nat (S i)) (Some (mkDelay baseDelay sp)) sp (l ++ [OnStep s]).
Proof.
  intros Hs. pose proof (lookup_lt_Some _ _ _ Hs) as Hi.
  unfold tick, total; simpl. rewrite bool_decide_eq_false_2 by lia.
  rewrite (emitCurrent_at i s) by exact Hs. simpl.
  f_equal. lia.
Qed.

Lemma tick_completes (i : Z) (t : option Delay) (sp : Q) (l : list Event) :
  Z.of_nat n <= i →
  tick trace (mkController i t sp l) = mkController i t sp (l ++ [OnComplete]).
Proof.
  intros Hi. unfold tick, total; simpl.
  now rewrite bool_decide_eq_true_2 by lia.
Qed.

(** After [play()] and [j] expiries of the timeout, with steps left. *)
Lemma run_play_fires (j : nat) :
  (j < n)%nat →
  run trace (Play :: repeat Fire j)
  = mkController (Z.of_nat (S j)) (Some (mkDelay baseDelay 1%Q)) 1%Q
      (OnStep <$> take (S j) trace).
Proof.
  induction j as [|j IH]; intros Hj.
  - destruct trace as [|s rest] eqn:E; [simpl in Hj; lia|].
    unfold run; simpl. unfold play, stop, createPlayback; simpl.
    rewrite <- E. rewrite (tick_emits 0 s) by (rewrite E; reflexivity).
    reflexivity.
  - rewrite repeat_snoc, app_comm_cons, run_snoc, IH by lia.
    destruct (lookup_lt_is_Some_2 trace (S j) Hj) as [s Hs].
    cbn [exec]. unfold fire. cbn [timerId index speed log]. rewrite (tick_emits (S j) s) by exact Hs.
    f_equal. rewrite (take_S_r _ _ _ Hs), fmap_app. reflexivity.
Qed.

Lemma run_play_complete :
  run trace (Play :: repeat Fire n)
  = mkController (Z.of_nat n) None 1%Q ((OnStep <$> trace) ++ [OnComplete]).
Proof.
  destruct n as [|k] eqn:E.
  - unfold run; simpl. unfold play, stop, createPlayback; simpl.
    rewrite tick_completes by lia.
    apply length_zero_iff_nil in E. rewrite E. reflexivity.
  - rewrite repeat_snoc, app_comm_cons, run_snoc, run_play_fires by lia.
    cbn [exec]. unfold fire. cbn [timerId index speed log]. rewrite tick_completes by lia.
    rewrite <- E, firstn_all. reflexivity.
Qed.

Lemma stepForward_emits (i : nat) (s : AnimationStep) (t : option Delay) (sp : Q)
    (l : list Event) :
  trace !! i = Some s → (S i < n)%nat →
  stepForward trace (mkController (Z.of_nat i) t sp l)
  = mkController (Z.of_nat (S i)) None sp (l ++ [OnStep s]).
Proof.
  intros Hs Hi. unfold stepForward, stop, total; simpl.
  rewrite (bool_decide_eq_true_2 (Z.of_nat i < Z.of_nat n)) by lia.
  rewrite (emitCurrent_at i s) by exact Hs. simpl.
  assert (X : ¬ (Z.of_nat i + 1 >= Z.of_nat n)) by lia.
  rewrite bool_decide_eq_false_2 by exact X. unfold advance; simpl.
  f_equal. lia.
Qed.

Lemma stepForward_last (i : nat) (s : AnimationStep) (t : option Delay) (sp : Q)
    (l : list Event) :
  trace !! i = Some s → S i = n →
  stepForward trace (mkController (Z.of_nat i) t sp l)
  = mkController (Z.of_nat n) None sp (l ++ [OnStep s; OnComplete]).
Proof.
  intros Hs Hi. unfold stepForward, stop, total; simpl.
  rewrite (bool_decide_eq_true_2 (Z.of_nat i < Z.of_nat n)) by lia.
  rewrite (emitCurrent_at i s) by exact Hs. simpl.
  assert (X : Z.of_nat i + 1 >= Z.of_nat n) by lia.
  rewrite bool_decide_eq_true_2 by exact X. unfold onComplete, advance; simpl.
  rewrite <- app_assoc. f_equal. lia.
Qed.

Lemma stepForward_past_end (i : Z) (t : option Delay) (sp : Q) (l : list Event) :
  Z.of_nat n <= i →
  stepForward trace (mkController i t sp l)
  = mkController i None sp (l ++ [OnComplete]).
Proof.
  intros Hi. unfold stepForward, stop, total; simpl.
  rewrite (bool_decide_eq_false_2 (i < Z.of_nat n)) by lia. simpl.
  now rewrite bool_decide_eq_true_2 by lia.
Qed.

Lemma run_steps_before (j : nat) :
  (j < n)%nat →
  run trace (repeat StepForward j)
  = mkController (Z.of_nat j) None 1%Q (OnStep <$> take j trace).
Proof.
  induction j as [|j IH]; intros Hj.
  - rewrite take_0. reflexivity.
  - rewrite repeat_snoc, run_snoc, IH by lia.
    destruct (lookup_lt_is_Some_2 trace j) as [s Hs]; [lia|].
    cbn [exec]. rewrite (stepForward_emits j s) by (exact Hs || lia).
    f_equal. rewrite (take_S_r _ _ _ Hs), fmap_app. reflexivity.
Qed.

Lemma run_steps_past (m : nat) :
  run trace (repeat StepForward (Nat.max 1 n + m))
  = mkController (Z.of_nat n) None 1%Q
      ((OnStep <$> trace) ++ repeat OnComplete (S m)).
Proof.
  induction m as [|m IH].
  - rewrite Nat.add_0_r. destruct n as [|k] eqn:E.
    + cbn [Nat.max Nat.add repeat]. unfold run. cbn [foldl exec].
      unfold createPlayback. rewrite stepForward_past_end by lia.
      apply length_zero_iff_nil in E. rewrite E. reflexivity.
    + replace (Nat.max 1 (S k)) with (S k) by lia.
      rewrite repeat_snoc, run_snoc, run_steps_before by lia.
      destruct (lookup_lt_is_Some_2 trace k) as [s Hs]; [lia|].
      cbn [exec]. rewrite (stepForward_last k s) by (exact Hs || lia).
      rewrite <- E. f_equal.
      rewrite <- (firstn_all trace) at 2. rewrite E.
      rewrite (take_S_r _ _ _ Hs), fmap_app, <- app_assoc. reflexivity.
  - replace (Nat.max 1 n + S m)%nat with (S (Nat.max 1 n + m)) by lia.
    rewrite repeat_snoc, run_snoc, IH. cbn [exec].
    rewrite stepForward_past_end by lia. f_equal.
    rewrite <- app_assoc. f_equal.
    change (repeat OnComplete (S m) ++ [OnComplete])
      with (repeat OnComplete (S m) ++ repeat OnComplete 1).
    rewrite <- repeat_app. f_equal. lia.
Qed.

End Replay.

End PlaybackFacts.

(** C5, as the code has it.  Replaying a step list from a fresh
    controller by [play()] followed by the expiry of every scheduled
    timeout notifies every step once in index order and then completion
    once, and leaves no timeout pending.  Replaying it by as many
    [stepForward()] calls as the list has steps, which is when the cursor
    reaches the list length, notifies every step once in index order and,
    the list not being empty, then completion once; on the empty list that
    is no call at all and nothing is notified.  Each of the [m] further
    [stepForward()] calls notifies no step and notifies completion once
    more.  After any number of these calls no timeout is pending and the
    cursor is at the list length. *)
Theorem playback_replay (trace : list AnimationStep) (m : nat) :
  Playback.log (Playback.run trace (Playback.Play :: repeat Playback.Fire (length trace)))
    = (Playback.OnStep <$> trace) ++ [Playback.OnComplete]
  ∧ Playback.timerId
      (Playback.run trace (Playback.Play :: repeat Playback.Fire (length trace))) = None
  ∧ Playback.log
      (Playback.run trace (repeat Playback.StepForward (length trace + m)))
    = (Playback.OnStep <$> trace)
        ++ repeat Playback.OnComplete (match trace with [] => m | _ :: _ => S m end)
  ∧ Playback.timerId
      (Playback.run trace (repeat Playback.StepForward (length trace + m))) = None
  ∧ Playback.getIndex
      (Playback.run trace (repeat Playback.StepForward (length trace + m)))
    = Playback.getTotal trace
        (Playback.run trace (repeat Playback.StepForward (length trace + m))).
Proof.
  rewrite PlaybackFacts.run_play_complete.
  split; [reflexivity|]. split; [reflexivity|].
  destruct trace as [|s rest] eqn:E.
  - destruct m as [|m]; [repeat split; reflexivity|].
    change (length [] + S m)%nat with (Nat.max 1 (length (@nil AnimationStep)) + m)%nat.
    rewrite PlaybackFacts.run_steps_past. repeat split; reflexivity.
  - rewrite <- E.
    replace (length trace + m)%nat with (Nat.max 1 (length trace) + m)%nat
      by (rewrite E; cbn [length]; lia).
    rewrite PlaybackFacts.run_steps_past. repeat split; reflexivity.
Qed.

(** C5 as stated fails: on a one-step list the second [stepForward()],
    made when the cursor already equals the list length, notifies
    completion a second time. *)
Lemma stepForward_refires_completion : ¬ completesOnce (steps (insertNode Null 1)).
Proof.
  intros H. specialize (H 2%nat). simpl in H.
  specialize (H ltac:(lia) ltac:(lia)). vm_compute in H. discriminate H.
Qed.

(** ** The object store *)

Lemma depth_insertPlain (t : TreeNode) (v : Z) :
  (depth (insertPlain t v) <= S (depth t))%nat.
Proof.
  induction t as [|nv l IHl r IHr]; simpl; [lia|].
  destruct (v <? nv); [simpl; lia|]. destruct (v >? nv); simpl; lia.
Qed.

Lemma depth_removePlain (t : TreeNode) (v : Z) :
  (depth (removePlain v t) <= depth t)%nat.
Proof.
  induction t as [|nv l IHl r IHr]; simpl; [lia|].
  destruct (v <? nv); [simpl; lia|]. destruct (v >? nv); [simpl; lia|].
  destruct l, r; simpl in *; lia.
Qed.

Section StoreFacts.

Implicit Types h : gmap Heap.loc Heap.Cell.
Implicit Types p : option Heap.loc.
Implicit Types F : gset Heap.loc.

Lemma preserved_refl h : preserved h h.
Proof. intros l c H; exact H. Qed.

Lemma preserved_trans h1 h2 h3 :
  preserved h1 h2 → preserved h2 h3 → preserved h1 h3.
Proof. intros H12 H23 l c H. auto. Qed.

Lemma preserved_dom h h' : preserved h h' → dom h ⊆ dom h'.
Proof.
  intros H l Hl. apply elem_of_dom in Hl as [c Hc].
  apply elem_of_dom. exists c. auto.
Qed.

Lemma preserved_fresh h c : preserved h (<[fresh (dom h) := c]> h).
Proof.
  intros l c' H. rewrite lookup_insert_ne; [exact H|].
  intros <-. pose proof (is_fresh (dom h)) as Hf.
  apply Hf, elem_of_dom. eauto.
Qed.

Lemma preservedOutside_weaken F h h' : preserved h h' → preservedOutside F h h'.
Proof. intros H l c Hl _. auto. Qed.

Lemma repr_mono h h' p (t : TreeNode) : preserved h h' → repr h p t → repr h' p t.
Proof.
  intros Hp. revert p. induction t as [|v tl IHl tr IHr]; intros p; simpl; [auto|].
  intros (l & pl & pr & -> & Hl & Rl & Rr). exists l, pl, pr. auto.
Qed.

Lemma treeAt_repr h p (t : TreeNode) F : treeAt h p t F → repr h p t.
Proof.
  revert p F. induction t as [|v tl IHl tr IHr]; intros p F; simpl.
  - intros [-> _]. reflexivity.
  - intros (l & pl & pr & Fl & Fr & -> & Hl & Tl & Tr & _).
    exists l, pl, pr. repeat split; eauto.
Qed.

Lemma treeAt_dom h p (t : TreeNode) F : treeAt h p t F → F ⊆ dom h.
Proof.
  revert p F. induction t as [|v tl IHl tr IHr]; intros p F; simpl.
  - intros [_ ->]. set_solver.
  - intros (l & pl & pr & Fl & Fr & -> & Hl & Tl & Tr & _ & _ & _ & ->).
    apply IHl in Tl. apply IHr in Tr.
    intros x Hx. rewrite !elem_of_union, elem_of_singleton in Hx.
    destruct Hx as [[->|Hx]|Hx]; [apply elem_of_dom; eauto | auto | auto].
Qed.

Lemma treeAt_agree h h' p (t : TreeNode) F :
  (∀ l, l ∈ F → h' !! l = h !! l) → treeAt h p t F → treeAt h' p t F.
Proof.
  revert p F. induction t as [|v tl IHl tr IHr]; intros p F Hag; simpl; [auto|].
  intros (l & pl & pr & Fl & Fr & -> & Hl & Tl & Tr & N1 & N2 & D & ->).
  exists l, pl, pr, Fl, Fr. repeat split; auto.
  - rewrite Hag; [exact Hl | set_solver].
  - apply IHl; [|exact Tl]. intros; apply Hag; set_solver.
  - apply IHr; [|exact Tr]. intros; apply Hag; set_solver.
Qed.

Lemma treeAt_preserved h h' p (t : TreeNode) F :
  preserved h h' → treeAt h p t F → treeAt h' p t F.
Proof.
  intros Hp Ht. eapply treeAt_agree; [|exact Ht].
  intros l Hl. apply (treeAt_dom _ _ _ _ Ht), elem_of_dom in Hl as [c Hc].
  rewrite Hc. auto.
Qed.

Lemma treeAt_outside F' h h' p (t : TreeNode) F :
  preservedOutside F' h h' → F ## F' → treeAt h p t F → treeAt h' p t F.
Proof.
  intros Hp Hd Ht. eapply treeAt_agree; [|exact Ht].
  intros l Hl. pose proof Hl as Hl'.
  apply (treeAt_dom _ _ _ _ Ht), elem_of_dom in Hl' as [c Hc].
  rewrite Hc. apply Hp; [exact Hc | set_solver].
Qed.

(** Overwriting the value of one object keeps every reference leading to
    a tree of the same depth. *)
Lemma repr_setValue h p (t : TreeNode) (n : Heap.loc) (c : Heap.Cell) (x : Z) :
  h !! n = Some c → repr h p t →
  ∃ t', repr (<[n := Heap.mkCell x (Heap.left c) (Heap.right c)]> h) p t'
        ∧ depth t' = depth t.
Proof.
  intros Hn. revert p. induction t as [|v tl IHl tr IHr]; intros p; simpl.
  - intros ->. exists Null. split; reflexivity.
  - intros (l & pl & pr & -> & Hl & Rl & Rr).
    destruct (IHl _ Rl) as (tl' & Rl' & Dl). destruct (IHr _ Rr) as (tr' & Rr' & Dr).
    destruct (decide (n = l)) as [->|Hne].
    + exists (Node x tl' tr'). split; [|simpl; lia].
      exists l, pl, pr. rewrite lookup_insert_eq.
      rewrite Hn in Hl. injection Hl as ->. simpl. auto.
    + exists (Node v tl' tr'). split; [|simpl; lia].
      exists l, pl, pr. rewrite lookup_insert_ne by exact Hne. auto.
Qed.

End StoreFacts.

(** *** Running computations *)

Section Returns.

Context {A B : Type}.

Lemma returns_ret (a : A) (st : Heap.State) (Q : A → Heap.State → Prop) :
  Q a st → returns (mret a) st Q.
Proof. intros H. exists a, st. split; [reflexivity | exact H]. Qed.

Lemma returns_bind (m : Heap.M A) (f : A → Heap.M B) (st : Heap.State)
    (Q : B → Heap.State → Prop) :
  returns m st (λ a st', returns (f a) st' Q) → returns (m ≫= f) st Q.
Proof.
  intros (a & st' & Hm & b & st'' & Hf & HQ). exists b, st''.
  split; [|exact HQ]. unfold mbind, Heap.M_bind. now rewrite Hm.
Qed.

Lemma returns_conseq (m : Heap.M A) (st : Heap.State) (Q Q' : A → Heap.State → Prop) :
  returns m st Q → (∀ a st', Q a st' → Q' a st') → returns m st Q'.
Proof. intros (a & st' & Hm & HQ) H. exists a, st'. auto. Qed.

End Returns.

Lemma returns_get (l : Heap.loc) (c : Heap.Cell) (st : Heap.State)
    (Q : Heap.Cell → Heap.State → Prop) :
  Heap.store st !! l = Some c → Q c st → returns (Heap.get l) st Q.
Proof. intros Hl HQ. exists c, st. unfold Heap.get. now rewrite Hl. Qed.

Lemma returns_new (c : Heap.Cell) (st : Heap.State) (Q : Heap.loc → Heap.State → Prop) :
  Q (fresh (dom (Heap.store st)))
    (Heap.mkState (<[fresh (dom (Heap.store st)) := c]> (Heap.store st))
       (Heap.st_steps st) (Heap.st_nodes st) (Heap.st_edges st)) →
  returns (Heap.new c) st Q.
Proof. intros HQ. eexists _, _. split; [reflexivity | exact HQ]. Qed.

Lemma returns_put (l : Heap.loc) (f : Heap.Cell → Heap.Cell) (c : Heap.Cell)
    (st : Heap.State) (Q : unit → Heap.State → Prop) :
  Heap.store st !! l = Some c →
  Q tt (Heap.mkState (<[l := f c]> (Heap.store st))
          (Heap.st_steps st) (Heap.st_nodes st) (Heap.st_edges st)) →
  returns (Heap.put l f) st Q.
Proof. intros Hl HQ. exists tt. eexists. unfold Heap.put. rewrite Hl. eauto. Qed.

Lemma returns_push (s : Heap.AnimationStep) (st : Heap.State)
    (Q : unit → Heap.State → Prop) :
  Q tt (Heap.mkState (Heap.store st) (Heap.st_steps st ++ [s])
          (Heap.st_nodes st) (Heap.st_edges st)) →
  returns (Heap.push s) st Q.
Proof. intros HQ. eexists _, _. split; [reflexivity | exact HQ]. Qed.

Lemma returns_getSteps (st : Heap.State)
    (Q : list Heap.AnimationStep → Heap.State → Prop) :
  Q (Heap.st_steps st) st → returns Heap.getSteps st Q.
Proof. intros HQ. eexists _, _. split; [reflexivity | exact HQ]. Qed.

(** *** Mirroring the recorder *)

Section Mirror.

Variable W : gset Heap.loc.

Lemma showsApart_outside (h h' : gmap Heap.loc Heap.Cell)
    (s : Heap.AnimationStep) (s' : AnimationStep) :
  preservedOutside W h h' → showsApart W h s s' → showsApart W h' s s'.
Proof.
  intros P (Hf & Fs & T & D). split; [exact Hf|]. exists Fs. split; [|exact D].
  eapply treeAt_outside; [exact P | exact D | exact T].
Qed.

Lemma showsApart_shows (h : gmap Heap.loc Heap.Cell)
    (s : Heap.AnimationStep) (s' : AnimationStep) :
  showsApart W h s s' → shows h s s'.
Proof. intros (Hf & Fs & T & _). split; [exact Hf | eapply treeAt_repr, T]. Qed.

Lemma mirrors_outside (st st' : Heap.State) (rc : Recorder) :
  sameRecorder st st' → preservedOutside W (Heap.store st) (Heap.store st') →
  mirrors W st rc → mirrors W st' rc.
Proof.
  intros (Es & En & Ee) P (Hs & Hn & He). unfold mirrors.
  rewrite Es, En, Ee. repeat split; [|exact Hn | exact He].
  eapply Forall2_impl; [exact Hs|]. intros s s'. now apply showsApart_outside.
Qed.

Lemma mirrors_put (l : Heap.loc) (c : Heap.Cell) (st : Heap.State) (rc : Recorder) :
  l ∈ W → mirrors W st rc →
  mirrors W (Heap.mkState (<[l := c]> (Heap.store st)) (Heap.st_steps st)
               (Heap.st_nodes st) (Heap.st_edges st)) rc.
Proof.
  intros Hl. apply mirrors_outside; [repeat split|].
  intros x cx Hx Hnot. cbn. rewrite lookup_insert_ne; [exact Hx|].
  intros <-. contradiction.
Qed.

Lemma mirrors_fresh (c : Heap.Cell) (st : Heap.State) (rc : Recorder) :
  mirrors W st rc →
  mirrors W (Heap.mkState (<[fresh (dom (Heap.store st)) := c]> (Heap.store st))
               (Heap.st_steps st) (Heap.st_nodes st) (Heap.st_edges st)) rc.
Proof.
  apply mirrors_outside; [repeat split|].
  apply preservedOutside_weaken, preserved_fresh.
Qed.

Lemma setNode_mirrors (k : Z) (hl : HighlightType) (st : Heap.State) (rc : Recorder) :
  mirrors W st rc →
  returns (Heap.setNode k hl) st (λ _ st',
    Heap.store st' = Heap.store st ∧ mirrors W st' (setNode k hl rc)).
Proof.
  intros (Hs & Hn & He). eexists _, _. split; [reflexivity|].
  split; [reflexivity|]. unfold mirrors, setNode; cbn. now rewrite Hn.
Qed.

Lemma pushParentEdge_mirrors (parent : option Z) (v : Z) (st : Heap.State)
    (rc : Recorder) :
  mirrors W st rc →
  returns (Heap.pushParentEdge parent v) st (λ _ st',
    Heap.store st' = Heap.store st ∧ mirrors W st' (pushParentEdge parent v rc)).
Proof.
  intros (Hs & Hn & He). destruct parent as [pv|]; eexists _, _;
    (split; [reflexivity|]); (split; [reflexivity|]).
  - unfold mirrors, pushParentEdge, pushEdge; cbn. now rewrite He.
  - unfold mirrors, pushParentEdge. auto.
Qed.

End Mirror.

(** *** Cloning and recording *)

Lemma treeAt_insert_other (h : gmap Heap.loc Heap.Cell) (p : option Heap.loc)
    (t : TreeNode) (F : gset Heap.loc) (n : Heap.loc) (c : Heap.Cell) :
  n ∉ F → treeAt h p t F → treeAt (<[n := c]> h) p t F.
Proof.
  intros Hn. apply treeAt_agree. intros l Hl.
  apply lookup_insert_ne. intros ->. contradiction.
Qed.

Lemma cloneTree_returns (t : TreeNode) :
  ∀ fuel p st, repr (Heap.store st) p t → (depth t < fuel)%nat →
  returns (Heap.cloneTree fuel p) st (λ p' st',
    preserved (Heap.store st) (Heap.store st') ∧ sameRecorder st st'
    ∧ ∃ F, treeAt (Heap.store st') p' t F ∧ F ## dom (Heap.store st)).
Proof.
  induction t as [|v tl IHl tr IHr]; intros fuel p st R Hf;
    (destruct fuel as [|fuel]; [lia|]); cbn [Heap.cloneTree]; simpl in R.
  - subst p. apply returns_ret. split; [apply preserved_refl|].
    split; [repeat split|].
    exists ∅. split; [split; reflexivity | set_solver].
  - destruct R as (n & pl & pr & -> & Hn & Rl & Rr). simpl in Hf.
    apply returns_bind. eapply returns_get; [exact Hn|].
    cbn [Heap.left Heap.right Heap.value].
    apply returns_bind. eapply returns_conseq; [apply IHl; [exact Rl | lia]|].
    intros l' st1 (P1 & (Es1 & En1 & Ee1) & F1 & T1 & D1).
    apply returns_bind. eapply returns_get; [apply P1, Hn|].
    cbn [Heap.left Heap.right Heap.value].
    apply returns_bind. eapply returns_conseq;
      [apply IHr; [eapply repr_mono; [exact P1 | exact Rr] | lia]|].
    intros r' st2 (P2 & (Es2 & En2 & Ee2) & F2 & T2 & D2).
    apply returns_bind, returns_new, returns_ret. cbn [Heap.store].
    pose proof (is_fresh (dom (Heap.store st2))) as Hfresh.
    set (n' := fresh (dom (Heap.store st2))) in *.
    pose proof (treeAt_dom _ _ _ _ T1) as S1.
    pose proof (treeAt_dom _ _ _ _ T2) as S2.
    pose proof (preserved_dom _ _ P1) as Sd1.
    pose proof (preserved_dom _ _ P2) as Sd2.
    split; [|split].
    + eapply preserved_trans; [exact P1|].
      eapply preserved_trans; [exact P2 | apply preserved_fresh].
    + unfold sameRecorder; cbn. rewrite Es2, En2, Ee2. auto.
    + assert (N1 : n' ∉ F1) by (clear -Hfresh S1 Sd2; set_solver).
      assert (N2 : n' ∉ F2) by (clear -Hfresh S2; set_solver).
      assert (D12 : F1 ## F2) by (clear -S1 D2; set_solver).
      exists ({[n']} ∪ F1 ∪ F2). split; [|clear -Hfresh D1 D2 Sd1 Sd2; set_solver].
      exists n', l', r', F1, F2. rewrite lookup_insert_eq.
      split; [reflexivity|]. split; [reflexivity|].
      split; [|split; [|auto]].
      * apply treeAt_insert_other; [exact N1|].
        eapply treeAt_preserved; [exact P2 | exact T1].
      * apply treeAt_insert_other; [exact N2 | exact T2].
Qed.

Section Recorded.

Variable W : gset Heap.loc.

(** Recording a step appends, to a mirrored recorder, a step that shows
    the tree the captured root leads to. *)
Lemma push_mirrors (s : Heap.AnimationStep) (s' : AnimationStep)
    (st st1 : Heap.State) (rc : Recorder) :
  mirrors W st rc → preserved (Heap.store st) (Heap.store st1) →
  sameRecorder st st1 → showsApart W (Heap.store st1) s s' →
  mirrors W (Heap.mkState (Heap.store st1) (Heap.st_steps st1 ++ [s])
               (Heap.st_nodes st1) (Heap.st_edges st1)) (push s' rc).
Proof.
  intros M P Same Hs.
  pose proof (mirrors_outside W st st1 rc Same (preservedOutside_weaken _ _ _ P) M)
    as (Hs1 & Hn1 & He1).
  unfold mirrors, push; cbn. repeat split; [|exact Hn1 | exact He1].
  apply Forall2_app; [exact Hs1 | constructor; [exact Hs | constructor]].
Qed.

Lemma pushTraversal_mirrors (fuel : nat) (p : option Heap.loc) (T : TreeNode)
    (d : string) (cur : Z) (ty : HighlightType) (line : Z)
    (st : Heap.State) (rc : Recorder) :
  repr (Heap.store st) p T → (depth T < fuel)%nat →
  W ⊆ dom (Heap.store st) → mirrors W st rc →
  returns (Heap.pushTraversal fuel p d cur ty line) st (λ _ st',
    preserved (Heap.store st) (Heap.store st')
    ∧ mirrors W st' (pushTraversal T d cur ty line rc)).
Proof.
  intros R Hf HW M. unfold Heap.pushTraversal, Heap.makeTraversalStep.
  apply returns_bind, returns_bind.
  eapply returns_conseq; [apply (cloneTree_returns T); [exact R | exact Hf]|].
  intros p' st1 (P & Same & Fs & Ts & Ds).
  apply returns_ret, returns_push. split; [exact P|].
  unfold pushTraversal. eapply push_mirrors; eauto.
  destruct M as (_ & Hn & He).
  split; [repeat split; cbn; congruence|].
  exists Fs. cbn. rewrite cloneTree_id. split; [exact Ts | clear -Ds HW; set_solver].
Qed.

Lemma pushSummary_mirrors (fuel : nat) (p : option Heap.loc) (T : TreeNode)
    (d : string) (line : option Z) (st : Heap.State) (rc : Recorder) :
  repr (Heap.store st) p T → (depth T < fuel)%nat →
  W ⊆ dom (Heap.store st) → mirrors W st rc →
  returns (Heap.pushSummary fuel p d line) st (λ _ st',
    preserved (Heap.store st) (Heap.store st')
    ∧ mirrors W st' (pushSummary T d line rc)).
Proof.
  intros R Hf HW M. unfold Heap.pushSummary, Heap.makeStep.
  apply returns_bind, returns_bind.
  eapply returns_conseq; [apply (cloneTree_returns T); [exact R | exact Hf]|].
  intros p' st1 (P & Same & Fs & Ts & Ds).
  apply returns_ret, returns_push. split; [exact P|].
  unfold pushSummary. eapply push_mirrors; eauto.
  destruct M as (_ & Hn & He).
  split; [repeat split; cbn; congruence|].
  exists Fs. cbn. rewrite cloneTree_id. split; [exact Ts | clear -Ds HW; set_solver].
Qed.

End Recorded.

(** *** The inner [insert] *)

Lemma insert_refines (W : gset Heap.loc) (Troot : TreeNode) (v : Z) (t : TreeNode) :
  ∀ fuel root1 node parent st F rc,
    treeAt (Heap.store st) node t F → F ⊆ W → W ⊆ dom (Heap.store st) →
    repr (Heap.store st) root1 Troot → (depth Troot + depth t < fuel)%nat →
    mirrors W st rc →
    returns (Heap.insert fuel root1 v node parent) st (λ l' st',
      preservedOutside F (Heap.store st) (Heap.store st')
      ∧ (∃ F', treeAt (Heap.store st') (Some l') (insertPlain t v) F'
               ∧ F' ⊆ F ∪ (dom (Heap.store st') ∖ dom (Heap.store st)))
      ∧ mirrors W st' (insert Troot v t parent rc).2).
Proof.
  induction t as [|nv tl IHl tr IHr];
    intros fuel root1 node parent st F rc Ht HF HW Hr Hf M;
    (destruct fuel as [|fuel']; [lia|]); cbn [Heap.insert insert insertPlain].
  - destruct Ht as [-> ->]. apply returns_new. cbn [Heap.store snd].
    pose proof (is_fresh (dom (Heap.store st))) as Hfresh.
    set (n' := fresh (dom (Heap.store st))) in *.
    split; [apply preservedOutside_weaken, preserved_fresh|].
    split; [|apply mirrors_fresh, M].
    exists {[n']}. split.
    + exists n', None, None, ∅, ∅. rewrite lookup_insert_eq.
      repeat split; set_solver.
    + rewrite dom_insert_L. clear -Hfresh. set_solver.
  - destruct Ht as (n & pl & pr & Fl & Fr & -> & Hn & Tl & Tr & N1 & N2 & D & ->).
    simpl in Hf.
    apply returns_bind. eapply returns_get; [exact Hn|]. cbn [Heap.value].
    apply returns_bind. eapply returns_conseq; [apply pushParentEdge_mirrors, M|].
    intros [] st1 (E1 & M1).
    apply returns_bind. eapply returns_conseq; [apply setNode_mirrors, M1|].
    intros [] st2 (E2 & M2). rewrite E1 in E2. clear E1 M1 st1.
    apply returns_bind. eapply returns_conseq.
    { eapply (pushTraversal_mirrors W (S fuel') root1 Troot);
        [rewrite E2; exact Hr | lia | rewrite E2; exact HW | exact M2]. }
    intros [] st3 (P3 & M3). rewrite E2 in P3. clear E2 M2 st2.
    pose proof (treeAt_dom _ _ _ _ Tl) as Sl.
    pose proof (treeAt_dom _ _ _ _ Tr) as Sr.
    assert (Dn : n ∈ dom (Heap.store st)) by (apply elem_of_dom; eauto).
    assert (Wn : n ∈ W) by (clear -HF; set_solver).
    destruct (v <? nv); [|destruct (v >? nv)].
    + apply returns_bind. eapply returns_conseq.
      { eapply (pushTraversal_mirrors W (S fuel') root1 Troot);
          [eapply repr_mono; [exact P3 | exact Hr] | lia
          | pose proof (preserved_dom _ _ P3); set_solver | exact M3]. }
      intros [] st4 (P4 & M4).
      pose proof (preserved_trans _ _ _ P3 P4) as P04. clear P3 P4 M3 st3.
      pose proof (preserved_dom _ _ P04) as Sd.
      match goal with |- context [insert Troot v tl (Some nv) ?X] =>
        destruct (insert Troot v tl (Some nv) X) as [tl' rcl] eqn:Epure end.
      apply returns_bind. eapply returns_get; [apply P04, Hn|]. cbn [Heap.left].
      apply returns_bind. eapply returns_conseq.
      { eapply (IHl fuel' root1 pl (Some nv) st4 Fl);
          [eapply treeAt_preserved; [exact P04 | exact Tl]
          | clear -HF; set_solver | clear -HW Sd; set_solver
          | eapply repr_mono; [exact P04 | exact Hr] | lia | exact M4]. }
      intros l' st5 (O5 & (Fl' & Tl' & Sub) & M5). rewrite Epure in M5.
      apply returns_bind. eapply returns_put; [apply O5; [apply P04, Hn | exact N1]|].
      apply returns_ret. cbn [Heap.store Heap.value Heap.right snd] in *.
      assert (Dn5 : n ∈ dom (Heap.store st5)).
      { apply elem_of_dom. exists (Heap.mkCell nv pl pr).
        apply O5; [apply P04, Hn | exact N1]. }
      assert (N1' : n ∉ Fl') by (clear -Sub N1 Dn Sd; set_solver).
      assert (D' : Fl' ## Fr) by (clear -Sub D Sr Sd; set_solver).
      split; [|split; [|apply mirrors_put; [exact Wn | exact M5]]].
      * intros l c Hl Hnot. rewrite lookup_insert_ne by (clear -Hnot; set_solver).
        apply O5; [apply P04, Hl | clear -Hnot; set_solver].
      * exists ({[n]} ∪ Fl' ∪ Fr). split.
        -- exists n, (Some l'), pr, Fl', Fr. rewrite lookup_insert_eq.
           split; [reflexivity|]. split; [reflexivity|].
           split; [|split; [|auto]].
           ++ apply treeAt_insert_other; [exact N1' | exact Tl'].
           ++ apply treeAt_insert_other; [exact N2|].
              eapply treeAt_outside; [exact O5 | clear -D; set_solver |].
              eapply treeAt_preserved; [exact P04 | exact Tr].
        -- rewrite dom_insert_L. clear -Sub Sd Dn5. set_solver.
    + apply returns_bind. eapply returns_conseq.
      { eapply (pushTraversal_mirrors W (S fuel') root1 Troot);
          [eapply repr_mono; [exact P3 | exact Hr] | lia
          | pose proof (preserved_dom _ _ P3); set_solver | exact M3]. }
      intros [] st4 (P4 & M4).
      pose proof (preserved_trans _ _ _ P3 P4) as P04. clear P3 P4 M3 st3.
      pose proof (preserved_dom _ _ P04) as Sd.
      match goal with |- context [insert Troot v tr (Some nv) ?X] =>
        destruct (insert Troot v tr (Some nv) X) as [tr' rcr] eqn:Epure end.
      apply returns_bind. eapply returns_get; [apply P04, Hn|]. cbn [Heap.right].
      apply returns_bind. eapply returns_conseq.
      { eapply (IHr fuel' root1 pr (Some nv) st4 Fr);
          [eapply treeAt_preserved; [exact P04 | exact Tr]
          | clear -HF; set_solver | clear -HW Sd; set_solver
          | eapply repr_mono; [exact P04 | exact Hr] | lia | exact M4]. }
      intros r' st5 (O5 & (Fr' & Tr' & Sub) & M5). rewrite Epure in M5.
      apply returns_bind. eapply returns_put; [apply O5; [apply P04, Hn | exact N2]|].
      apply returns_ret. cbn [Heap.store Heap.value Heap.left snd] in *.
      assert (Dn5 : n ∈ dom (Heap.store st5)).
      { apply elem_of_dom. exists (Heap.mkCell nv pl pr).
        apply O5; [apply P04, Hn | exact N2]. }
      assert (N2' : n ∉ Fr') by (clear -Sub N2 Dn Sd; set_solver).
      assert (D' : Fl ## Fr') by (clear -Sub D Sl Sd; set_solver).
      split; [|split; [|apply mirrors_put; [exact Wn | exact M5]]].
      * intros l c Hl Hnot. rewrite lookup_insert_ne by (clear -Hnot; set_solver).
        apply O5; [apply P04, Hl | clear -Hnot; set_solver].
      * exists ({[n]} ∪ Fl ∪ Fr'). split.
        -- exists n, pl, (Some r'), Fl, Fr'. rewrite lookup_insert_eq.
           split; [reflexivity|]. split; [reflexivity|].
           split; [|split; [|auto]].
           ++ apply treeAt_insert_other; [exact N1|].
              eapply treeAt_outside; [exact O5 | exact D |].
              eapply treeAt_preserved; [exact P04 | exact Tl].
           ++ apply treeAt_insert_other; [exact N2' | exact Tr'].
        -- rewrite dom_insert_L. clear -Sub Sd Dn5. set_solver.
    + apply returns_ret. cbn [snd].
      split; [apply preservedOutside_weaken, P3|]. split; [|exact M3].
      exists ({[n]} ∪ Fl ∪ Fr). split; [|clear; set_solver].
      eapply treeAt_preserved; [exact P3|].
      exists n, pl, pr, Fl, Fr. auto 10.
Qed.

(** *** The inner [remove] *)

Lemma findMin_returns (t : TreeNode) :
  ∀ fuel n st, repr (Heap.store st) (Some n) t → (depth t <= fuel)%nat →
  returns (Heap.findMin fuel n) st (λ m st',
    st' = st ∧ ∃ c, Heap.store st !! m = Some c
                    ∧ Heap.value c = valueOf (findMin t)).
Proof.
  induction t as [|v tl IHl tr _]; intros fuel n st R Hf; simpl in R; [discriminate|].
  destruct R as (n0 & pl & pr & [= <-] & Hn & Rl & Rr).
  destruct fuel as [|fuel]; [simpl in Hf; lia|]. cbn [Heap.findMin].
  apply returns_bind. eapply returns_get; [exact Hn|]. cbn [Heap.left].
  destruct tl as [|lv ll lr].
  - simpl in Rl. subst pl. apply returns_ret. split; [reflexivity|].
    exists (Heap.mkCell v None pr). split; [exact Hn | reflexivity].
  - pose proof Rl as Rl'. simpl in Rl'. destruct Rl' as (l & ? & ? & -> & _).
    change (findMin (Node v (Node lv ll lr) tr)) with (findMin (Node lv ll lr)).
    apply IHl; [exact Rl | simpl in Hf |- *; lia].
Qed.

Lemma treeAt_Node_ref (h : gmap Heap.loc Heap.Cell) (p : option Heap.loc) (v : Z)
    (tl tr : TreeNode) (F : gset Heap.loc) :
  treeAt h p (Node v tl tr) F → ∃ n, p = Some n.
Proof. intros (n & ? & ? & ? & ? & -> & _). eauto. Qed.

Section Contexts.

Variables (h : gmap Heap.loc Heap.Cell) (root1 : option Heap.loc).
Variables (ctx : TreeNode → TreeNode) (n : Heap.loc) (Fl Fr : gset Heap.loc).
Variables (k d : nat).

Hypothesis Hctx : ctxAt h root1 ctx (Some n) ({[n]} ∪ Fl ∪ Fr) k d.

(** What the captured root leads to at this moment. *)
Lemma ctxAt_now (h' : gmap Heap.loc Heap.Cell) (t : TreeNode) :
  preserved h h' → repr h' (Some n) t → (depth t <= k)%nat →
  repr h' root1 (ctx t) ∧ (depth (ctx t) <= d)%nat.
Proof. intros P R D. apply Hctx; [apply preservedOutside_weaken, P | exact R | exact D]. Qed.

(** The context of the left child, once the node holds [x]. *)
Lemma ctxAt_left (h4 : gmap Heap.loc Heap.Cell) (x : Z)
    (pl pr : option Heap.loc) (tr : TreeNode) (kl : nat) :
  preservedOutside {[n]} h h4 → h4 !! n = Some (Heap.mkCell x pl pr) →
  treeAt h4 pr tr Fr → n ∉ Fl → Fl ## Fr →
  (S (Nat.max kl (depth tr)) <= k)%nat →
  ctxAt h4 root1 (λ y, ctx (Node x y tr)) pl Fl kl d.
Proof.
  intros P Hn Tr N1 D Hk h' t' O' R' D'. apply Hctx.
  - intros l c Hl Hnot. apply O'; [apply P; [exact Hl|] |]; clear -Hnot; set_solver.
  - exists n, pl, pr. split; [reflexivity|]. split; [apply O'; auto|].
    split; [exact R'|]. eapply treeAt_repr.
    eapply treeAt_outside; [exact O' | clear -D; set_solver | exact Tr].
  - simpl. lia.
Qed.

(** The context of the right child, once the node holds [x]. *)
Lemma ctxAt_right (h4 : gmap Heap.loc Heap.Cell) (x : Z)
    (pl pr : option Heap.loc) (tl : TreeNode) (kr : nat) :
  preservedOutside {[n]} h h4 → h4 !! n = Some (Heap.mkCell x pl pr) →
  treeAt h4 pl tl Fl → n ∉ Fr → Fl ## Fr →
  (S (Nat.max (depth tl) kr) <= k)%nat →
  ctxAt h4 root1 (λ y, ctx (Node x tl y)) pr Fr kr d.
Proof.
  intros P Hn Tl N2 D Hk h' t' O' R' D'. apply Hctx.
  - intros l c Hl Hnot. apply O'; [apply P; [exact Hl|] |]; clear -Hnot; set_solver.
  - exists n, pl, pr. split; [reflexivity|]. split; [apply O'; auto|].
    split; [|exact R']. eapply treeAt_repr.
    eapply treeAt_outside; [exact O' | exact D | exact Tl].
  - simpl. lia.
Qed.

End Contexts.

Lemma ctxAt_null (h h' : gmap Heap.loc Heap.Cell) (root1 : option Heap.loc)
    (ctx : TreeNode → TreeNode) (k d : nat) :
  ctxAt h root1 ctx None ∅ k d → preserved h h' →
  repr h' root1 (ctx Null) ∧ (depth (ctx Null) <= d)%nat.
Proof.
  intros Hctx P. apply Hctx; [apply preservedOutside_weaken, P | reflexivity | simpl; lia].
Qed.

Lemma remove_refines (W : gset Heap.loc) (v : Z) (t : TreeNode) :
  ∀ fuel root1 ctx d node parent st F rc,
    treeAt (Heap.store st) node t F → F ⊆ W → W ⊆ dom (Heap.store st) →
    ctxAt (Heap.store st) root1 ctx node F (depth t) d →
    (d + depth t < fuel)%nat → mirrors W st rc →
    returns (Heap.remove fuel root1 v node parent) st (λ p' st',
      preservedOutside F (Heap.store st) (Heap.store st')
      ∧ (∃ F', treeAt (Heap.store st') p' (removePlain v t) F' ∧ F' ⊆ F)
      ∧ mirrors W st' (remove v ctx t parent rc).2).
Proof.
  induction t as [|nv tl IHl tr IHr];
    intros fuel root1 ctx d node parent st F rc Ht HF HW Hctx Hf M;
    (destruct fuel as [|fuel']; [lia|]); cbn [Heap.remove remove removePlain].
  - destruct Ht as [-> ->].
    destruct (ctxAt_null _ _ _ _ _ _ Hctx (preserved_refl _)) as [R0 D0].
    apply returns_bind. eapply returns_conseq;
      [eapply (pushSummary_mirrors W (S fuel') root1 (ctx Null));
         [exact R0 | lia | exact HW | exact M]|].
    intros [] st1 (P1 & M1). apply returns_ret. cbn [snd].
    split; [apply preservedOutside_weaken, P1|]. split; [|exact M1].
    exists ∅. split; [split; reflexivity | set_solver].
  - pose proof Ht as Ht0.
    destruct Ht as (n & pl & pr & Fl & Fr & -> & Hn & Tl & Tr & N1 & N2 & D & ->).
    assert (Now : ∀ h', preserved (Heap.store st) h' →
                        repr h' root1 (ctx (Node nv tl tr))
                        ∧ (depth (ctx (Node nv tl tr)) < S fuel')%nat).
    { intros h' P.
      destruct (ctxAt_now _ _ _ _ _ _ _ _ Hctx h' (Node nv tl tr) P) as [R0 D0];
        [eapply repr_mono; [exact P | eapply treeAt_repr, Ht0] | lia |].
      split; [exact R0 | lia]. }
    simpl in Hf.
    assert (Wn : n ∈ W) by (clear -HF; set_solver).
    apply returns_bind. eapply returns_get; [exact Hn|]. cbn [Heap.value].
    apply returns_bind. eapply returns_conseq; [apply pushParentEdge_mirrors, M|].
    intros [] st1 (E1 & M1).
    apply returns_bind. eapply returns_conseq; [apply setNode_mirrors, M1|].
    intros [] st2 (E2 & M2). rewrite E1 in E2. clear E1 M1 st1.
    assert (P2 : preserved (Heap.store st) (Heap.store st2))
      by (rewrite E2; apply preserved_refl).
    clear E2.
    apply returns_bind. eapply returns_conseq.
    { eapply (pushTraversal_mirrors W (S fuel') root1 (ctx (Node nv tl tr)));
        [apply (Now _ P2) | apply (Now _ P2)
        | pose proof (preserved_dom _ _ P2); set_solver | exact M2]. }
    intros [] st3 (P3 & M3).
    pose proof (preserved_trans _ _ _ P2 P3) as P03. clear P2 P3 M2 st2.
    destruct (v <? nv); [|destruct (v >? nv)].
    + apply returns_bind. eapply returns_conseq.
      { eapply (pushTraversal_mirrors W (S fuel') root1 (ctx (Node nv tl tr)));
          [apply (Now _ P03) | apply (Now _ P03)
          | pose proof (preserved_dom _ _ P03); set_solver | exact M3]. }
      intros [] st4 (P4 & M4).
      pose proof (preserved_trans _ _ _ P03 P4) as P04. clear P03 P4 M3 st3.
      pose proof (preserved_dom _ _ P04) as Sd.
      match goal with |- context [remove v ?c tl (Some nv) ?X] =>
        destruct (remove v c tl (Some nv) X) as [tl' rcl] eqn:Epure end.
      apply returns_bind. eapply returns_get; [apply P04, Hn|]. cbn [Heap.left].
      apply returns_bind. eapply returns_conseq.
      { eapply (IHl fuel' root1 _ d pl (Some nv) st4 Fl);
          [eapply treeAt_preserved; [exact P04 | exact Tl]
          | clear -HF; set_solver | clear -HW Sd; set_solver
          | eapply (ctxAt_left _ _ _ _ _ _ _ _ Hctx);
              [apply preservedOutside_weaken, P04 | apply P04, Hn
              | eapply treeAt_preserved; [exact P04 | exact Tr]
              | exact N1 | exact D | simpl; lia]
          | lia | exact M4]. }
      intros l' st5 (O5 & (Fl' & Tl' & Sub) & M5). rewrite Epure in M5.
      apply returns_bind. eapply returns_put; [apply O5; [apply P04, Hn | exact N1]|].
      apply returns_ret. cbn [Heap.store Heap.value Heap.right snd] in *.
      assert (N1' : n ∉ Fl') by (clear -Sub N1; set_solver).
      assert (D' : Fl' ## Fr) by (clear -Sub D; set_solver).
      split; [|split; [|apply mirrors_put; [exact Wn | exact M5]]].
      * intros l c Hl Hnot. rewrite lookup_insert_ne by (clear -Hnot; set_solver).
        apply O5; [apply P04, Hl | clear -Hnot; set_solver].
      * exists ({[n]} ∪ Fl' ∪ Fr). split; [|clear -Sub; set_solver].
        exists n, l', pr, Fl', Fr. rewrite lookup_insert_eq.
        split; [reflexivity|]. split; [reflexivity|].
        split; [|split; [|auto]].
        -- apply treeAt_insert_other; [exact N1' | exact Tl'].
        -- apply treeAt_insert_other; [exact N2|].
           eapply treeAt_outside; [exact O5 | clear -D; set_solver |].
           eapply treeAt_preserved; [exact P04 | exact Tr].
    + apply returns_bind. eapply returns_conseq.
      { eapply (pushTraversal_mirrors W (S fuel') root1 (ctx (Node nv tl tr)));
          [apply (Now _ P03) | apply (Now _ P03)
          | pose proof (preserved_dom _ _ P03); set_solver | exact M3]. }
      intros [] st4 (P4 & M4).
      pose proof (preserved_trans _ _ _ P03 P4) as P04. clear P03 P4 M3 st3.
      pose proof (preserved_dom _ _ P04) as Sd.
      match goal with |- context [remove v ?c tr (Some nv) ?X] =>
        destruct (remove v c tr (Some nv) X) as [tr' rcr] eqn:Epure end.
      apply returns_bind. eapply returns_get; [apply P04, Hn|]. cbn [Heap.right].
      apply returns_bind. eapply returns_conseq.
      { eapply (IHr fuel' root1 _ d pr (Some nv) st4 Fr);
          [eapply treeAt_preserved; [exact P04 | exact Tr]
          | clear -HF; set_solver | clear -HW Sd; set_solver
          | eapply (ctxAt_right _ _ _ _ _ _ _ _ Hctx);
              [apply preservedOutside_weaken, P04 | apply P04, Hn
              | eapply treeAt_preserved; [exact P04 | exact Tl]
              | exact N2 | exact D | simpl; lia]
          | lia | exact M4]. }
      intros r' st5 (O5 & (Fr' & Tr' & Sub) & M5). rewrite Epure in M5.
      apply returns_bind. eapply returns_put; [apply O5; [apply P04, Hn | exact N2]|].
      apply returns_ret. cbn [Heap.store Heap.value Heap.left snd] in *.
      assert (N2' : n ∉ Fr') by (clear -Sub N2; set_solver).
      assert (D' : Fl ## Fr') by (clear -Sub D; set_solver).
      split; [|split; [|apply mirrors_put; [exact Wn | exact M5]]].
      * intros l c Hl Hnot. rewrite lookup_insert_ne by (clear -Hnot; set_solver).
        apply O5; [apply P04, Hl | clear -Hnot; set_solver].
      * exists ({[n]} ∪ Fl ∪ Fr'). split; [|clear -Sub; set_solver].
        exists n, pl, r', Fl, Fr'. rewrite lookup_insert_eq.
        split; [reflexivity|]. split; [reflexivity|].
        split; [|split; [|auto]].
        -- apply treeAt_insert_other; [exact N1|].
           eapply treeAt_outside; [exact O5 | exact D |].
           eapply treeAt_preserved; [exact P04 | exact Tl].
        -- apply treeAt_insert_other; [exact N2' | exact Tr'].
    + apply returns_bind. eapply returns_conseq; [apply setNode_mirrors, M3|].
      intros [] st3' (E3 & M3').
      assert (P3' : preserved (Heap.store st) (Heap.store st3'))
        by (rewrite E3; exact P03).
      clear E3 P03 M3 st3.
      apply returns_bind. eapply returns_conseq.
      { eapply (pushTraversal_mirrors W (S fuel') root1 (ctx (Node nv tl tr)));
          [apply (Now _ P3') | apply (Now _ P3')
          | pose proof (preserved_dom _ _ P3'); set_solver | exact M3']. }
      intros [] st4 (P4 & M4).
      pose proof (preserved_trans _ _ _ P3' P4) as P04. clear P3' P4 M3' st3'.
      apply returns_bind. eapply returns_get; [apply P04, Hn|].
      cbn [Heap.left Heap.right].
      destruct tl as [|lv ll lr], tr as [|rv rl rr].
      * destruct Tl as [-> ->], Tr as [-> ->]. cbn [fst snd].
        apply returns_bind. eapply returns_conseq.
        { eapply (pushTraversal_mirrors W (S fuel') root1 (ctx (Node nv Null Null)));
            [apply (Now _ P04) | apply (Now _ P04)
            | pose proof (preserved_dom _ _ P04); set_solver | exact M4]. }
        intros [] st5 (P5 & M5). apply returns_ret. cbn [snd].
        split; [apply preservedOutside_weaken; eapply preserved_trans; eauto|].
        split; [|exact M5].
        exists ∅. split; [split; reflexivity | set_solver].
      * destruct Tl as [-> ->]. destruct (treeAt_Node_ref _ _ _ _ _ _ Tr) as [r ->].
        cbn [fst snd].
        apply returns_bind. eapply returns_conseq.
        { eapply (pushTraversal_mirrors W (S fuel') root1 (ctx (Node nv Null _)));
            [apply (Now _ P04) | apply (Now _ P04)
            | pose proof (preserved_dom _ _ P04); set_solver | exact M4]. }
        intros [] st5 (P5 & M5). pose proof (preserved_trans _ _ _ P04 P5) as P05.
        apply returns_bind. eapply returns_get; [apply P05, Hn|]. cbn [Heap.right].
        apply returns_ret. cbn [snd].
        split; [apply preservedOutside_weaken, P05|]. split; [|exact M5].
        exists Fr. split; [eapply treeAt_preserved; [exact P05 | exact Tr]|].
        clear; set_solver.
      * destruct Tr as [-> ->]. destruct (treeAt_Node_ref _ _ _ _ _ _ Tl) as [l ->].
        cbn [fst snd].
        apply returns_bind. eapply returns_conseq.
        { eapply (pushTraversal_mirrors W (S fuel') root1 (ctx (Node nv _ Null)));
            [apply (Now _ P04) | apply (Now _ P04)
            | pose proof (preserved_dom _ _ P04); set_solver | exact M4]. }
        intros [] st5 (P5 & M5). pose proof (preserved_trans _ _ _ P04 P5) as P05.
        apply returns_bind. eapply returns_get; [apply P05, Hn|]. cbn [Heap.left].
        apply returns_ret. cbn [snd].
        split; [apply preservedOutside_weaken, P05|]. split; [|exact M5].
        exists Fl. split; [eapply treeAt_preserved; [exact P05 | exact Tl]|].
        clear; set_solver.
      * destruct (treeAt_Node_ref _ _ _ _ _ _ Tl) as [l ->].
        destruct (treeAt_Node_ref _ _ _ _ _ _ Tr) as [r ->].
        set (tl := Node lv ll lr) in *. set (tr := Node rv rl rr) in *.
        cbn [fst snd].
        assert (Dtr : (depth tr <= S fuel')%nat) by lia.
        apply returns_bind. eapply returns_conseq.
        { eapply (findMin_returns tr);
            [eapply repr_mono; [exact P04 | eapply treeAt_repr; exact Tr] | exact Dtr]. }
        intros m st4' (-> & cm & Hm & Vm).
        apply returns_bind. eapply returns_get; [exact Hm|].
        rewrite Vm. set (sv := valueOf (findMin tr)) in *.
        apply returns_bind. eapply returns_conseq; [apply setNode_mirrors, M4|].
        intros [] st5 (E5 & M5).
        assert (P05 : preserved (Heap.store st) (Heap.store st5))
          by (rewrite E5; exact P04).
        apply returns_bind. eapply returns_conseq.
        { eapply (pushSummary_mirrors W (S fuel') root1 (ctx (Node nv tl tr)));
            [apply (Now _ P05) | apply (Now _ P05)
            | pose proof (preserved_dom _ _ P05); set_solver | exact M5]. }
        intros [] st6 (P6 & M6). pose proof (preserved_trans _ _ _ P05 P6) as P06.
        apply returns_bind. eapply returns_conseq.
        { eapply (pushSummary_mirrors W (S fuel') root1 (ctx (Node nv tl tr)));
            [apply (Now _ P06) | apply (Now _ P06)
            | pose proof (preserved_dom _ _ P06); set_solver | exact M6]. }
        intros [] st7 (P7 & M7). pose proof (preserved_trans _ _ _ P06 P7) as P07.
        pose proof (preserved_dom _ _ P07) as Sd.
        assert (Hm7 : Heap.store st7 !! m = Some cm).
        { apply P7, P6. rewrite E5. exact Hm. }
        clear P05 P6 P06 P7 E5 M4 M5 M6 st5 st6.
        apply returns_bind. eapply returns_get; [exact Hm7|].
        rewrite Vm.
        apply returns_bind. eapply returns_put; [apply P07, Hn|].
        cbn [Heap.left Heap.right].
        apply returns_bind. eapply returns_get; [cbn [Heap.store]; apply lookup_insert_eq|].
        cbn [Heap.right Heap.value].
        match goal with |- context [remove v ?c tr (Some sv) ?X] =>
          destruct (remove v c tr (Some sv) X) as [tr' rcr] eqn:Epure end.
        apply returns_bind. eapply returns_conseq.
        { eapply (IHr fuel' root1 _ d (Some r) (Some sv) _ Fr); cbn [Heap.store].
          - apply treeAt_insert_other; [exact N2|].
            eapply treeAt_preserved; [exact P07 | exact Tr].
          - clear -HF; set_solver.
          - rewrite dom_insert_L. clear -HW Sd. set_solver.
          - eapply (ctxAt_right _ _ _ _ _ _ _ _ Hctx).
            + intros x c Hx Hnot. rewrite lookup_insert_ne by (clear -Hnot; set_solver).
              apply P07, Hx.
            + apply lookup_insert_eq.
            + apply treeAt_insert_other; [exact N1|].
              eapply treeAt_preserved; [exact P07 | exact Tl].
            + exact N2.
            + exact D.
            + simpl. lia.
          - lia.
          - apply mirrors_put; [exact Wn | exact M7]. }
        cbn [Heap.store]. intros r' st8 (O8 & (Fr' & Tr' & Sub) & M8).
        rewrite Epure in M8.
        assert (Hn8 : Heap.store st8 !! n = Some (Heap.mkCell sv (Some l) (Some r)))
          by (apply O8; [apply lookup_insert_eq | exact N2]).
        apply returns_bind. eapply returns_put; [exact Hn8|].
        apply returns_ret. cbn [Heap.store Heap.value Heap.left snd] in *.
        assert (N2' : n ∉ Fr') by (clear -Sub N2; set_solver).
        assert (D' : Fl ## Fr') by (clear -Sub D; set_solver).
        split; [|split; [|apply mirrors_put; [exact Wn | exact M8]]].
        -- intros x c Hx Hnot.
           assert (x ≠ n) by (clear -Hnot; set_solver).
           rewrite lookup_insert_ne by auto.
           apply O8; [|clear -Hnot; set_solver].
           rewrite lookup_insert_ne by auto. apply P07, Hx.
        -- exists ({[n]} ∪ Fl ∪ Fr'). split; [|clear -Sub; set_solver].
           exists n, (Some l), r', Fl, Fr'. rewrite lookup_insert_eq.
           split; [reflexivity|]. split; [reflexivity|].
           split; [|split; [|auto]].
           ++ apply treeAt_insert_other; [exact N1|].
              eapply treeAt_outside; [exact O8 | exact D |].
              apply treeAt_insert_other; [exact N1|].
              eapply treeAt_preserved; [exact P07 | exact Tl].
           ++ apply treeAt_insert_other; [exact N2' | exact Tr'].
Qed.

(** *** [insertNode] and [removeNode] over the store *)

Lemma mirrors_shows (W : gset Heap.loc) (st : Heap.State) (rc : Recorder) :
  mirrors W st rc → Forall2 (shows (Heap.store st)) (Heap.st_steps st) (rec_steps rc).
Proof.
  intros (Hs & _). eapply Forall2_impl; [exact Hs|].
  intros s s'. apply showsApart_shows.
Qed.

Lemma mirrors_anywhere (W : gset Heap.loc) (st : Heap.State) (rc : Recorder) :
  mirrors W st rc → mirrors ∅ st rc.
Proof.
  intros (Hs & Hn & He). repeat split; [|exact Hn | exact He].
  eapply Forall2_impl; [exact Hs|].
  intros s s' (Hf & Fs & T & _). split; [exact Hf|]. exists Fs. split; [exact T | set_solver].
Qed.

Lemma mirrors_initial (W : gset Heap.loc) (h : gmap Heap.loc Heap.Cell)
    (st : Heap.State) :
  sameRecorder (Heap.initial h) st → mirrors W st emptyRecorder.
Proof.
  intros (Es & En & Ee). unfold mirrors. rewrite Es, En, Ee. repeat split. constructor.
Qed.

Lemma insertNode_refines (h : gmap Heap.loc Heap.Cell) (p : option Heap.loc)
    (T : TreeNode) (v : Z) (fuel : nat) :
  repr h p T → (2 * depth T + 1 < fuel)%nat →
  returns (Heap.insertNode fuel p v) (Heap.initial h) (λ out st',
    preserved h (Heap.store st')
    ∧ repr (Heap.store st') (Some out.1) (root (insertNode T v))
    ∧ Forall2 (shows (Heap.store st')) out.2 (steps (insertNode T v))).
Proof.
  intros R Hf. rewrite insertNode_root.
  destruct T as [|nv tl tr].
  - simpl in R. subst p. unfold Heap.insertNode, insertNode.
    apply returns_bind, returns_new.
    set (st1 := Heap.mkState _ _ _ _).
    assert (R1 : repr (Heap.store st1) (Some (fresh (dom h))) (Node v Null Null)).
    { exists (fresh (dom h)), None, None. cbn. rewrite lookup_insert_eq. auto. }
    unfold Heap.makeStep. apply returns_bind, returns_bind.
    eapply returns_conseq;
      [apply (cloneTree_returns (Node v Null Null)); [exact R1 | simpl in *; lia]|].
    intros p' st2 (P2 & (Es & _) & Fs & Ts & _). apply returns_ret.
    apply returns_bind, returns_push, returns_bind, returns_getSteps, returns_ret.
    cbn [Heap.store Heap.st_steps fst snd steps]. split; [|split].
    + eapply preserved_trans; [apply preserved_fresh | exact P2].
    + eapply repr_mono; [exact P2 | exact R1].
    + rewrite Es. cbn. constructor; [|constructor].
      split; [repeat split|]. exact (treeAt_repr _ _ _ _ Ts).
  - pose proof R as R0. destruct R as (n & pl & pr & -> & _).
    unfold Heap.insertNode, insertNode. rewrite cloneTree_id.
    set (T := Node nv tl tr) in *.
    apply returns_bind. eapply returns_conseq;
      [apply (cloneTree_returns T); [exact R0 | lia]|].
    cbn [Heap.store Heap.initial]. intros root1 st1 (P1 & Same & F & T1 & D1).
    pose proof (insert_tree T v T None emptyRecorder) as Etree.
    destruct (insert T v T None emptyRecorder) as [root2' rc2] eqn:Epure.
    cbn [fst] in Etree. subst root2'.
    apply returns_bind. eapply returns_conseq.
    { eapply (insert_refines F T v T fuel root1 root1 None st1 F emptyRecorder);
        [exact T1 | reflexivity | eapply treeAt_dom, T1
        | eapply treeAt_repr; exact T1 | lia | eapply mirrors_initial, Same]. }
    intros root2 st2 (O2 & (F' & T2 & _) & M2). rewrite Epure in M2. cbn [snd] in M2.
    apply returns_bind. eapply returns_conseq;
      [apply setNode_mirrors, (mirrors_anywhere _ _ _ M2)|].
    intros [] st3 (E3 & M3).
    apply returns_bind. eapply returns_conseq.
    { eapply (pushSummary_mirrors ∅ fuel (Some root2) (insertPlain T v));
        [rewrite E3; eapply treeAt_repr; exact T2
        | pose proof (depth_insertPlain T v); lia | set_solver | exact M3]. }
    intros [] st4 (P4 & M4). rewrite E3 in P4.
    apply returns_bind, returns_getSteps, returns_ret. cbn [fst snd steps].
    split; [|split].
    + intros l c Hl. apply P4, O2; [apply P1, Hl|].
      assert (l ∈ dom h) by (apply elem_of_dom; eauto).
      clear -D1 H. set_solver.
    + eapply repr_mono; [exact P4 | eapply treeAt_repr; exact T2].
    + exact (mirrors_shows _ _ _ M4).
Qed.

Lemma removeNode_refines (h : gmap Heap.loc Heap.Cell) (p : option Heap.loc)
    (T : TreeNode) (v : Z) (fuel : nat) :
  repr h p T → (2 * depth T + 1 < fuel)%nat →
  returns (Heap.removeNode fuel p v) (Heap.initial h) (λ out st',
    preserved h (Heap.store st')
    ∧ repr (Heap.store st') out.1 (root (removeNode T v))
    ∧ Forall2 (shows (Heap.store st')) out.2 (steps (removeNode T v))).
Proof.
  intros R Hf. rewrite removeNode_root.
  unfold Heap.removeNode, removeNode. rewrite cloneTree_id.
  apply returns_bind. eapply returns_conseq;
    [apply (cloneTree_returns T); [exact R | lia]|].
  cbn [Heap.store Heap.initial]. intros root1 st1 (P1 & Same & F & T1 & D1).
  pose proof (remove_tree v T (λ x, x) None emptyRecorder) as Etree.
  destruct (remove v (λ x, x) T None emptyRecorder) as [root2' rc2] eqn:Epure.
  cbn [fst] in Etree. subst root2'.
  apply returns_bind. eapply returns_conseq.
  { eapply (remove_refines F v T fuel root1 (λ x, x) (depth T) root1 None st1 F
              emptyRecorder);
      [exact T1 | reflexivity | eapply treeAt_dom, T1
      | intros h' t' _ R' D'; split; [exact R' | exact D']
      | lia | eapply mirrors_initial, Same]. }
  intros root2 st2 (O2 & (F' & T2 & _) & M2). rewrite Epure in M2. cbn [snd] in M2.
  apply returns_bind. eapply returns_conseq.
  { eapply (pushSummary_mirrors ∅ fuel root2 (removePlain v T));
      [eapply treeAt_repr; exact T2
      | pose proof (depth_removePlain T v); lia | set_solver
      | exact (mirrors_anywhere _ _ _ M2)]. }
  intros [] st3 (P3 & M3).
  apply returns_bind, returns_getSteps, returns_ret. cbn [fst snd steps].
  split; [|split].
  - intros l c Hl. apply P3, O2; [apply P1, Hl|].
    assert (l ∈ dom h) by (apply elem_of_dom; eauto).
    clear -D1 H. set_solver.
  - eapply repr_mono; [exact P3 | eapply treeAt_repr; exact T2].
  - exact (mirrors_shows _ _ _ M3).
Qed.

(** C4. Let the caller's reference [p] lead to the tree [T] in the store
    [h].  Given a recursion budget above twice the depth of [T],
    [insertNode] and [removeNode] return, and in the store they leave
    every object of [h] has the value and the left and right references it
    had, so [p] still leads to [T]; the change shows only under the
    returned root, which leads to the root of the value-level function,
    as the recorded steps show the steps of the value-level function. *)
Theorem operations_leave_original_unchanged (h : gmap Heap.loc Heap.Cell)
    (p : option Heap.loc) (T : TreeNode) (v : Z) (fuel : nat) :
  repr h p T → (2 * depth T + 1 < fuel)%nat →
  returns (Heap.insertNode fuel p v) (Heap.initial h) (λ out st',
    preserved h (Heap.store st')
    ∧ repr (Heap.store st') p T
    ∧ repr (Heap.store st') (Some out.1) (root (insertNode T v))
    ∧ Forall2 (shows (Heap.store st')) out.2 (steps (insertNode T v)))
  ∧ returns (Heap.removeNode fuel p v) (Heap.initial h) (λ out st',
    preserved h (Heap.store st')
    ∧ repr (Heap.store st') p T
    ∧ repr (Heap.store st') out.1 (root (removeNode T v))
    ∧ Forall2 (shows (Heap.store st')) out.2 (steps (removeNode T v))).
Proof.
  intros R Hf. split.
  - eapply returns_conseq; [apply (insertNode_refines h p T v fuel R Hf)|].
    intros out st' (P & R' & S'). repeat split; [exact P | | exact R' | exact S'].
    eapply repr_mono; [exact P | exact R].
  - eapply returns_conseq; [apply (removeNode_refines h p T v fuel R Hf)|].
    intros out st' (P & R' & S'). repeat split; [exact P | | exact R' | exact S'].
    eapply repr_mono; [exact P | exact R].
Qed.

Lemma operations_leave_original_unchanged_witness :
  repr store_1_2_3 (Some 1%positive) tree_1_2_3
  ∧ returns (Heap.insertNode 6 (Some 1%positive) 2) (Heap.initial store_1_2_3)
      (λ out st',
        preserved store_1_2_3 (Heap.store st')
        ∧ repr (Heap.store st') (Some 1%positive) tree_1_2_3
        ∧ repr (Heap.store st') (Some out.1) (root (insertNode tree_1_2_3 2))
        ∧ Forall2 (shows (Heap.store st')) out.2 (steps (insertNode tree_1_2_3 2)))
  ∧ returns (Heap.removeNode 6 (Some 1%positive) 2) (Heap.initial store_1_2_3)
      (λ out st',
        preserved store_1_2_3 (Heap.store st')
        ∧ repr (Heap.store st') (Some 1%positive) tree_1_2_3
        ∧ repr (Heap.store st') out.1 (root (removeNode tree_1_2_3 2))
        ∧ Forall2 (shows (Heap.store st')) out.2 (steps (removeNode tree_1_2_3 2))).
Proof.
  assert (R : repr store_1_2_3 (Some 1%positive) tree_1_2_3).
  { exists 1%positive, (Some 2%positive), (Some 3%positive).
    repeat split; [exists 2%positive, None, None | exists 3%positive, None, None];
      repeat split. }
  split; [exact R|].
  apply (operations_leave_original_unchanged store_1_2_3 (Some 1%positive)
           tree_1_2_3 2 6 R).
  simpl. lia.
Defined.

(** * Further properties *)

(** ** Predecessor and successor *)

Lemma below_or_not (v : Z) (xs : list Z) :
  (∃ x, x ∈ xs ∧ x < v) ∨ (∀ x, x ∈ xs → v <= x).
Proof.
  destruct (decide (Exists (λ x, x < v) xs)) as [H|H].
  - left. apply Exists_exists in H. exact H.
  - right. intros x Hx. destruct (Z.le_gt_cases v x); [done|].
    exfalso. apply H, Exists_exists. eauto.
Qed.

Lemma above_or_not (v : Z) (xs : list Z) :
  (∃ x, x ∈ xs ∧ v < x) ∨ (∀ x, x ∈ xs → x <= v).
Proof.
  destruct (decide (Exists (λ x, v < x) xs)) as [H|H].
  - left. apply Exists_exists in H. exact H.
  - right. intros x Hx. destruct (Z.le_gt_cases x v); [done|].
    exfalso. apply H, Exists_exists. exists x. split; [done | lia].
Qed.

Lemma predecessorLoop_result (root0 : TreeNode) (v : Z) (node : TreeNode) :
  bst node → ∀ parent best st,
  let r := (predecessorLoop root0 v node parent best st).1 in
  ((∀ x, x ∈ values node → v <= x) → r = best)
  ∧ ((∃ x, x ∈ values node ∧ x < v) →
       ∃ p, r = Some p ∧ p ∈ values node ∧ p < v
            ∧ ∀ x, x ∈ values node → x < v → x <= p).
Proof.
  induction node as [|nv l IHl r IHr]; intros B parent best st; cbn [predecessorLoop values].
  - split; [reflexivity|]. intros (x & Hx & _). inversion Hx.
  - destruct B as (Hl & Hr & Bl & Br). rewrite Forall_forall in Hl, Hr.
    destruct (Z.leb_spec v nv) as [Hle|Hgt].
    + match goal with |- context [predecessorLoop root0 v l ?p ?b ?s] =>
        destruct (IHl Bl p b s) as [Hnone Hsome] end.
      cbn zeta in Hnone, Hsome. split.
      * intros Hall. apply Hnone. intros x Hx. apply Hall.
        rewrite elem_of_app. auto.
      * intros (x & Hx & Hlt). rewrite elem_of_app, elem_of_cons in Hx.
        destruct Hx as [Hx|[->|Hx]]; [|lia|apply Hr in Hx; lia].
        destruct Hsome as (p & Ep & Hp & Hpv & Hmax); [eauto|].
        exists p. repeat split; auto.
        { rewrite elem_of_app. auto. }
        intros y Hy Hyv. rewrite elem_of_app, elem_of_cons in Hy.
        destruct Hy as [Hy|[->|Hy]]; [auto|lia|apply Hr in Hy; lia].
    + match goal with |- context [predecessorLoop root0 v r ?p ?b ?s] =>
        destruct (IHr Br p b s) as [Hnone Hsome] end.
      cbn zeta in Hnone, Hsome. split.
      * intros Hall. specialize (Hall nv). rewrite elem_of_app, elem_of_cons in Hall.
        assert (v <= nv) by auto. lia.
      * intros _.
        destruct (below_or_not v (values r)) as [Hex|Hno].
        -- destruct (Hsome Hex) as (p & Ep & Hp & Hpv & Hmax).
           exists p. repeat split; auto.
           { rewrite elem_of_app, elem_of_cons. auto. }
           intros y Hy Hyv. rewrite elem_of_app, elem_of_cons in Hy.
           apply Hr in Hp.
           destruct Hy as [Hy|[->|Hy]]; [apply Hl in Hy; lia | lia | auto].
        -- exists nv. repeat split; [| |lia|].
           ++ apply Hnone, Hno.
           ++ rewrite elem_of_app, elem_of_cons. auto.
           ++ intros y Hy Hyv. rewrite elem_of_app, elem_of_cons in Hy.
              destruct Hy as [Hy|[->|Hy]]; [apply Hl in Hy; lia | lia |].
              apply Hno in Hy. lia.
Qed.

Lemma findPredecessor_result (T : TreeNode) (v : Z) :
  result (findPredecessor T v)
  = (predecessorLoop T v T None None
       (push (makeStep T ("Finding predecessor of " +:+ show v) [] [] (Some 0) None)
          emptyRecorder)).1.
Proof.
  unfold findPredecessor.
  destruct (predecessorLoop _ _ _ _ _ _) as [best st]. reflexivity.
Qed.

(** X1. On a binary search tree, [findPredecessor] returns the largest
    value strictly below the queried one, and [null] exactly when the tree
    holds no such value. *)
Theorem findPredecessor_largest_below (T : TreeNode) (v : Z) :
  bst T →
  match result (findPredecessor T v) with
  | Some p => p ∈ values T ∧ p < v ∧ ∀ x, x ∈ values T → x < v → x <= p
  | None => ∀ x, x ∈ values T → v <= x
  end.
Proof.
  intros B. rewrite findPredecessor_result.
  match goal with |- context [predecessorLoop T v T None None ?s] =>
    destruct (predecessorLoop_result T v T B None None s) as [Hnone Hsome] end.
  cbn zeta in *.
  destruct (below_or_not v (values T)) as [Hex|Hno].
  - destruct (Hsome Hex) as (p & -> & Hp). exact Hp.
  - rewrite (Hnone Hno). exact Hno.
Qed.

Lemma findPredecessor_largest_below_witness :
  bst tree_1_2_3
  ∧ match result (findPredecessor tree_1_2_3 3) with
    | Some p => p ∈ values tree_1_2_3 ∧ p < 3
                ∧ ∀ x, x ∈ values tree_1_2_3 → x < 3 → x <= p
    | None => ∀ x, x ∈ values tree_1_2_3 → 3 <= x
    end.
Proof.
  assert (B : bst tree_1_2_3) by (simpl; repeat constructor; lia).
  split; [exact B | exact (findPredecessor_largest_below tree_1_2_3 3 B)].
Defined.

Lemma successorLoop_result (root0 : TreeNode) (v : Z) (node : TreeNode) :
  bst node → ∀ parent best st,
  let r := (successorLoop root0 v node parent best st).1 in
  ((∀ x, x ∈ values node → x <= v) → r = best)
  ∧ ((∃ x, x ∈ values node ∧ v < x) →
       ∃ p, r = Some p ∧ p ∈ values node ∧ v < p
            ∧ ∀ x, x ∈ values node → v < x → p <= x).
Proof.
  induction node as [|nv l IHl r IHr]; intros B parent best st; cbn [successorLoop values].
  - split; [reflexivity|]. intros (x & Hx & _). inversion Hx.
  - destruct B as (Hl & Hr & Bl & Br). rewrite Forall_forall in Hl, Hr.
    destruct (Z.geb_spec v nv) as [Hge|Hlt].
    + match goal with |- context [successorLoop root0 v r ?p ?b ?s] =>
        destruct (IHr Br p b s) as [Hnone Hsome] end.
      cbn zeta in Hnone, Hsome. split.
      * intros Hall. apply Hnone. intros x Hx. apply Hall.
        rewrite elem_of_app, elem_of_cons. auto.
      * intros (x & Hx & Hxv). rewrite elem_of_app, elem_of_cons in Hx.
        destruct Hx as [Hx|[->|Hx]]; [apply Hl in Hx; lia|lia|].
        destruct Hsome as (p & Ep & Hp & Hpv & Hmin); [eauto|].
        exists p. repeat split; auto.
        { rewrite elem_of_app, elem_of_cons. auto. }
        intros y Hy Hyv. rewrite elem_of_app, elem_of_cons in Hy.
        destruct Hy as [Hy|[->|Hy]]; [apply Hl in Hy; lia|lia|auto].
    + match goal with |- context [successorLoop root0 v l ?p ?b ?s] =>
        destruct (IHl Bl p b s) as [Hnone Hsome] end.
      cbn zeta in Hnone, Hsome. split.
      * intros Hall. specialize (Hall nv). rewrite elem_of_app, elem_of_cons in Hall.
        assert (nv <= v) by auto. lia.
      * intros _.
        destruct (above_or_not v (values l)) as [Hex|Hno].
        -- destruct (Hsome Hex) as (p & Ep & Hp & Hpv & Hmin).
           exists p. repeat split; auto.
           { rewrite elem_of_app. auto. }
           intros y Hy Hyv. rewrite elem_of_app, elem_of_cons in Hy.
           apply Hl in Hp.
           destruct Hy as [Hy|[->|Hy]]; [auto | lia | apply Hr in Hy; lia].
        -- exists nv. repeat split; [| |lia|].
           ++ apply Hnone, Hno.
           ++ rewrite elem_of_app, elem_of_cons. auto.
           ++ intros y Hy Hyv. rewrite elem_of_app, elem_of_cons in Hy.
              destruct Hy as [Hy|[->|Hy]]; [|lia|apply Hr in Hy; lia].
              apply Hno in Hy. lia.
Qed.

Lemma findSuccessor_result (T : TreeNode) (v : Z) :
  result (findSuccessor T v)
  = (successorLoop T v T None None
       (push (makeStep T ("Finding successor of " +:+ show v) [] [] (Some 0) None)
          emptyRecorder)).1.
Proof.
  unfold findSuccessor.
  destruct (successorLoop _ _ _ _ _ _) as [best st]. reflexivity.
Qed.

(** X2. On a binary search tree, [findSuccessor] returns the smallest
    value strictly above the queried one, and [null] exactly when the tree
    holds no such value. *)
Theorem findSuccessor_smallest_above (T : TreeNode) (v : Z) :
  bst T →
  match result (findSuccessor T v) with
  | Some p => p ∈ values T ∧ v < p ∧ ∀ x, x ∈ values T → v < x → p <= x
  | None => ∀ x, x ∈ values T → x <= v
  end.
Proof.
  intros B. rewrite findSuccessor_result.
  match goal with |- context [successorLoop T v T None None ?s] =>
    destruct (successorLoop_result T v T B None None s) as [Hnone Hsome] end.
  cbn zeta in *.
  destruct (above_or_not v (values T)) as [Hex|Hno].
  - destruct (Hsome Hex) as (p & -> & Hp). exact Hp.
  - rewrite (Hnone Hno). exact Hno.
Qed.

Lemma findSuccessor_smallest_above_witness :
  bst tree_1_2_3
  ∧ match result (findSuccessor tree_1_2_3 3) with
    | Some p => p ∈ values tree_1_2_3 ∧ 3 < p
                ∧ ∀ x, x ∈ values tree_1_2_3 → 3 < x → p <= x
    | None => ∀ x, x ∈ values tree_1_2_3 → x <= 3
    end.
Proof.
  assert (B : bst tree_1_2_3) by (simpl; repeat constructor; lia).
  split; [exact B | exact (findSuccessor_smallest_above tree_1_2_3 3 B)].
Defined.

(** ** Structural queries *)

Lemma findMax_value (t : TreeNode) : t ≠ Null → valueOf (findMax t) ∈ values t.
Proof.
  induction t as [|nv l _ r IHr]; [congruence|]. intros _.
  destruct r as [|rv rl rr].
  - simpl. rewrite elem_of_app, elem_of_cons. auto.
  - change (findMax (Node nv l (Node rv rl rr))) with (findMax (Node rv rl rr)).
    cbn [values] in *. rewrite elem_of_app, elem_of_cons. right. right.
    apply IHr. discriminate.
Qed.

(** X3. On a non-empty binary search tree, [findMin] returns a node holding
    the least value of the tree and [findMax] a node holding the greatest. *)
Theorem findMin_findMax_bounds (T : TreeNode) :
  bst T → T ≠ Null →
  valueOf (findMin T) ∈ values T ∧ valueOf (findMax T) ∈ values T
  ∧ ∀ x, x ∈ values T → valueOf (findMin T) <= x <= valueOf (findMax T).
Proof.
  intros B HT. split; [apply findMin_value, HT|]. split; [apply findMax_value, HT|].
  clear HT. induction T as [|nv l IHl r IHr]; intros x Hx; [inversion Hx|].
  destruct B as (Hl & Hr & Bl & Br). rewrite Forall_forall in Hl, Hr.
  cbn [values] in Hx. rewrite elem_of_app, elem_of_cons in Hx.
  assert (Lmin : valueOf (findMin (Node nv l r)) <= nv
                 ∧ ∀ y, y ∈ values l → valueOf (findMin (Node nv l r)) <= y).
  { destruct l as [|lv ll lr]; [simpl; split; [lia | intros y Hy; inversion Hy]|].
    change (findMin (Node nv (Node lv ll lr) r)) with (findMin (Node lv ll lr)).
    split; [|intros y Hy; apply (IHl Bl y Hy)].
    assert (valueOf (findMin (Node lv ll lr)) < nv)
      by (apply Hl, findMin_value; discriminate).
    lia. }
  assert (Rmax : nv <= valueOf (findMax (Node nv l r))
                 ∧ ∀ y, y ∈ values r → y <= valueOf (findMax (Node nv l r))).
  { destruct r as [|rv rl rr]; [simpl; split; [lia | intros y Hy; inversion Hy]|].
    change (findMax (Node nv l (Node rv rl rr))) with (findMax (Node rv rl rr)).
    split; [|intros y Hy; apply (IHr Br y Hy)].
    assert (nv < valueOf (findMax (Node rv rl rr)))
      by (apply Hr, findMax_value; discriminate).
    lia. }
  destruct Lmin as [L1 L2], Rmax as [R1 R2].
  destruct Hx as [Hx|[->|Hx]].
  - pose proof (L2 _ Hx). apply Hl in Hx. lia.
  - lia.
  - pose proof (R2 _ Hx). apply Hr in Hx. lia.
Qed.

Lemma findMin_findMax_bounds_witness :
  bst tree_1_2_3 ∧ tree_1_2_3 ≠ Null
  ∧ valueOf (findMin tree_1_2_3) ∈ values tree_1_2_3
  ∧ valueOf (findMax tree_1_2_3) ∈ values tree_1_2_3
  ∧ ∀ x, x ∈ values tree_1_2_3 →
         valueOf (findMin tree_1_2_3) <= x <= valueOf (findMax tree_1_2_3).
Proof.
  assert (B : bst tree_1_2_3) by (simpl; repeat constructor; lia).
  assert (N : tree_1_2_3 ≠ Null) by discriminate.
  split; [exact B | split; [exact N | exact (findMin_findMax_bounds tree_1_2_3 B N)]].
Defined.

Lemma treeHeight_nonneg (T : TreeNode) : 0 <= treeHeight T.
Proof. induction T as [|v l IHl r IHr]; simpl; lia. Qed.

(** X4. The height of a tree is at most its node count, and a tree of
    height [h] has at most [2^h - 1] nodes. *)
Theorem treeHeight_countNodes_bounds (T : TreeNode) :
  treeHeight T <= countNodes T <= 2 ^ treeHeight T - 1.
Proof.
  induction T as [|v l IHl r IHr]; [simpl; lia|].
  cbn [treeHeight countNodes].
  pose proof (treeHeight_nonneg l) as Nl. pose proof (treeHeight_nonneg r) as Nr.
  set (hl := treeHeight l) in *. set (hr := treeHeight r) in *.
  assert (Pl : 2 ^ hl <= 2 ^ Z.max hl hr) by (apply Z.pow_le_mono_r; lia).
  assert (Pr : 2 ^ hr <= 2 ^ Z.max hl hr) by (apply Z.pow_le_mono_r; lia).
  replace (1 + Z.max hl hr) with (Z.succ (Z.max hl hr)) by lia.
  rewrite Z.pow_succ_r by lia. lia.
Qed.

(** ** Insert *)

Lemma insertPlain_count (t : TreeNode) (v : Z) :
  v ∉ values t → countNodes (insertPlain t v) = countNodes t + 1.
Proof.
  induction t as [|nv l IHl r IHr]; [reflexivity|].
  cbn [values insertPlain]. rewrite elem_of_app, elem_of_cons. intros Hin.
  destruct (Z.ltb_spec v nv); [cbn [countNodes]; rewrite IHl; [lia | tauto]|].
  destruct (Z.gtb_spec v nv); [cbn [countNodes]; rewrite IHr; [lia | tauto]|].
  exfalso. apply Hin. right. left. lia.
Qed.

(** X5. The animated insert and the silent insert used to build the
    default tree return the same tree. *)
Theorem insertNode_agrees_with_insertPlain (T : TreeNode) (v : Z) :
  root (insertNode T v) = insertPlain T v.
Proof. apply insertNode_root. Qed.

(** X6. Inserting into a binary search tree gives a binary search tree
    whose values are those of the input and the inserted one. *)
Theorem insertNode_keeps_bst_adds_value (T : TreeNode) (v : Z) :
  bst T →
  bst (root (insertNode T v))
  ∧ ∀ x, x ∈ values (root (insertNode T v)) ↔ x = v ∨ x ∈ values T.
Proof.
  intros B. rewrite insertNode_root. split; [apply insertPlain_bst, B|].
  intros x. apply insertPlain_values.
Qed.

Lemma insertNode_keeps_bst_adds_value_witness :
  bst tree_1_2
  ∧ bst (root (insertNode tree_1_2 3))
  ∧ ∀ x, x ∈ values (root (insertNode tree_1_2 3)) ↔ x = 3 ∨ x ∈ values tree_1_2.
Proof.
  assert (B : bst tree_1_2) by (simpl; repeat constructor; lia).
  split; [exact B | exact (insertNode_keeps_bst_adds_value tree_1_2 3 B)].
Defined.

(** X7. Inserting a value the tree does not hold adds exactly one node. *)
Theorem insertNode_absent_grows (T : TreeNode) (v : Z) :
  v ∉ values T → countNodes (root (insertNode T v)) = countNodes T + 1.
Proof. intros H. rewrite insertNode_root. apply insertPlain_count, H. Qed.

Lemma insertNode_absent_grows_witness :
  (3 ∉ values tree_1_2)
  ∧ countNodes (root (insertNode tree_1_2 3)) = countNodes tree_1_2 + 1.
Proof.
  assert (H : 3 ∉ values tree_1_2).
  { simpl. intros H. repeat (apply elem_of_cons in H as [H|H]; [lia|]). inversion H. }
  split; [exact H | exact (insertNode_absent_grows tree_1_2 3 H)].
Defined.

(** X8. A value inserted into a binary search tree is found by a search
    of the returned tree. *)
Theorem search_after_insert (T : TreeNode) (v : Z) :
  bst T → found (searchNode (root (insertNode T v)) v) = true.
Proof.
  intros B. rewrite insertNode_root. unfold searchNode.
  apply searchLoop_found; [apply insertPlain_bst, B|].
  apply insertPlain_values. auto.
Qed.

Lemma search_after_insert_witness :
  bst tree_1_2 ∧ found (searchNode (root (insertNode tree_1_2 3)) 3) = true.
Proof.
  assert (B : bst tree_1_2) by (simpl; repeat constructor; lia).
  split; [exact B | exact (search_after_insert tree_1_2 3 B)].
Defined.

(** ** Remove *)

Lemma removePlain_values (v : Z) (t : TreeNode) :
  bst t → ∀ x, x ∈ values (removePlain v t) ↔ x ∈ values t ∧ x ≠ v.
Proof.
  induction t as [|nv l IHl r IHr]; intros B x.
  - simpl. split; [intros H; inversion H | intros [H _]; inversion H].
  - destruct B as (Hl & Hr & Bl & Br). rewrite Forall_forall in Hl, Hr.
    cbn [removePlain].
    destruct (Z.ltb_spec v nv) as [Hlt|Hge].
    { cbn [values]. rewrite !elem_of_app, !elem_of_cons, (IHl Bl).
      split; [intros [[H1 H2]|[->|H]]; [tauto | split; [tauto | lia] |]
             | intros [[H|[H|H]] Hne]; tauto].
      split; [tauto|]. apply Hr in H. lia. }
    destruct (Z.gtb_spec v nv) as [Hgt|Hle].
    { cbn [values]. rewrite !elem_of_app, !elem_of_cons, (IHr Br).
      split; [intros [H|[->|[H1 H2]]]; [| split; [tauto | lia] | tauto]
             | intros [[H|[H|H]] Hne]; tauto].
      split; [tauto|]. apply Hl in H. lia. }
    assert (v = nv) by lia. subst v.
    destruct l as [|lv ll lr], r as [|rv rl rr].
    + simpl. rewrite elem_of_cons.
      split; [intros H; inversion H | intros [[H|H] Hne]; [lia | inversion H]].
    + cbn [values app]. rewrite (elem_of_cons (values (Node rv rl rr))).
      split; [intros H; split; [auto | apply Hr in H; lia] | intros [[H|H] Hne]; [lia | auto]].
    + cbn [values]. rewrite (elem_of_app _ [nv]), elem_of_cons.
      split; [intros H; split; [auto | apply Hl in H; lia]
             | intros [[H|[H|H]] Hne]; [auto | lia | inversion H]].
    + rewrite removePlain_absent; [|exact Br | intros H; apply Hr in H; lia].
      set (tl := Node lv ll lr) in *. set (tr := Node rv rl rr) in *.
      cbn [values]. rewrite !elem_of_app, !elem_of_cons.
      pose proof (findMin_value tr ltac:(discriminate)) as Hm.
      split.
      * intros [H|[->|H]].
        -- split; [auto | apply Hl in H; lia].
        -- split; [auto | apply Hr in Hm; lia].
        -- split; [auto | apply Hr in H; lia].
      * intros [[H|[H|H]] Hne]; [auto | lia | auto].
Qed.

(** X9. Removing a value from a binary search tree takes it out of the
    value set and keeps every other value of the tree, adding none. *)
Theorem removeNode_value_set (T : TreeNode) (v : Z) :
  bst T → ∀ x, x ∈ values (root (removeNode T v)) ↔ x ∈ values T ∧ x ≠ v.
Proof. intros B x. rewrite removeNode_root. apply removePlain_values, B. Qed.

Lemma removeNode_value_set_witness :
  bst tree_1_2_3
  ∧ ∀ x, x ∈ values (root (removeNode tree_1_2_3 2)) ↔ x ∈ values tree_1_2_3 ∧ x ≠ 2.
Proof.
  assert (B : bst tree_1_2_3) by (simpl; repeat constructor; lia).
  split; [exact B | exact (removeNode_value_set tree_1_2_3 2 B)].
Defined.

(** X10. Removing a value a binary search tree does not hold, from the
    empty tree in particular, returns a structurally equal tree. *)
Theorem removeNode_absent_noop (T : TreeNode) (v : Z) :
  bst T → v ∉ values T → root (removeNode T v) = T.
Proof. intros B H. rewrite removeNode_root. now apply removePlain_absent. Qed.

Lemma removeNode_absent_noop_witness :
  bst tree_1_2_3 ∧ (5 ∉ values tree_1_2_3)
  ∧ root (removeNode tree_1_2_3 5) = tree_1_2_3.
Proof.
  assert (B : bst tree_1_2_3) by (simpl; repeat constructor; lia).
  assert (H : 5 ∉ values tree_1_2_3).
  { simpl. intros H. repeat (apply elem_of_cons in H as [H|H]; [lia|]). inversion H. }
  split; [exact B | split; [exact H | exact (removeNode_absent_noop tree_1_2_3 5 B H)]].
Defined.

(** X11. Removing a present value from a binary search tree returns a
    binary search tree exactly when the node holding the value has at most
    one child. *)
Theorem removeNode_bst_unless_two_children (T : TreeNode) (v : Z) :
  bst T → v ∈ values T →
  (bst (root (removeNode T v)) ↔ twoChildrenAt v T = false).
Proof. apply removeNode_bst_iff. Qed.

Lemma removeNode_bst_unless_two_children_witness :
  bst tree_1_2_3 ∧ 1 ∈ values tree_1_2_3
  ∧ (bst (root (removeNode tree_1_2_3 1)) ↔ twoChildrenAt 1 tree_1_2_3 = false).
Proof.
  assert (B : bst tree_1_2_3) by (simpl; repeat constructor; lia).
  assert (H : 1 ∈ values tree_1_2_3) by (simpl; repeat constructor).
  split; [exact B | split; [exact H|]].
  exact (removeNode_bst_unless_two_children tree_1_2_3 1 B H).
Defined.

(** X12. Removing a present value from a binary search tree takes one node
    away, except when the node holding the value has two children: then
    the node count stays as it was. *)
Theorem removeNode_count_by_case (T : TreeNode) (v : Z) :
  bst T → v ∈ values T →
  countNodes (root (removeNode T v))
  = if twoChildrenAt v T then countNodes T else countNodes T - 1.
Proof. apply removeNode_count. Qed.

Lemma removeNode_count_by_case_witness :
  bst tree_1_2_3 ∧ 1 ∈ values tree_1_2_3
  ∧ countNodes (root (removeNode tree_1_2_3 1))
    = if twoChildrenAt 1 tree_1_2_3 then countNodes tree_1_2_3
      else countNodes tree_1_2_3 - 1.
Proof.
  assert (B : bst tree_1_2_3) by (simpl; repeat constructor; lia).
  assert (H : 1 ∈ values tree_1_2_3) by (simpl; repeat constructor).
  split; [exact B | split; [exact H|]].
  exact (removeNode_count_by_case tree_1_2_3 1 B H).
Defined.

Lemma searchLoop_absent (root0 : TreeNode) (v : Z) (node : TreeNode) :
  bst node → v ∉ values node → ∀ parent st,
  found (searchLoop root0 v node parent st) = false.
Proof.
  intros B H parent st.
  destruct (found (searchLoop root0 v node parent st)) eqn:E; [|reflexivity].
  apply searchLoop_found in E; [contradiction | exact B].
Qed.

Lemma searchLoop_after_remove (root0 : TreeNode) (v : Z) (t : TreeNode) :
  bst t → ∀ parent st,
  found (searchLoop root0 v (removePlain v t) parent st) = false.
Proof.
  induction t as [|nv l IHl r IHr]; intros B parent st; [reflexivity|].
  destruct B as (Hl & Hr & Bl & Br). rewrite Forall_forall in Hl, Hr.
  cbn [removePlain].
  destruct (Z.ltb_spec v nv) as [Hlt|Hge].
  { cbn [searchLoop]. destruct (Z.eqb_spec v nv); [lia|].
    destruct (Z.ltb_spec v nv); [|lia]. apply IHl, Bl. }
  destruct (Z.gtb_spec v nv) as [Hgt|Hle].
  { cbn [searchLoop]. destruct (Z.eqb_spec v nv); [lia|].
    destruct (Z.ltb_spec v nv); [lia|]. apply IHr, Br. }
  assert (v = nv) by lia. subst v.
  assert (Nl : nv ∉ values l) by (intros H; apply Hl in H; lia).
  assert (Nr : nv ∉ values r) by (intros H; apply Hr in H; lia).
  destruct l as [|lv ll lr], r as [|rv rl rr].
  - reflexivity.
  - apply searchLoop_absent; assumption.
  - apply searchLoop_absent; assumption.
  - rewrite removePlain_absent by assumption.
    set (tl := Node lv ll lr) in *. set (tr := Node rv rl rr) in *.
    pose proof (findMin_value tr ltac:(discriminate)) as Hm. apply Hr in Hm.
    cbn [searchLoop]. destruct (Z.eqb_spec nv (valueOf (findMin tr))); [lia|].
    destruct (Z.ltb_spec nv (valueOf (findMin tr))); [|lia].
    apply searchLoop_absent; assumption.
Qed.

(** X13. A value removed from a binary search tree is not found by a
    search of the returned tree. *)
Theorem search_after_remove (T : TreeNode) (v : Z) :
  bst T → found (searchNode (root (removeNode T v)) v) = false.
Proof.
  intros B. rewrite removeNode_root. unfold searchNode.
  apply searchLoop_after_remove, B.
Qed.

Lemma search_after_remove_witness :
  bst tree_1_2_3 ∧ found (searchNode (root (removeNode tree_1_2_3 2)) 2) = false.
Proof.
  assert (B : bst tree_1_2_3) by (simpl; repeat constructor; lia).
  split; [exact B | exact (search_after_remove tree_1_2_3 2 B)].
Defined.

(** ** Traversals *)

Lemma visitOrder_setNode (k : Z) (h : HighlightType) (st : Recorder) :
  visitOrder (rec_steps (setNode k h st)) = visitOrder (rec_steps st).
Proof. reflexivity. Qed.

Lemma visitOrder_pushChildEdge (nv : Z) (child : TreeNode) (st : Recorder) :
  visitOrder (rec_steps (pushChildEdge nv child st)) = visitOrder (rec_steps st).
Proof. destruct child; reflexivity. Qed.

Lemma visit_makeTraversalStep (t : TreeNode) (d : string) (cur : Z)
    (ty : HighlightType) (nodes : gmap Z HighlightType) (edges : list (Z * Z))
    (line : Z) :
  visit (makeTraversalStep t d cur ty nodes edges line)
  = if decide (ty = Found) then Some cur else None.
Proof.
  unfold visit, makeTraversalStep. cbn [activeNode highlightNodes].
  rewrite lookup_insert_eq. destruct ty; reflexivity.
Qed.

Lemma visitOrder_pushTraversal (t : TreeNode) (d : string) (cur : Z)
    (ty : HighlightType) (line : Z) (st : Recorder) :
  visitOrder (rec_steps (pushTraversal t d cur ty line st))
  = visitOrder (rec_steps st) ++ (if decide (ty = Found) then [cur] else []).
Proof.
  unfold pushTraversal, push, visitOrder. cbn [rec_steps].
  rewrite omap_app. f_equal.
  cbn [omap list_omap]. rewrite visit_makeTraversalStep.
  destruct ty; reflexivity.
Qed.

Lemma visitOrder_summary (t : TreeNode) (d : string)
    (hs : list (Z * HighlightType)) (es : list (Z * Z)) (line : option Z)
    (st : Recorder) :
  visitOrder (rec_steps (push (makeStep t d hs es line None) st))
  = visitOrder (rec_steps st).
Proof.
  unfold push, visitOrder. cbn [rec_steps]. rewrite omap_app.
  cbn [omap visit makeStep activeNode]. apply app_nil_r.
Qed.

Lemma visitOrder_pushFound (t : TreeNode) (d : string) (cur line : Z)
    (st : Recorder) :
  visitOrder (rec_steps (pushTraversal t d cur Found line st))
  = visitOrder (rec_steps st) ++ [cur].
Proof. apply visitOrder_pushTraversal. Qed.

Lemma visitOrder_pushVisiting (t : TreeNode) (d : string) (cur line : Z)
    (st : Recorder) :
  visitOrder (rec_steps (pushTraversal t d cur Visiting line st))
  = visitOrder (rec_steps st).
Proof. rewrite visitOrder_pushTraversal. apply app_nil_r. Qed.

Ltac visit_steps :=
  repeat first
    [ rewrite visitOrder_pushChildEdge
    | rewrite visitOrder_pushFound
    | rewrite visitOrder_pushVisiting
    | rewrite visitOrder_setNode ].

Lemma inorderWalk_visitOrder (root0 t : TreeNode) : ∀ st,
  visitOrder (rec_steps (inorderWalk root0 t st))
  = visitOrder (rec_steps st) ++ values t.
Proof.
  induction t as [|nv l IHl r IHr]; intros st; cbn [inorderWalk values].
  - symmetry. apply app_nil_r.
  - rewrite IHr. visit_steps. rewrite IHl. visit_steps.
    rewrite <- !app_assoc. reflexivity.
Qed.

Lemma preorderWalk_visitOrder (root0 t : TreeNode) : ∀ st,
  visitOrder (rec_steps (preorderWalk root0 t st))
  = visitOrder (rec_steps st) ++ preorderValues t.
Proof.
  induction t as [|nv l IHl r IHr]; intros st; cbn [preorderWalk preorderValues].
  - symmetry. apply app_nil_r.
  - rewrite IHr. visit_steps. rewrite IHl. visit_steps.
    rewrite <- !app_assoc. reflexivity.
Qed.

Lemma postorderWalk_visitOrder (root0 t : TreeNode) : ∀ st,
  visitOrder (rec_steps (postorderWalk root0 t st))
  = visitOrder (rec_steps st) ++ postorderValues t.
Proof.
  induction t as [|nv l IHl r IHr]; intros st; cbn [postorderWalk postorderValues].
  - symmetry. apply app_nil_r.
  - visit_steps. rewrite IHr. visit_steps. rewrite IHl. visit_steps.
    rewrite <- !app_assoc. reflexivity.
Qed.

Lemma inorderTraversal_visitOrder (T : TreeNode) :
  visitOrder (inorderTraversal T) = values T.
Proof.
  unfold inorderTraversal. rewrite visitOrder_summary, inorderWalk_visitOrder.
  reflexivity.
Qed.

(** X14. The steps of an in-order traversal that mark their node as
    visited (the active node highlighted 'found') come one per node, in the
    order left subtree, node, right subtree. *)
Theorem inorderTraversal_visits_inorder (T : TreeNode) :
  visitOrder (inorderTraversal T) = values T.
Proof. apply inorderTraversal_visitOrder. Qed.

(** X15. The visiting steps of a pre-order traversal come one per node in
    the order node, left subtree, right subtree, and those of a post-order
    traversal in the order left subtree, right subtree, node. *)
Theorem preorder_postorder_visit_order (T : TreeNode) :
  visitOrder (preorderTraversal T) = preorderValues T
  ∧ visitOrder (postorderTraversal T) = postorderValues T.
Proof.
  unfold preorderTraversal, postorderTraversal.
  rewrite !visitOrder_summary, preorderWalk_visitOrder, postorderWalk_visitOrder.
  split; reflexivity.
Qed.

(** X16. On a binary search tree the in-order traversal visits the values
    in strictly ascending order. *)
Theorem inorderTraversal_visits_ascending (T : TreeNode) :
  bst T → StronglySorted Z.lt (visitOrder (inorderTraversal T)).
Proof. intros B. rewrite inorderTraversal_visitOrder. apply bst_sorted, B. Qed.

Lemma inorderTraversal_visits_ascending_witness :
  bst tree_1_2_3 ∧ StronglySorted Z.lt (visitOrder (inorderTraversal tree_1_2_3)).
Proof.
  assert (B : bst tree_1_2_3) by (simpl; repeat constructor; lia).
  split; [exact B | exact (inorderTraversal_visits_ascending tree_1_2_3 B)].
Defined.

Lemma stepCount_setNode (k : Z) (h : HighlightType) (st : Recorder) :
  stepCount (setNode k h st) = stepCount st.
Proof. reflexivity. Qed.

Lemma stepCount_pushChildEdge (nv : Z) (child : TreeNode) (st : Recorder) :
  stepCount (pushChildEdge nv child st) = stepCount st.
Proof. destruct child; reflexivity. Qed.

Lemma stepCount_push (s : AnimationStep) (st : Recorder) :
  stepCount (push s st) = stepCount st + 1.
Proof. unfold stepCount, push. cbn [rec_steps]. rewrite length_app. simpl. lia. Qed.

Lemma stepCount_pushTraversal (t : TreeNode) (d : string) (cur : Z)
    (ty : HighlightType) (line : Z) (st : Recorder) :
  stepCount (pushTraversal t d cur ty line st) = stepCount st + 1.
Proof. apply stepCount_push. Qed.

Ltac count_steps :=
  repeat first
    [ rewrite stepCount_pushChildEdge
    | rewrite stepCount_pushTraversal
    | rewrite stepCount_setNode ].

Lemma inorderWalk_stepCount (root0 t : TreeNode) : ∀ st,
  stepCount (inorderWalk root0 t st) = stepCount st + 3 * countNodes t.
Proof.
  induction t as [|nv l IHl r IHr]; intros st; cbn [inorderWalk countNodes]; [lia|].
  rewrite IHr. count_steps. rewrite IHl. count_steps. lia.
Qed.

Lemma preorderWalk_stepCount (root0 t : TreeNode) : ∀ st,
  stepCount (preorderWalk root0 t st) = stepCount st + 3 * countNodes t.
Proof.
  induction t as [|nv l IHl r IHr]; intros st; cbn [preorderWalk countNodes]; [lia|].
  rewrite IHr. count_steps. rewrite IHl. count_steps. lia.
Qed.

Lemma postorderWalk_stepCount (root0 t : TreeNode) : ∀ st,
  stepCount (postorderWalk root0 t st) = stepCount st + 3 * countNodes t.
Proof.
  induction t as [|nv l IHl r IHr]; intros st; cbn [postorderWalk countNodes]; [lia|].
  count_steps. rewrite IHr. count_steps. rewrite IHl. count_steps. lia.
Qed.

(** X17. Each traversal records three steps per node and one closing
    step: its trace has one step more than three times the node count. *)
Theorem traversal_trace_length (T : TreeNode) :
  Z.of_nat (length (inorderTraversal T)) = 3 * countNodes T + 1
  ∧ Z.of_nat (length (preorderTraversal T)) = 3 * countNodes T + 1
  ∧ Z.of_nat (length (postorderTraversal T)) = 3 * countNodes T + 1.
Proof.
  unfold inorderTraversal, preorderTraversal, postorderTraversal.
  repeat split;
    match goal with
    | |- Z.of_nat (length (rec_steps ?s)) = _ => change (stepCount s = 3 * countNodes T + 1)
    end;
    rewrite stepCount_push;
    [rewrite inorderWalk_stepCount | rewrite preorderWalk_stepCount
    | rewrite postorderWalk_stepCount];
    reflexivity.
Qed.

(** ** Snapshots *)

Create HintDb snaps.

Section Snapshots.

Variable T : TreeNode.

Lemma snapshots_empty : snapshots T emptyRecorder.
Proof. constructor. Qed.

Lemma snapshots_push (s : AnimationStep) (st : Recorder) :
  snapshotOf T s → snapshots T st → snapshots T (push s st).
Proof.
  intros Hs H. unfold snapshots, push; simpl.
  apply Forall_app. split; [exact H | constructor; [exact Hs | constructor]].
Qed.

Lemma snapshots_setNode (k : Z) (h : HighlightType) (st : Recorder) :
  snapshots T st → snapshots T (setNode k h st).
Proof. intros H; exact H. Qed.

Lemma snapshots_pushParentEdge (parent : option Z) (v : Z) (st : Recorder) :
  snapshots T st → snapshots T (pushParentEdge parent v st).
Proof. intros H. destruct parent; exact H. Qed.

Lemma snapshots_pushChildEdge (v : Z) (child : TreeNode) (st : Recorder) :
  snapshots T st → snapshots T (pushChildEdge v child st).
Proof. intros H. destruct child; exact H. Qed.

Lemma snapshotOf_makeStep (d : string) (hs : list (Z * HighlightType))
    (es : list (Z * Z)) (line active : option Z) :
  snapshotOf T (makeStep T d hs es line active).
Proof. apply cloneTree_id. Qed.

Lemma snapshots_pushTraversal (d : string) (cur : Z) (ty : HighlightType)
    (line : Z) (st : Recorder) :
  snapshots T st → snapshots T (pushTraversal T d cur ty line st).
Proof. intros H. apply snapshots_push; [apply cloneTree_id | exact H]. Qed.

Lemma snapshots_pushSummary (d : string) (line : option Z) (st : Recorder) :
  snapshots T st → snapshots T (pushSummary T d line st).
Proof. intros H. apply snapshots_push; [apply cloneTree_id | exact H]. Qed.

End Snapshots.

#[local] Hint Resolve snapshots_empty snapshots_setNode snapshots_pushParentEdge
  snapshots_pushChildEdge snapshots_pushTraversal snapshots_pushSummary
  snapshotOf_makeStep snapshots_push : snaps.

Lemma searchLoop_snapshots (root0 : TreeNode) (v : Z) (node : TreeNode) :
  ∀ parent st, snapshots root0 st →
  Forall (snapshotOf root0) (steps (searchLoop root0 v node parent st)).
Proof.
  induction node as [|nv l IHl r IHr]; intros parent st H; unfold_walk.
  - change (snapshots root0 (pushSummary root0 (show v +:+ " not found in tree") (Some 1)
              (pushSummary root0 "Reached null" (Some 0) st))).
    auto with snaps.
  - destruct (v =? nv); unfold_walk.
    + match goal with |- Forall _ (rec_steps ?s) => change (snapshots root0 s) end.
      auto 10 with snaps.
    + destruct (v <? nv); [apply IHl | apply IHr]; auto 10 with snaps.
Qed.

Lemma predecessorLoop_snapshots (root0 : TreeNode) (v : Z) (node : TreeNode) :
  ∀ parent pred st, snapshots root0 st →
  snapshots root0 (predecessorLoop root0 v node parent pred st).2.
Proof.
  induction node as [|nv l IHl r IHr]; intros parent pred st H; unfold_walk; [exact H|].
  destruct (v <=? nv); [apply IHl | apply IHr]; auto 10 with snaps.
Qed.

Lemma successorLoop_snapshots (root0 : TreeNode) (v : Z) (node : TreeNode) :
  ∀ parent succ st, snapshots root0 st →
  snapshots root0 (successorLoop root0 v node parent succ st).2.
Proof.
  induction node as [|nv l IHl r IHr]; intros parent succ st H; unfold_walk; [exact H|].
  destruct (v >=? nv); [apply IHr | apply IHl]; auto 10 with snaps.
Qed.

Lemma selectWalk_snapshots (root0 : TreeNode) (k : Z) (node : TreeNode) :
  ∀ s, snapshots root0 (sel_rec s) →
  snapshots root0 (sel_rec (selectWalk root0 k node s)).
Proof.
  induction node as [|nv l IHl r IHr]; intros s H; unfold_walk; [exact H|].
  destruct (sel_result s); [exact H|].
  match goal with |- context [selectWalk root0 k l ?s0] =>
    specialize (IHl s0 ltac:(unfold_walk; auto with snaps));
    set (sl := selectWalk root0 k l s0) in *
  end.
  destruct (sel_count sl + 1 =? k); unfold_walk.
  - auto 10 with snaps.
  - apply IHr. unfold_walk. auto 10 with snaps.
Qed.

Lemma inorderWalk_snapshots (root0 node : TreeNode) :
  ∀ st, snapshots root0 st → snapshots root0 (inorderWalk root0 node st).
Proof.
  induction node as [|nv l IHl r IHr]; intros st H; unfold_walk; [exact H|].
  apply IHr. do 3 (first [apply snapshots_pushChildEdge | apply snapshots_pushTraversal]).
  apply snapshots_setNode, IHl. auto with snaps.
Qed.

Lemma preorderWalk_snapshots (root0 node : TreeNode) :
  ∀ st, snapshots root0 st → snapshots root0 (preorderWalk root0 node st).
Proof.
  induction node as [|nv l IHl r IHr]; intros st H; unfold_walk; [exact H|].
  apply IHr, snapshots_pushChildEdge, snapshots_pushTraversal, IHl.
  auto 10 with snaps.
Qed.

Lemma postorderWalk_snapshots (root0 node : TreeNode) :
  ∀ st, snapshots root0 st → snapshots root0 (postorderWalk root0 node st).
Proof.
  induction node as [|nv l IHl r IHr]; intros st H; unfold_walk; [exact H|].
  apply snapshots_pushTraversal, snapshots_setNode, IHr.
  apply snapshots_pushChildEdge, snapshots_pushTraversal, IHl.
  auto with snaps.
Qed.

(** X18. The operations that only read the tree (search, predecessor,
    successor, k-th smallest and the three traversals) record in every step
    a snapshot structurally equal to the tree they were given. *)
Theorem reading_operations_snapshot_input (T : TreeNode) (v : Z) :
  Forall (snapshotOf T) (steps (searchNode T v))
  ∧ Forall (snapshotOf T) (steps (findPredecessor T v))
  ∧ Forall (snapshotOf T) (steps (findSuccessor T v))
  ∧ Forall (snapshotOf T) (steps (selectKth T v))
  ∧ Forall (snapshotOf T) (inorderTraversal T)
  ∧ Forall (snapshotOf T) (preorderTraversal T)
  ∧ Forall (snapshotOf T) (postorderTraversal T).
Proof.
  assert (S0 : ∀ d, snapshots T (push (makeStep T d [] [] (Some 0) None) emptyRecorder))
    by (intros d; auto with snaps).
  repeat split.
  - apply searchLoop_snapshots, snapshots_empty.
  - unfold findPredecessor.
    match goal with |- context [predecessorLoop T v T None None ?s] =>
      pose proof (predecessorLoop_snapshots T v T None None s (S0 _)) as H;
      destruct (predecessorLoop T v T None None s) as [[p|] st]
    end; unfold_walk; apply snapshots_pushSummary, H.
  - unfold findSuccessor.
    match goal with |- context [successorLoop T v T None None ?s] =>
      pose proof (successorLoop_snapshots T v T None None s (S0 _)) as H;
      destruct (successorLoop T v T None None s) as [[p|] st]
    end; unfold_walk; apply snapshots_pushSummary, H.
  - unfold selectKth.
    match goal with |- context [selectWalk T v T ?s] =>
      pose proof (selectWalk_snapshots T v T s (S0 _)) as H;
      destruct (sel_result (selectWalk T v T s))
    end; unfold_walk; apply snapshots_pushSummary, H.
  - apply snapshots_push; [apply snapshotOf_makeStep|].
    apply inorderWalk_snapshots, snapshots_empty.
  - apply snapshots_push; [apply snapshotOf_makeStep|].
    apply preorderWalk_snapshots, snapshots_empty.
  - apply snapshots_push; [apply snapshotOf_makeStep|].
    apply postorderWalk_snapshots, snapshots_empty.
Qed.

Lemma insert_snapshots (root0 : TreeNode) (v : Z) (node : TreeNode) :
  ∀ parent st, snapshots root0 st → snapshots root0 (insert root0 v node parent st).2.
Proof.
  induction node as [|nv l IHl r IHr]; intros parent st H; unfold_walk; [exact H|].
  destruct (v <? nv).
  - match goal with |- context [insert root0 v l ?p ?s] =>
      specialize (IHl p s); destruct (insert root0 v l p s) end.
    unfold_walk. apply IHl. auto 10 with snaps.
  - destruct (v >? nv).
    + match goal with |- context [insert root0 v r ?p ?s] =>
        specialize (IHr p s); destruct (insert root0 v r p s) end.
      unfold_walk. apply IHr. auto 10 with snaps.
    + unfold_walk. auto 10 with snaps.
Qed.

(** X19. Every step [insertNode] records before the last one shows the
    tree as it was given; the last step shows the returned tree. *)
Theorem insertNode_snapshots (T : TreeNode) (v : Z) :
  ∃ before final, steps (insertNode T v) = before ++ [final]
    ∧ Forall (snapshotOf T) before
    ∧ snapshotOf (root (insertNode T v)) final.
Proof.
  destruct T as [|nv l r].
  - eexists [], _. split; [reflexivity|]. split; [constructor|].
    apply snapshotOf_makeStep.
  - unfold insertNode. rewrite cloneTree_id.
    pose proof (insert_snapshots (Node nv l r) v (Node nv l r) None emptyRecorder
                  (snapshots_empty _)) as H.
    destruct (insert _ v _ None emptyRecorder) as [root2 st].
    unfold_walk. unfold_walk_in H.
    eexists (rec_steps st), _. split; [reflexivity|]. split; [exact H|].
    apply snapshotOf_makeStep.
Qed.

Lemma remove_snapshots (T : TreeNode) (v : Z) (node : TreeNode) :
  ∀ ctx parent st, ctx node = T → twoChildrenAt v node = false →
  snapshots T st → snapshots T (remove v ctx node parent st).2.
Proof.
  induction node as [|nv l IHl r IHr]; intros ctx parent st C N H; unfold_walk.
  - rewrite C. auto with snaps.
  - rewrite C. cbn [twoChildrenAt] in N.
    destruct (v <? nv).
    { match goal with |- context [remove v ?c l ?p ?s] =>
        specialize (IHl c p s C N); destruct (remove v c l p s) end.
      unfold_walk. apply IHl. auto 10 with snaps. }
    destruct (v >? nv).
    { match goal with |- context [remove v ?c r ?p ?s] =>
        specialize (IHr c p s C N); destruct (remove v c r p s) end.
      unfold_walk. apply IHr. auto 10 with snaps. }
    destruct l as [|lv ll lr], r as [|rv rl rr]; cbn [fst snd];
      [auto 10 with snaps .. | discriminate N].
Qed.

(** X20. When the node holding the value has at most one child, or no
    node holds it, every step [removeNode] records before the last one
    shows the tree as it was given, and the last step shows the returned
    tree. *)
Theorem removeNode_snapshots (T : TreeNode) (v : Z) :
  twoChildrenAt v T = false →
  ∃ before final, steps (removeNode T v) = before ++ [final]
    ∧ Forall (snapshotOf T) before
    ∧ snapshotOf (root (removeNode T v)) final.
Proof.
  intros N. unfold removeNode. rewrite cloneTree_id.
  pose proof (remove_snapshots T v T (fun x => x) None emptyRecorder eq_refl N
                (snapshots_empty _)) as H.
  destruct (remove v _ T None emptyRecorder) as [root2 st].
  unfold_walk. unfold_walk_in H.
  eexists (rec_steps st), _. split; [reflexivity|].
  split; [exact H | apply snapshotOf_makeStep].
Qed.

Lemma removeNode_snapshots_witness :
  twoChildrenAt 1 tree_1_2_3 = false
  ∧ ∃ before final, steps (removeNode tree_1_2_3 1) = before ++ [final]
      ∧ Forall (snapshotOf tree_1_2_3) before
      ∧ snapshotOf (root (removeNode tree_1_2_3 1)) final.
Proof.
  split; [reflexivity | exact (removeNode_snapshots tree_1_2_3 1 eq_refl)].
Defined.

(** ** Random tree *)

Lemma setAdd_elem (d : Z) (vs : list Z) (x : Z) :
  x ∈ setAdd d vs ↔ x ∈ vs ∨ x = d.
Proof.
  unfold setAdd. case_bool_decide as H.
  - split; [auto | intros [?| ->]; assumption].
  - rewrite elem_of_app, list_elem_of_singleton. reflexivity.
Qed.

Lemma setAdd_NoDup (d : Z) (vs : list Z) : NoDup vs → NoDup (setAdd d vs).
Proof.
  intros N. unfold setAdd. case_bool_decide as H; [exact N|].
  apply NoDup_app. split; [exact N|]. split; [|apply NoDup_singleton].
  intros x Hx Hd. apply list_elem_of_singleton in Hd. subst x. contradiction.
Qed.

Lemma setAdd_length (d : Z) (vs : list Z) :
  (length vs <= length (setAdd d vs) <= length vs + 1)%nat.
Proof.
  unfold setAdd. case_bool_decide; [lia|]. rewrite length_app. simpl. lia.
Qed.

Lemma sampleValues_result (size : Z) (draws : list Z) : ∀ vs out,
  NoDup vs → sampleValues size draws vs = Some out →
  NoDup out
  ∧ (∀ x, x ∈ out → x ∈ vs ∨ x ∈ draws)
  ∧ Z.of_nat (length out) = Z.max size (Z.of_nat (length vs)).
Proof.
  induction draws as [|d draws IH]; intros vs out N E; cbn [sampleValues] in E.
  - case_bool_decide as Hlt; [discriminate|]. injection E as <-.
    split; [exact N|]. split; [auto | lia].
  - case_bool_decide as Hlt.
    + destruct (IH _ _ (setAdd_NoDup d vs N) E) as (N' & Sub & Len).
      split; [exact N'|]. split.
      * intros x Hx. destruct (Sub x Hx) as [H|H].
        -- apply setAdd_elem in H as [H| ->]; [auto | right; left].
        -- right. right. exact H.
      * pose proof (setAdd_length d vs). lia.
    + injection E as <-. split; [exact N|]. split; [auto | lia].
Qed.

Lemma insertAll_result (vs : list Z) : ∀ root0 acc,
  bst root0 → NoDup vs → (∀ x, x ∈ vs → x ∉ values root0) →
  bst (insertAll vs root0 acc).1
  ∧ countNodes (insertAll vs root0 acc).1 = countNodes root0 + Z.of_nat (length vs)
  ∧ ∀ x, x ∈ values (insertAll vs root0 acc).1 ↔ x ∈ values root0 ∨ x ∈ vs.
Proof.
  induction vs as [|v vs IH]; intros root0 acc B N Fresh; cbn [insertAll].
  - split; [exact B|]. split; [simpl; lia|].
    intros x. split; [auto | intros [H|H]; [exact H | inversion H]].
  - apply NoDup_cons in N as [Nv N]. rewrite insertNode_root.
    destruct (IH (insertPlain root0 v) (acc ++ steps (insertNode root0 v))
                (insertPlain_bst _ _ B) N) as (B' & C' & V').
    { intros x Hx Hin. apply insertPlain_values in Hin as [-> | Hin];
        [contradiction | apply (Fresh x); [right; exact Hx | exact Hin]]. }
    split; [exact B'|]. split.
    + rewrite C', insertPlain_count by (apply Fresh; left).
      cbn [length]. lia.
    + intros x. rewrite V', insertPlain_values, elem_of_cons. tauto.
Qed.

(** X21. When the sampling loop of [createRandomTree] ends, the returned
    root is a binary search tree of [max 0 size] nodes, all of its values
    were drawn, and the last recorded step shows it. *)
Theorem createRandomTree_result (size : Z) (draws : list Z) (out : Outcome TreeNode) :
  createRandomTree size draws = Some out →
  bst (root out)
  ∧ countNodes (root out) = Z.max 0 size
  ∧ (∀ x, x ∈ values (root out) → x ∈ draws)
  ∧ ∃ before final, steps out = before ++ [final] ∧ snapshotOf (root out) final.
Proof.
  unfold createRandomTree. intros E.
  destruct (sampleValues size draws []) as [vs|] eqn:Es; [|discriminate].
  destruct (sampleValues_result _ _ _ _ (NoDup_nil_2) Es) as (N & Sub & Len).
  destruct (insertAll_result vs Null [] I N) as (B & C & V).
  { intros x _ H. inversion H. }
  destruct (insertAll vs Null []) as [root1 allSteps].
  injection E as <-. cbn [root payload steps fst] in *.
  split; [exact B|]. split; [rewrite C; simpl in *; lia|]. split.
  - intros x Hx. apply V in Hx as [Hx|Hx]; [inversion Hx|].
    destruct (Sub x Hx) as [H|H]; [inversion H | exact H].
  - eexists allSteps, _. split; [reflexivity | apply snapshotOf_makeStep].
Qed.

Lemma createRandomTree_result_witness :
  ∃ out, createRandomTree 2 [5; 5; 3] = Some out
    ∧ bst (root out)
    ∧ countNodes (root out) = Z.max 0 2
    ∧ (∀ x, x ∈ values (root out) → x ∈ [5; 5; 3])
    ∧ ∃ before final, steps out = before ++ [final] ∧ snapshotOf (root out) final.
Proof.
  destruct (createRandomTree 2 [5; 5; 3]) as [out|] eqn:E; [|discriminate E].
  exists out. split; [reflexivity|].
  exact (createRandomTree_result 2 [5; 5; 3] out E).
Defined.

Lemma sampleValues_bounded (size : Z) (draws : list Z) : ∀ vs,
  99 < size → NoDup vs →
  Forall (λ d, 1 <= d <= 99) draws → Forall (λ d, 1 <= d <= 99) vs →
  sampleValues size draws vs = None.
Proof.
  induction draws as [|d draws IH]; intros vs Hs N Hd Hv.
  all: assert (L : Z.of_nat (length vs) < size).
  all: try (assert (S : vs ⊆+ seqZ 1 99)
    by (apply NoDup_submseteq; [exact N|];
        intros x Hx; rewrite Forall_forall in Hv; apply Hv in Hx;
        apply elem_of_seqZ; lia);
    apply submseteq_length in S; rewrite length_seqZ in S; lia).
  - cbn [sampleValues]. rewrite bool_decide_eq_true_2 by exact L. reflexivity.
  - cbn [sampleValues]. rewrite bool_decide_eq_true_2 by exact L.
    apply Forall_cons in Hd as [Hd1 Hd].
    apply IH; [exact Hs | apply setAdd_NoDup, N | exact Hd|].
    apply Forall_forall. intros x Hx. apply setAdd_elem in Hx as [Hx| ->]; [|exact Hd1].
    rewrite Forall_forall in Hv. apply Hv, Hx.
Qed.

(** X22. The sampling loop draws from 1..99 only: asked for more than 99
    nodes, [createRandomTree] never gets past the loop, whatever the draws
    and however many. *)
Theorem createRandomTree_over_99_no_result (size : Z) (draws : list Z) :
  99 < size → Forall (λ d, 1 <= d <= 99) draws →
  createRandomTree size draws = None.
Proof.
  intros Hs Hd. unfold createRandomTree.
  rewrite sampleValues_bounded; [reflexivity | exact Hs | constructor | exact Hd | constructor].
Qed.

Lemma createRandomTree_over_99_no_result_witness :
  99 < 100 ∧ Forall (λ d, 1 <= d <= 99) [7; 42]
  ∧ createRandomTree 100 [7; 42] = None.
Proof.
  assert (Hs : 99 < 100) by lia.
  assert (Hd : Forall (λ d, 1 <= d <= 99) [7; 42]) by (repeat constructor; lia).
  split; [exact Hs | split; [exact Hd|]].
  exact (createRandomTree_over_99_no_result 100 [7; 42] Hs Hd).
Defined.

Lemma sampleValues_enough (size : Z) (draws : list Z) : ∀ vs,
  NoDup vs → size <= Z.of_nat (length (remove_dups (vs ++ draws))) →
  is_Some (sampleValues size draws vs).
Proof.
  induction draws as [|d draws IH]; intros vs N H; cbn [sampleValues].
  - case_bool_decide as Hlt; [|eexists; reflexivity].
    exfalso. rewrite app_nil_r in H.
    pose proof (submseteq_length _ _
      (NoDup_submseteq _ vs (NoDup_remove_dups vs)
         (λ x Hx, proj1 (elem_of_remove_dups vs x) Hx))).
    lia.
  - case_bool_decide as Hlt; [|eexists; reflexivity].
    apply IH; [apply setAdd_NoDup, N|].
    assert (P : remove_dups (setAdd d vs ++ draws) ≡ₚ remove_dups (vs ++ d :: draws)).
    { apply NoDup_Permutation; [apply NoDup_remove_dups .. |].
      intros x. rewrite !elem_of_remove_dups, !elem_of_app, setAdd_elem, elem_of_cons.
      tauto. }
    rewrite P. exact H.
Qed.

(** X23. [createRandomTree] returns as soon as the draws hold [size]
    distinct values. *)
Theorem createRandomTree_returns (size : Z) (draws : list Z) :
  size <= Z.of_nat (length (remove_dups draws)) →
  is_Some (createRandomTree size draws).
Proof.
  intros H. unfold createRandomTree.
  destruct (sampleValues_enough size draws [] (NoDup_nil_2) H) as [vs ->].
  destruct (insertAll vs Null []). eexists; reflexivity.
Qed.

Lemma createRandomTree_returns_witness :
  2 <= Z.of_nat (length (remove_dups [5; 5; 3]))
  ∧ is_Some (createRandomTree 2 [5; 5; 3]).
Proof.
  assert (H : 2 <= Z.of_nat (length (remove_dups [5; 5; 3]))) by (vm_compute; discriminate).
  split; [exact H | exact (createRandomTree_returns 2 [5; 5; 3] H)].
Defined.

(** ** Playback controller *)

Module PlaybackInvariants.
Import Playback.

Section Invariants.

Variable trace : list AnimationStep.

Lemma emitCurrent_cases (c : Controller) :
  emitCurrent trace c = c
  ∨ ∃ s, trace !! Z.to_nat (index c) = Some s
      ∧ emitCurrent trace c
        = mkController (index c) (timerId c) (speed c) (log c ++ [OnStep s]).
Proof.
  unfold emitCurrent.
  destruct (bool_decide (0 <= index c) && bool_decide (index c < total trace));
    [|left; reflexivity].
  destruct (trace !! Z.to_nat (index c)) as [s|] eqn:E; [|left; reflexivity].
  right. exists s. split; reflexivity.
Qed.

Lemma wellFormed_emitCurrent (c : Controller) :
  wellFormed trace c → wellFormed trace (emitCurrent trace c).
Proof.
  intros W. destruct (emitCurrent_cases c) as [-> | (s & Hs & ->)]; [exact W|].
  destruct W as [Hi Hl]. split; [exact Hi|]. cbn [log].
  intros s' Hin. apply elem_of_app in Hin as [Hin|Hin]; [apply Hl, Hin|].
  apply list_elem_of_singleton in Hin. injection Hin as ->.
  eapply list_elem_of_lookup_2, Hs.
Qed.

Lemma index_emitCurrent (c : Controller) : index (emitCurrent trace c) = index c.
Proof. destruct (emitCurrent_cases c) as [-> | (s & _ & ->)]; reflexivity. Qed.

Lemma timerId_emitCurrent (c : Controller) : timerId (emitCurrent trace c) = timerId c.
Proof. destruct (emitCurrent_cases c) as [-> | (s & _ & ->)]; reflexivity. Qed.

Lemma wellFormed_onComplete (c : Controller) : wellFormed trace c → wellFormed trace (onComplete c).
Proof.
  intros [Hi Hl]. split; [exact Hi|]. cbn [log onComplete].
  intros s Hin. apply elem_of_app in Hin as [Hin|Hin]; [apply Hl, Hin|].
  apply list_elem_of_singleton in Hin. discriminate Hin.
Qed.

Lemma wellFormed_tick (c : Controller) : wellFormed trace c → wellFormed trace (tick trace c).
Proof.
  intros W. unfold tick. case_bool_decide as Hge; [apply wellFormed_onComplete, W|].
  pose proof (wellFormed_emitCurrent c W) as [Hi Hl].
  rewrite index_emitCurrent in Hi.
  split; cbn [index log advance]; [rewrite index_emitCurrent; lia | exact Hl].
Qed.

Lemma wellFormed_exec (c : Controller) (cmd : Command) :
  wellFormed trace c → wellFormed trace (exec trace c cmd).
Proof.
  intros W. pose proof W as [Hi Hl].
  assert (T0 : 0 <= total trace) by (unfold total; lia).
  destruct cmd; cbn [exec].
  - apply wellFormed_tick, W.
  - exact W.
  - unfold stepForward. cbn [stop index].
    destruct (decide (index c < total trace)) as [Hlt|Hlt];
      [rewrite (bool_decide_eq_true_2 _ Hlt) | rewrite (bool_decide_eq_false_2 _ Hlt)].
    + pose proof (wellFormed_emitCurrent (stop c) W) as [Hi' Hl'].
      rewrite index_emitCurrent in Hi'. cbn [stop index] in Hi'.
      assert (W' : wellFormed trace (advance (emitCurrent trace (stop c)))).
      { split; cbn [advance index log]; [|exact Hl'].
        rewrite index_emitCurrent. cbn [stop index]. lia. }
      case_bool_decide; [apply wellFormed_onComplete|]; exact W'.
    + case_bool_decide; [apply wellFormed_onComplete|]; exact W.
  - unfold stepBackward. cbn [stop index timerId speed log].
    case_bool_decide as Hgt; [|exact W].
    apply wellFormed_emitCurrent. split; cbn [index log]; [lia | exact Hl].
  - unfold goToStart. cbn [stop index timerId speed log].
    apply wellFormed_emitCurrent. split; cbn [index log]; [lia | exact Hl].
  - unfold goToEnd. cbn [stop index timerId speed log].
    destruct (emitCurrent_cases
                (mkController (total trace - 1) None (speed c) (log c)))
      as [-> | (s & Hs & ->)]; cbn [index timerId speed log].
    + split; cbn [index log]; [lia | exact Hl].
    + split; cbn [index log]; [lia|].
      intros s' Hin. apply elem_of_app in Hin as [Hin|Hin]; [apply Hl, Hin|].
      apply list_elem_of_singleton in Hin. injection Hin as ->.
      eapply list_elem_of_lookup_2, Hs.
  - exact W.
  - exact W.
  - unfold fire. destruct (timerId c); [|exact W].
    apply wellFormed_tick. exact W.
Qed.

Lemma wellFormed_run (cmds : list Command) : wellFormed trace (run trace cmds).
Proof.
  unfold run.
  assert (W : wellFormed trace createPlayback).
  { split; [unfold total; cbn; lia | intros s H; inversion H]. }
  revert W. generalize createPlayback.
  induction cmds as [|cmd cmds IH]; intros c W; [exact W|].
  cbn [foldl]. apply IH, wellFormed_exec, W.
Qed.

End Invariants.

End PlaybackInvariants.

(** X24. Whatever methods are called on a playback controller and whenever
    its timeout expires, the cursor stays between 0 and the list length,
    and every step passed to [onStep] is a step of the list. *)
Theorem playback_cursor_in_range (trace : list AnimationStep)
    (cmds : list Playback.Command) :
  0 <= Playback.getIndex (Playback.run trace cmds)
    <= Playback.getTotal trace (Playback.run trace cmds)
  ∧ ∀ s, Playback.OnStep s ∈ Playback.log (Playback.run trace cmds) → s ∈ trace.
Proof. apply PlaybackInvariants.wellFormed_run. Qed.

Module PlaybackSpeed.
Import Playback.

Section Speed.

Variable trace : list AnimationStep.

Lemma sameButSpeed_emitCurrent (c c' : Controller) :
  sameButSpeed c c' → sameButSpeed (emitCurrent trace c) (emitCurrent trace c').
Proof.
  intros (Hi & Hl & Ht). unfold emitCurrent. rewrite <- Hi.
  destruct (bool_decide (0 <= index c) && bool_decide (index c < total trace));
    [|exact (conj Hi (conj Hl Ht))].
  destruct (trace !! Z.to_nat (index c)); [|exact (conj Hi (conj Hl Ht))].
  split; [reflexivity|]. split; [cbn [log]; rewrite Hl; reflexivity | exact Ht].
Qed.

Lemma sameButSpeed_stop (c c' : Controller) :
  sameButSpeed c c' → sameButSpeed (stop c) (stop c').
Proof.
  intros (Hi & Hl & _). split; [exact Hi|]. split; [exact Hl | split; reflexivity].
Qed.

Lemma sameButSpeed_onComplete (c c' : Controller) :
  sameButSpeed c c' → sameButSpeed (onComplete c) (onComplete c').
Proof.
  intros (Hi & Hl & Ht). split; [exact Hi|].
  split; [cbn [log onComplete]; rewrite Hl; reflexivity | exact Ht].
Qed.

Lemma sameButSpeed_advance (c c' : Controller) :
  sameButSpeed c c' → sameButSpeed (advance c) (advance c').
Proof.
  intros (Hi & Hl & Ht). split; [cbn [index advance]; rewrite Hi; reflexivity|].
  split; [exact Hl | exact Ht].
Qed.

Lemma sameButSpeed_at (i : Z) (c c' : Controller) :
  sameButSpeed c c' →
  sameButSpeed (mkController i (timerId c) (speed c) (log c))
               (mkController i (timerId c') (speed c') (log c')).
Proof. intros (_ & Hl & Ht). split; [reflexivity | split; [exact Hl | exact Ht]]. Qed.

Lemma sameButSpeed_if (b : bool) (c1 c1' c2 c2' : Controller) :
  sameButSpeed c1 c1' → sameButSpeed c2 c2' →
  sameButSpeed (if b then c1 else c2) (if b then c1' else c2').
Proof. destruct b; auto. Qed.

Lemma sameButSpeed_tick (c c' : Controller) :
  sameButSpeed c c' → sameButSpeed (tick trace c) (tick trace c').
Proof.
  intros S. unfold tick. rewrite <- (proj1 S).
  destruct (bool_decide (index c >= total trace)); [apply sameButSpeed_onComplete, S|].
  destruct (sameButSpeed_advance _ _ (sameButSpeed_emitCurrent _ _ S)) as (Hi & Hl & _).
  split; [exact Hi|]. split; [exact Hl|]. split; discriminate.
Qed.

Lemma sameButSpeed_exec (c c' : Controller) (cmd : Command) :
  sameButSpeed c c' → sameButSpeed (exec trace c cmd) (exec trace c' cmd).
Proof.
  intros S. destruct cmd; cbn [exec].
  - apply sameButSpeed_tick, sameButSpeed_stop, S.
  - apply sameButSpeed_stop, S.
  - unfold stepForward.
    pose proof (sameButSpeed_stop _ _ S) as S1.
    set (m := if bool_decide (index (stop c) < total trace)
              then advance (emitCurrent trace (stop c)) else stop c).
    set (m' := if bool_decide (index (stop c') < total trace)
               then advance (emitCurrent trace (stop c')) else stop c').
    assert (S2 : sameButSpeed m m').
    { subst m m'. rewrite <- (proj1 S1). apply sameButSpeed_if; [|exact S1].
      apply sameButSpeed_advance, sameButSpeed_emitCurrent, S1. }
    rewrite <- (proj1 S2).
    apply sameButSpeed_if; [apply sameButSpeed_onComplete|]; exact S2.
  - unfold stepBackward.
    pose proof (sameButSpeed_stop _ _ S) as S1. rewrite <- (proj1 S1).
    destruct (bool_decide (index (stop c) > 0)); [|exact S1].
    apply sameButSpeed_emitCurrent, sameButSpeed_at, S1.
  - unfold goToStart.
    apply sameButSpeed_emitCurrent, sameButSpeed_at, sameButSpeed_stop, S.
  - unfold goToEnd.
    apply (sameButSpeed_at (total trace)), sameButSpeed_emitCurrent.
    apply sameButSpeed_at, sameButSpeed_stop, S.
  - exact S.
  - apply sameButSpeed_stop, S.
  - unfold fire. pose proof S as (Hi & Hl & Ht).
    destruct (timerId c) as [d|], (timerId c') as [d'|].
    + apply sameButSpeed_tick. split; [exact Hi|]. split; [exact Hl | reflexivity].
    + destruct Ht as [_ Ht]. discriminate (Ht eq_refl).
    + destruct Ht as [Ht _]. discriminate (Ht eq_refl).
    + exact S.
Qed.

Lemma sameButSpeed_setSpeed (s : Q) (c c' : Controller) :
  sameButSpeed c c' → sameButSpeed (setSpeed s c) c'.
Proof. intros S; exact S. Qed.

Lemma sameButSpeed_run (cmds : list Command) : ∀ c c',
  sameButSpeed c c' →
  sameButSpeed (foldl (exec trace) c cmds) (foldl (exec trace) c' (withoutSetSpeed cmds)).
Proof.
  induction cmds as [|cmd cmds IH]; intros c c' S; [exact S|].
  unfold withoutSetSpeed in *. cbn [List.filter foldl].
  destruct cmd; cbn [isSetSpeed negb foldl];
    try (apply IH, sameButSpeed_exec, S).
  apply IH, sameButSpeed_setSpeed, S.
Qed.

End Speed.

End PlaybackSpeed.

(** X25. The playback speed changes the delay of the timeouts only: a
    sequence of controller calls and timeout expiries, with and without its
    [setSpeed] calls, notifies the same steps and completions in the same
    order, ends at the same cursor, and leaves a timeout pending in the one
    case exactly when it does in the other. *)
Theorem setSpeed_changes_no_notification (trace : list AnimationStep)
    (cmds : list Playback.Command) :
  sameButSpeed (Playback.run trace cmds) (Playback.run trace (withoutSetSpeed cmds)).
Proof.
  apply PlaybackSpeed.sameButSpeed_run.
  split; [reflexivity|]. split; [reflexivity | split; intros H; exact H].
Qed.

Module PlaybackResume.
Import Playback.

Section Resume.

Variable trace : list AnimationStep.

(** A tick at cursor [i] followed by the expiry of every timeout it
    schedules. *)
Lemma tick_to_end (k : nat) : ∀ (i : nat) (t : option Delay) (sp : Q) (l : list Event),
  (i + k)%nat = length trace →
  log (foldl (exec trace) (tick trace (mkController (Z.of_nat i) t sp l)) (repeat Fire k))
    = l ++ (OnStep <$> drop i trace) ++ [OnComplete]
  ∧ index (foldl (exec trace) (tick trace (mkController (Z.of_nat i) t sp l))
             (repeat Fire k))
    = Z.of_nat (length trace).
Proof.
  induction k as [|k IH]; intros i t sp l Hik.
  - rewrite PlaybackFacts.tick_completes by lia. cbn [repeat foldl log index].
    rewrite drop_ge by lia. split; [reflexivity | lia].
  - destruct (lookup_lt_is_Some_2 trace i) as [s Hs]; [lia|].
    rewrite (PlaybackFacts.tick_emits trace i s) by exact Hs.
    cbn [repeat foldl exec]. unfold fire. cbn [timerId index speed log].
    destruct (IH (S i) None sp (l ++ [OnStep s]) ltac:(lia)) as [Hl Hi].
    split; [|exact Hi].
    rewrite Hl, (drop_S _ _ _ Hs), <- app_assoc. reflexivity.
Qed.

Lemma pause_play (j : nat) :
  (j < length trace)%nat →
  log (run trace (Play :: repeat Fire j ++ [Pause; Play]
                    ++ repeat Fire (length trace - S j)))
    = (OnStep <$> trace) ++ [OnComplete]
  ∧ index (run trace (Play :: repeat Fire j ++ [Pause; Play]
                        ++ repeat Fire (length trace - S j)))
    = Z.of_nat (length trace).
Proof.
  intros Hj. unfold run.
  rewrite app_comm_cons, foldl_app.
  change (foldl (exec trace) createPlayback (Play :: repeat Fire j))
    with (run trace (Play :: repeat Fire j)).
  rewrite PlaybackFacts.run_play_fires by exact Hj.
  cbn [app foldl exec]. unfold pause, play, stop. cbn [index timerId speed log].
  destruct (tick_to_end (length trace - S j) (S j) None 1%Q
              (OnStep <$> take (S j) trace) ltac:(lia)) as [Hl Hi].
  split; [|exact Hi].
  rewrite Hl, app_assoc, <- fmap_app, take_drop. reflexivity.
Qed.

End Resume.

End PlaybackResume.

(** X26. Pausing a running playback and playing again resumes where it
    stopped: with the pause after any number of expiries short of the list
    length, every step is still notified once, in order, then completion
    once, and the cursor ends at the list length. *)
Theorem pause_then_play_resumes (trace : list AnimationStep) (j : nat) :
  (j < length trace)%nat →
  Playback.log
    (Playback.run trace
       (Playback.Play :: repeat Playback.Fire j ++ [Playback.Pause; Playback.Play]
          ++ repeat Playback.Fire (length trace - S j)))
    = (Playback.OnStep <$> trace) ++ [Playback.OnComplete]
  ∧ Playback.getIndex
      (Playback.run trace
         (Playback.Play :: repeat Playback.Fire j ++ [Playback.Pause; Playback.Play]
            ++ repeat Playback.Fire (length trace - S j)))
    = Playback.getTotal trace
        (Playback.run trace
           (Playback.Play :: repeat Playback.Fire j ++ [Playback.Pause; Playback.Play]
              ++ repeat Playback.Fire (length trace - S j))).
Proof. apply PlaybackResume.pause_play. Qed.

Lemma pause_then_play_resumes_witness :
  (1 < length (steps (searchNode tree_1_2 1)))%nat
  ∧ Playback.log
      (Playback.run (steps (searchNode tree_1_2 1))
         (Playback.Play :: repeat Playback.Fire 1 ++ [Playback.Pause; Playback.Play]
            ++ repeat Playback.Fire (length (steps (searchNode tree_1_2 1)) - 2)))
    = (Playback.OnStep <$> steps (searchNode tree_1_2 1)) ++ [Playback.OnComplete].
Proof.
  assert (H : (1 < length (steps (searchNode tree_1_2 1)))%nat) by (vm_compute; lia).
  split; [exact H|].
  exact (proj1 (pause_then_play_resumes (steps (searchNode tree_1_2 1)) 1 H)).
Defined.

(** ** Stepping back and forth *)

Module PlaybackSteps.
Import Playback.

Section Steps.

Variable trace : list AnimationStep.

Lemma back_and_forth (c : Controller) :
  0 < index c <= total trace →
  ∃ s, trace !! Z.to_nat (index c - 1) = Some s
    ∧ index (stepForward trace (stepBackward trace c)) = index c
    ∧ log (stepForward trace (stepBackward trace c))
      = log c ++ [OnStep s; OnStep s]
          ++ (if bool_decide (index c = total trace) then [OnComplete] else []).
Proof.
  destruct c as [i0 t sp l]. cbn [index log]. unfold total. intros Hi.
  set (i := Z.to_nat (i0 - 1)).
  destruct (lookup_lt_is_Some_2 trace i) as [s Hs]; [lia|].
  exists s. split; [exact Hs|].
  unfold stepBackward, stop. cbn [index timerId speed log].
  rewrite bool_decide_eq_true_2 by lia.
  replace (i0 - 1) with (Z.of_nat i) by lia.
  rewrite (PlaybackFacts.emitCurrent_at trace i s) by exact Hs.
  destruct (decide (i0 = Z.of_nat (length trace))) as [E|E].
  - rewrite (PlaybackFacts.stepForward_last trace i s) by (exact Hs || lia).
    cbn [index log]. unfold total. rewrite bool_decide_eq_true_2 by exact E.
    split; [lia|]. rewrite <- !app_assoc. reflexivity.
  - rewrite (PlaybackFacts.stepForward_emits trace i s) by (exact Hs || lia).
    cbn [index log]. unfold total. rewrite bool_decide_eq_false_2 by exact E.
    split; [lia|]. rewrite <- !app_assoc. reflexivity.
Qed.

End Steps.

End PlaybackSteps.

(** X27. With the cursor past the first step, [stepBackward] followed by
    [stepForward] brings the cursor back to where it was; both calls notify
    the step just before the cursor, and completion is notified when the
    cursor was at the list length. *)
Theorem stepBackward_stepForward_round_trip (trace : list AnimationStep)
    (cmds : list Playback.Command) :
  0 < Playback.getIndex (Playback.run trace cmds) →
  ∃ s, trace !! Z.to_nat (Playback.getIndex (Playback.run trace cmds) - 1) = Some s
    ∧ Playback.getIndex
        (Playback.run trace (cmds ++ [Playback.StepBackward; Playback.StepForward]))
      = Playback.getIndex (Playback.run trace cmds)
    ∧ Playback.log
        (Playback.run trace (cmds ++ [Playback.StepBackward; Playback.StepForward]))
      = Playback.log (Playback.run trace cmds)
          ++ [Playback.OnStep s; Playback.OnStep s]
          ++ (if bool_decide (Playback.getIndex (Playback.run trace cmds)
                              = Playback.total trace)
              then [Playback.OnComplete] else []).
Proof.
  intros Hi. unfold Playback.getIndex in *.
  pose proof (PlaybackInvariants.wellFormed_run trace cmds) as [W _].
  assert (R : ∀ more, Playback.run trace (cmds ++ more)
                = foldl (Playback.exec trace) (Playback.run trace cmds) more)
    by (intros more; unfold Playback.run; apply foldl_app).
  rewrite R. cbn [foldl Playback.exec].
  apply PlaybackSteps.back_and_forth. lia.
Qed.

Lemma stepBackward_stepForward_round_trip_witness :
  0 < Playback.getIndex
        (Playback.run (steps (searchNode tree_1_2 1)) [Playback.StepForward])
  ∧ Playback.getIndex
      (Playback.run (steps (searchNode tree_1_2 1))
         ([Playback.StepForward] ++ [Playback.StepBackward; Playback.StepForward]))
    = Playback.getIndex
        (Playback.run (steps (searchNode tree_1_2 1)) [Playback.StepForward]).
Proof.
  assert (H : 0 < Playback.getIndex
                    (Playback.run (steps (searchNode tree_1_2 1)) [Playback.StepForward]))
    by (vm_compute; reflexivity).
  split; [exact H|].
  destruct (stepBackward_stepForward_round_trip
              (steps (searchNode tree_1_2 1)) [Playback.StepForward] H)
    as (s & _ & E & _).
  exact E.
Defined.

(** ** Pseudocode registry *)

(** X28. The pseudocode registry and the operation kinds match: every
    operation kind has an entry of its own with at least one line, so
    [getPseudocode] never falls back to the empty entry, and every entry of
    the registry belongs to an operation kind. *)
Theorem pseudocode_registry_matches_operations :
  (∀ op, PSEUDOCODE !! opName op = Some (getPseudocode op)
         ∧ lines (getPseudocode op) ≠ [])
  ∧ (∀ key entry, PSEUDOCODE !! key = Some entry →
       ∃ op, opName op = key ∧ getPseudocode op = entry).
Proof.
  split.
  - intros op. destruct op; (split; [reflexivity | vm_compute; discriminate]).
  - intros key entry H. unfold PSEUDOCODE in H.
    apply elem_of_list_to_map_2 in H.
    repeat (apply elem_of_cons in H as [H|H];
            [injection H as -> ->;
             first [ exists OpCreate; split; reflexivity
                   | exists OpSearch; split; reflexivity
                   | exists OpInsert; split; reflexivity
                   | exists OpRemove; split; reflexivity
                   | exists OpPredecessor; split; reflexivity
                   | exists OpSuccessor; split; reflexivity
                   | exists OpSelectKth; split; reflexivity
                   | exists OpInorder; split; reflexivity
                   | exists OpPreorder; split; reflexivity
                   | exists OpPostorder; split; reflexivity ]|]).
    inversion H.
Qed.

(** ** Layout indices *)

Lemma countNodes_nonneg (t : TreeNode) : 0 <= countNodes t.
Proof. rewrite countNodes_length. lia. Qed.

(** X29. [assignIndices] copies the shape and the values of the tree,
    numbers the nodes consecutively from the counter in in-order, leaves
    the counter advanced by the node count, and gives every node the given
    depth plus its distance from the root. *)
Theorem assignIndices_inorder_numbering (t : TreeNode) (d counter : Z) :
  rawTree (assignIndices t d counter).1 = t
  ∧ rawIndices (assignIndices t d counter).1 = seqZ counter (countNodes t)
  ∧ (assignIndices t d counter).2 = counter + countNodes t
  ∧ rawDepths (assignIndices t d counter).1 = levels t d.
Proof.
  revert d counter. induction t as [|v l IHl r IHr]; intros d counter.
  - cbn [assignIndices countNodes fst snd]. repeat split; try reflexivity. lia.
  - cbn [assignIndices countNodes levels].
    destruct (IHl (d + 1) counter) as (Tl & Il & Cl & Dl).
    destruct (assignIndices l (d + 1) counter) as [leftPos c1].
    cbn [fst snd] in *. subst c1.
    destruct (IHr (d + 1) (counter + countNodes l + 1)) as (Tr & Ir & Cr & Dr).
    destruct (assignIndices r (d + 1) (counter + countNodes l + 1)) as [rightPos c2].
    cbn [fst snd rawTree rawIndices rawDepths] in *. subst c2.
    pose proof (countNodes_nonneg l). pose proof (countNodes_nonneg r).
    split; [rewrite Tl, Tr; reflexivity|].
    split; [|split; [lia | rewrite Dl, Dr; reflexivity]].
    rewrite Il, Ir.
    replace (1 + countNodes l + countNodes r)
      with (countNodes l + (1 + countNodes r)) by lia.
    rewrite seqZ_app by lia. f_equal.
    rewrite (seqZ_cons (counter + countNodes l)) by lia. f_equal. f_equal; lia.
Qed.

(** ** Cloning in the store *)

(** X30. Given a reference that leads to a tree [T] and a recursion budget
    above the depth of [T], the store-level [cloneTree] returns a reference
    that leads to [T] through pairwise distinct objects, none of which
    existed before, and leaves every existing object as it was. *)
Theorem cloneTree_copies_into_new_objects (h : gmap Heap.loc Heap.Cell)
    (p : option Heap.loc) (T : TreeNode) (fuel : nat) :
  repr h p T → (depth T < fuel)%nat →
  returns (Heap.cloneTree fuel p) (Heap.initial h) (λ p' st',
    preserved h (Heap.store st')
    ∧ ∃ F, treeAt (Heap.store st') p' T F ∧ F ## dom h).
Proof.
  intros R Hf.
  eapply returns_conseq; [apply (cloneTree_returns T fuel p (Heap.initial h) R Hf)|].
  intros p' st' (P & _ & F & Ht & Hd). split; [exact P|].
  exists F. split; [exact Ht | exact Hd].
Qed.

Lemma cloneTree_copies_into_new_objects_witness :
  repr store_1_2_3 (Some 1%positive) tree_1_2_3
  ∧ returns (Heap.cloneTree 3 (Some 1%positive)) (Heap.initial store_1_2_3)
      (λ p' st',
        preserved store_1_2_3 (Heap.store st')
        ∧ ∃ F, treeAt (Heap.store st') p' tree_1_2_3 F ∧ F ## dom store_1_2_3).
Proof.
  assert (R : repr store_1_2_3 (Some 1%positive) tree_1_2_3).
  { exists 1%positive, (Some 2%positive), (Some 3%positive).
    repeat split; [exists 2%positive, None, None | exists 3%positive, None, None];
      repeat split. }
  split; [exact R|].
  apply (cloneTree_copies_into_new_objects store_1_2_3 (Some 1%positive)
           tree_1_2_3 3 R).
  simpl. lia.
Defined.
